(** * ASCII-APP: the image-to-text pipeline, embedded and verified

    Shallow embedding of [src/workers/asciiPipeline.worker.ts] and of the
    helpers it imports from [src/lib/image-processing.ts].

    Conventions of the embedding.
    - A JavaScript number is an exact rational ([Q]); the rounding of binary64
      arithmetic and of [Float32Array] stores is not modelled.  Integer-valued
      numbers used as sizes, coordinates and indices are [Z].
    - [Math.sqrt], [Math.exp] and [Math.pow] have no rational counterpart (and
      ECMAScript leaves the last two implementation-approximated): they are
      the fields of the class [HostMath].
    - A typed array is a [list]; [aget] is an indexed read ([None] is
      JavaScript's [undefined]) and [aset] an indexed write, which a typed
      array ignores out of range.
    - A [for] loop is [for_ lo hi body]: a left fold of the body over the
      values the loop variable takes, threading the mutated state.
    - A JavaScript string is the list of its UTF-16 code units. *)

From Stdlib Require Import ZArith QArith Qround Qminmax Qabs.
From Stdlib Require Import List Bool Lia Lqa.
From Stdlib Require Ascii String.
Import String.StringSyntax.
Delimit Scope string_scope with string.
Import ListNotations.

#[local] Open Scope Z_scope.

(* ================================================================== *)
(** * Part I: the embedding *)
(* ================================================================== *)

(** ** Arrays, loops and the numeric built-ins *)

Module JS.

Fixpoint upd {A : Type} (l : list A) (n : nat) (v : A) : list A :=
  match l, n with
  | [], _ => []
  | _ :: t, O => v :: t
  | a :: t, S n' => a :: upd t n' v
  end.

(** [a[i]]: [None] stands for [undefined]. *)
Definition aget {A : Type} (a : list A) (i : Z) : option A :=
  if i <? 0 then None else nth_error a (Z.to_nat i).

(** [a[i] = v] on a typed array: ignored when [i] is out of range. *)
Definition aset {A : Type} (a : list A) (i : Z) (v : A) : list A :=
  if i <? 0 then a else upd a (Z.to_nat i) v.

(** The value a read is given when the element is [undefined].  Every read
    made through [rd] is in range for buffers of [width * height] samples;
    where the source really meets [undefined] the model matches on [aget]. *)
Class Undef (A : Type) := undef : A.
#[export] Instance Undef_Z : Undef Z := 0.
#[export] Instance Undef_Q : Undef Q := 0%Q.

Definition rd {A : Type} `{Undef A} (a : list A) (i : Z) : A :=
  match aget a i with Some v => v | None => undef end.

(** [new Float32Array(n)], [new Uint8Array(n)], ...: [n] zeros. *)
Definition newArray {A : Type} `{Undef A} (n : Z) : list A :=
  repeat undef (Z.to_nat n).

(** The values of [i] in [for (let i = lo; i < hi; i++)]. *)
Definition Zrange (lo hi : Z) : list Z :=
  map (fun k => lo + Z.of_nat k) (seq 0 (Z.to_nat (hi - lo))).

Definition for_ {S : Type} (lo hi : Z) (body : Z -> S -> S) (s : S) : S :=
  fold_left (fun s i => body i s) (Zrange lo hi) s.

(** The values of [i] in [for (let i = lo; i < hi; i += st)], [st > 0]. *)
Definition ZrangeStep (lo hi st : Z) : list Z :=
  map (fun k => lo + st * Z.of_nat k) (seq 0 (Z.to_nat ((hi - lo + st - 1) / st))).

Definition forStep {S : Type} (lo hi st : Z) (body : Z -> S -> S) (s : S) : S :=
  fold_left (fun s i => body i s) (ZrangeStep lo hi st) s.

Definition Qltb (a b : Q) : bool := negb (Qle_bool b a).

Definition Math_round (x : Q) : Z := Qfloor (x + (1 # 2)).
Definition Math_floor (x : Q) : Z := Qfloor x.
Definition Math_ceil (x : Q) : Z := Qceiling x.

(** The conversion a [Uint8ClampedArray] store applies: clamp to [0, 255],
    round to the nearest integer, ties to even. *)
Definition toUint8Clamp (v : Q) : Z :=
  if Qle_bool v 0 then 0
  else if Qle_bool 255 v then 255
  else
    let f := Qfloor v in
    let d := (v - inject_Z f)%Q in
    if Qltb d (1 # 2) then f
    else if Qltb (1 # 2) d then f + 1
    else if Z.even f then f else f + 1.

(** The host's transcendental functions. *)
Class HostMath := {
  Math_sqrt : Q -> Q;
  Math_exp : Q -> Q;
  Math_pow : Q -> Q -> Q
}.

End JS.
Import JS.

Notation "a .[ i ]" := (rd a i) (at level 1, left associativity, format "a .[ i ]").

(** ** The integral-image engine (asciiPipeline.worker.ts) *)

Definition buildIntegralImage (Y : list Q) (width height : Z) : list Q :=
  for_ 0 height (fun y I =>
    snd (for_ 0 width (fun x '(rowSum, I_) =>
      let idx := y * width + x in
      let rowSum := (rowSum + Y.[idx])%Q in
      (rowSum,
       aset I_ idx (rowSum + (if 0 <? y then I_.[(y - 1) * width + x] else 0))%Q))
      (0%Q, I)))
    (newArray (width * height)).

Definition boxSum (I : list Q) (width height x y r : Z) : Q :=
  let x0 := Z.max 0 (x - r) in
  let y0 := Z.max 0 (y - r) in
  let x1 := Z.min (width - 1) (x + r) in
  let y1 := Z.min (height - 1) (y + r) in
  let A := I.[y0 * width + x0] in
  let B := I.[y0 * width + x1] in
  let C := I.[y1 * width + x0] in
  let D := I.[y1 * width + x1] in
  (D - B - C + A)%Q.

Definition computeLocalMean (Y : list Q) (width height radius : Z) : list Q :=
  let I := buildIntegralImage Y width height in
  let areaBase := (2 * radius + 1) * (2 * radius + 1) in
  for_ 0 height (fun y out =>
    for_ 0 width (fun x out =>
      let mean := (boxSum I width height x y radius / inject_Z areaBase)%Q in
      aset out (y * width + x) mean) out)
    (newArray (width * height)).

(** ** Luminance and the Sobel gradient (asciiPipeline.worker.ts) *)

Definition computeLuminance (data : list Z) (width height : Z) : list Q :=
  for_ 0 height (fun y Y =>
    for_ 0 width (fun x Y =>
      let i := (y * width + x) * 4 in
      let r := inject_Z data.[i] in
      let g := inject_Z data.[i + 1] in
      let b := inject_Z data.[i + 2] in
      aset Y (y * width + x) (0.299 * r + 0.587 * g + 0.114 * b)%Q) Y)
    (newArray (width * height)).

(** sRGB to linear, and the linear luminance (Rec. 709 coefficients). *)
Definition srgbToLinear {host : HostMath} (c : Q) : Q :=
  let v := (c / 255)%Q in
  if Qle_bool v 0.04045 then (v / 12.92)%Q
  else Math_pow ((v + 0.055) / 1.055) 2.4.

Definition computeLuminanceLinear {host : HostMath} (data : list Z) (width height : Z)
    : list Q :=
  for_ 0 height (fun y Y =>
    for_ 0 width (fun x Y =>
      let i := (y * width + x) * 4 in
      let r := srgbToLinear (inject_Z data.[i]) in
      let g := srgbToLinear (inject_Z data.[i + 1]) in
      let b := srgbToLinear (inject_Z data.[i + 2]) in
      let yl := (0.2126 * r + 0.7152 * g + 0.0722 * b)%Q in
      aset Y (y * width + x) yl) Y)
    (newArray (width * height)).

(** The state of [sobelGradient] after its first loop nest: the raw
    magnitudes [G] and the running maximum [maxG], which starts at 1e-6. *)
Definition sobelRaw (Y : list Q) (width height : Z) : list Q * Q :=
  for_ 1 (height - 1) (fun y st =>
    for_ 1 (width - 1) (fun x '(G, maxG) =>
      let idx := y * width + x in
      let xm1 := x - 1 in let xp1 := x + 1 in
      let ym1 := y - 1 in let yp1 := y + 1 in
      let a := Y.[ym1 * width + xm1] in
      let b := Y.[ym1 * width + x] in
      let c := Y.[ym1 * width + xp1] in
      let d := Y.[y * width + xm1] in
      let e := Y.[idx] in
      let f := Y.[y * width + xp1] in
      let g := Y.[yp1 * width + xm1] in
      let h := Y.[yp1 * width + x] in
      let i := Y.[yp1 * width + xp1] in
      let gx := (- a + c - 2 * d + 2 * f - g + i)%Q in
      let gy := (- a - 2 * b - c + g + 2 * h + i)%Q in
      let mag := (Qabs gx + Qabs gy)%Q in
      (aset G idx mag, if Qltb maxG mag then mag else maxG)) st)
    (newArray (width * height), (1 # 1000000)%Q).

Definition sobelGradient (Y : list Q) (width height : Z) : list Q :=
  let '(G, maxG) := sobelRaw Y width height in
  let inv := (1 / maxG)%Q in
  for_ 0 (Z.of_nat (length G)) (fun j G => aset G j (Qmin 1 (G.[j] * inv))) G.

(** ** Adaptive segmentation (asciiPipeline.worker.ts) *)

Definition buildIntegralImages (Y : list Q) (width height : Z) : list Q * list Q :=
  for_ 0 height (fun y II =>
    snd (for_ 0 width (fun x '(rowSum, rowSum2, (I_, I2_)) =>
      let idx := y * width + x in
      let v := Y.[idx] in
      let rowSum := (rowSum + v)%Q in
      let rowSum2 := (rowSum2 + v * v)%Q in
      let I' := aset I_ idx (rowSum + (if 0 <? y then I_.[(y - 1) * width + x] else 0))%Q in
      let I2' := aset I2_ idx (rowSum2 + (if 0 <? y then I2_.[(y - 1) * width + x] else 0))%Q in
      (rowSum, rowSum2, (I', I2')))
      (0%Q, 0%Q, II)))
    (newArray (width * height), newArray (width * height)).

Record Stats := { mean : Q; std : Q }.

Definition boxStats {host : HostMath} (I I2 : list Q) (width height x y r : Z) : Stats :=
  let x0 := Z.max 0 (x - r) in
  let y0 := Z.max 0 (y - r) in
  let x1 := Z.min (width - 1) (x + r) in
  let y1 := Z.min (height - 1) (y + r) in
  let area := (x1 - x0 + 1) * (y1 - y0 + 1) in
  let A := I.[y0 * width + x0] in
  let B := I.[y0 * width + x1] in
  let C := I.[y1 * width + x0] in
  let D := I.[y1 * width + x1] in
  let As := I2.[y0 * width + x0] in
  let Bs := I2.[y0 * width + x1] in
  let Cs := I2.[y1 * width + x0] in
  let Ds := I2.[y1 * width + x1] in
  let sum := (D - B - C + A)%Q in
  let sum2 := (Ds - Bs - Cs + As)%Q in
  let mean := (sum / inject_Z (Z.max 1 area))%Q in
  let var_ := Qmax 0 (sum2 / inject_Z (Z.max 1 area) - mean * mean) in
  let std := Math_sqrt var_ in
  {| mean := mean; std := std |}.

(** The probability [computeSoftBackgroundProb] stores for the pixel
    [(x, y)]: the body of its loop nest.  [grad] is the optional gradient
    field; [gThresh] is the gating threshold (0.2 when the caller omits it). *)
Definition softProbAt {host : HostMath} (Y I I2 : list Q) (width height radius : Z)
    (k : Q) (grad : option (list Q)) (gThresh : Q) (x y : Z) : Q :=
  let idx := y * width + x in
  let s := boxStats I I2 width height x y radius in
  let val := Y.[idx] in
  let thresh := (mean s - k * std s)%Q in
  let beta := Qmax 5 (0.5 * std s + 5) in
  let z := ((val - thresh) / beta)%Q in
  let p := (1 / (1 + Math_exp (- z)))%Q in
  let p :=
    match grad with
    | Some grad =>
        let g := grad.[idx] in
        if Qltb gThresh g then
          let gate := Qmin 1 ((g - gThresh) / Qmax (1 # 1000000) (1 - gThresh)) in
          (p * (1 - 0.75 * gate))%Q
        else p
    | None => p
    end in
  Qmax 0 (Qmin 1 p).

Definition computeSoftBackgroundProb {host : HostMath} (Y : list Q) (width height radius : Z)
    (k : Q) (grad : option (list Q)) (gThresh : Q) : list Q :=
  let II := buildIntegralImages Y width height in
  for_ 0 height (fun y P =>
    for_ 0 width (fun x P =>
      aset P (y * width + x)
           (softProbAt Y (fst II) (snd II) width height radius k grad gThresh x y)) P)
    (newArray (width * height)).

(** The mask value [computeLocalBackgroundMask] stores for the pixel
    [(x, y)]: the body of its loop nest. *)
Definition localMaskAt (Y I : list Q) (width height radius : Z)
    (t : Q) (grad : option (list Q)) (gThresh : Q) (x y : Z) : Z :=
  let areaBase := (2 * radius + 1) * (2 * radius + 1) in
  let mean := (boxSum I width height x y radius / inject_Z areaBase)%Q in
  let val := Y.[y * width + x] in
  let gated :=
    match grad with
    | Some grad => Qltb gThresh grad.[y * width + x]
    | None => false
    end in
  if gated then 0
  else if Qle_bool (mean * (1 - t)) val then 1 else 0.

Definition computeLocalBackgroundMask (Y : list Q) (width height radius : Z)
    (t : Q) (grad : option (list Q)) (gThresh : Q) : list Z :=
  let I := buildIntegralImage Y width height in
  for_ 0 height (fun y bg =>
    for_ 0 width (fun x bg =>
      aset bg (y * width + x) (localMaskAt Y I width height radius t grad gThresh x y)) bg)
    (newArray (width * height)).

(** ** The morphological refiner (asciiPipeline.worker.ts) *)

(** A mask value used as a condition: non-zero is true, [undefined] false. *)
Definition truthy (o : option Z) : bool :=
  match o with Some v => negb (v =? 0) | None => false end.

(** The eight neighbours and the pixel itself, in the scan order of the
    [ky], [kx] loops, clamped to the image. *)
Definition neighbours (width height x y : Z) : list Z :=
  flat_map (fun ky =>
    map (fun kx =>
      let nx := Z.min (width - 1) (Z.max 0 (x + kx)) in
      let ny := Z.min (height - 1) (Z.max 0 (y + ky)) in
      ny * width + nx) [-1; 0; 1]) [-1; 0; 1].

Definition gatedByEdge (edgeMask : option (list Z)) (i : Z) : bool :=
  match edgeMask with Some e => truthy (aget e i) | None => false end.

(** The scan stops at the first neighbour equal to 0: [keep] is 1 exactly
    when none is. *)
Definition erodeMask (mask : list Z) (width height : Z) (edgeMask : option (list Z)) : list Z :=
  for_ 0 height (fun y out =>
    for_ 0 width (fun x out =>
      let i := y * width + x in
      if gatedByEdge edgeMask i then aset out i mask.[i]
      else
        let keep :=
          if existsb (fun n => match aget mask n with Some 0 => true | _ => false end)
                     (neighbours width height x y)
          then 0 else 1 in
        aset out i keep) out)
    (newArray (Z.of_nat (length mask))).

Definition dilateMask (mask : list Z) (width height : Z) (edgeMask : option (list Z)) : list Z :=
  for_ 0 height (fun y out =>
    for_ 0 width (fun x out =>
      let i := y * width + x in
      if gatedByEdge edgeMask i then aset out i mask.[i]
      else
        let on :=
          if existsb (fun n => match aget mask n with Some 1 => true | _ => false end)
                     (neighbours width height x y)
          then 1 else 0 in
        aset out i on) out)
    (newArray (Z.of_nat (length mask))).

Definition refineMasks (bgMask : list Z) (width height : Z) (grad : list Q) (passes : Z) : list Z :=
  if passes <=? 0 then bgMask
  else
    let edgeMask :=
      for_ 0 (Z.of_nat (length grad)) (fun i e =>
        aset e i (if Qltb 0.35 grad.[i] then 1 else 0))
        (newArray (Z.of_nat (length bgMask))) in
    let fgMask :=
      for_ 0 (Z.of_nat (length bgMask)) (fun i f =>
        aset f i (if truthy (aget bgMask i) then 0 else 1))
        (newArray (Z.of_nat (length bgMask))) in
    let '(bg, fg) :=
      for_ 0 passes (fun p '(bg, fg) =>
        let bg := dilateMask bg width height (Some edgeMask) in
        let bg := erodeMask bg width height (Some edgeMask) in
        let fg := erodeMask fg width height (Some edgeMask) in
        let fg := dilateMask fg width height (Some edgeMask) in
        (bg, fg)) (bgMask, fgMask) in
    for_ 0 (Z.of_nat (length bg)) (fun i merged => aset merged i bg.[i])
      (newArray (Z.of_nat (length bg))).

(** ** Background detection, cropping and dithering (lib/image-processing.ts) *)

Module ImageData.
Record t := { data : list Z; width : Z; height : Z }.
End ImageData.

Module BBox.
Record t := { left : Z; top : Z; right : Z; bottom : Z }.
End BBox.

Definition transparentThresh : Z := 32.
Definition opaqueThresh : Z := 220.
Definition whiteThresh : Q := 245.
Definition blackThresh : Q := 10.

Definition brightnessOf (r g b : Z) : Q :=
  (0.299 * inject_Z r + 0.587 * inject_Z g + 0.114 * inject_Z b)%Q.

Record BorderCounts := { trans : Z; white : Z; black : Z; samples : Z }.

(** Comparisons whose operand may be [undefined] (or the [NaN] computed
    from it): they are false then. *)
Definition optLtZ (a : option Z) (n : Z) : bool :=
  match a with Some a => a <? n | None => false end.
Definition optGeZ (a : option Z) (n : Z) : bool :=
  match a with Some a => n <=? a | None => false end.
Definition optGeQ (a : option Q) (n : Q) : bool :=
  match a with Some a => Qle_bool n a | None => false end.
Definition optLeQ (a : option Q) (n : Q) : bool :=
  match a with Some a => Qle_bool a n | None => false end.

Definition samplePixel (data : list Z) (idx : Z) (c : BorderCounts) : BorderCounts :=
  let r := aget data idx in
  let g := aget data (idx + 1) in
  let b := aget data (idx + 2) in
  let a := aget data (idx + 3) in
  let brightness :=
    match r, g, b with
    | Some r, Some g, Some b => Some (brightnessOf r g b)
    | _, _, _ => None
    end in
  let c :=
    if optLtZ a transparentThresh then
      {| trans := trans c + 1; white := white c; black := black c; samples := samples c |}
    else if optGeQ brightness whiteThresh && optGeZ a opaqueThresh then
      {| trans := trans c; white := white c + 1; black := black c; samples := samples c |}
    else if optLeQ brightness blackThresh && optGeZ a opaqueThresh then
      {| trans := trans c; white := white c; black := black c + 1; samples := samples c |}
    else c in
  {| trans := trans c; white := white c; black := black c; samples := samples c + 1 |}.

(** The counters of [detectBackground] after its two sampling loops. *)
Definition borderCounts (imageData : ImageData.t) : BorderCounts :=
  let data := ImageData.data imageData in
  let w := ImageData.width imageData in
  let h := ImageData.height imageData in
  let c := {| trans := 0; white := 0; black := 0; samples := 0 |} in
  let c := for_ 0 w (fun x c =>
             let c := samplePixel data ((0 * w + x) * 4) c in
             samplePixel data (((h - 1) * w + x) * 4) c) c in
  for_ 1 (h - 1) (fun y c =>
    let c := samplePixel data ((y * w + 0) * 4) c in
    samplePixel data ((y * w + (w - 1)) * 4) c) c.

(** [x >= Math.max(y, z) && x > samples * 0.3] *)
Definition dominates (x y z samples : Z) : bool :=
  (Z.max y z <=? x) && Qltb (inject_Z samples * 0.3) (inject_Z x).

Definition detectBackground (imageData : ImageData.t) : Z -> Z -> Z -> Z -> bool :=
  let c := borderCounts imageData in
  if dominates (trans c) (white c) (black c) (samples c) then
    fun r g b a => a <? transparentThresh
  else if dominates (white c) (black c) (trans c) (samples c) then
    fun r g b a => Qle_bool whiteThresh (brightnessOf r g b) && (opaqueThresh <=? a)
  else if dominates (black c) (white c) (trans c) (samples c) then
    fun r g b a => Qle_bool (brightnessOf r g b) blackThresh && (opaqueThresh <=? a)
  else
    fun _ _ _ _ => false.

(** [while (cond) body], run for at most [fuel] iterations. *)
Fixpoint while_ {S : Type} (fuel : nat) (cond : S -> bool) (body : S -> S) (s : S) : S :=
  match fuel with
  | O => s
  | Datatypes.S fuel' => if cond s then while_ fuel' cond body (body s) else s
  end.

Definition rowIsBackground (imageData : ImageData.t) (isBackground : Z -> Z -> Z -> Z -> bool)
    (y : Z) : bool :=
  let data := ImageData.data imageData in
  let w := ImageData.width imageData in
  forallb (fun x =>
    let idx := (y * w + x) * 4 in
    isBackground data.[idx] data.[idx + 1] data.[idx + 2] data.[idx + 3])
    (Zrange 0 w).

Definition colIsBackground (imageData : ImageData.t) (isBackground : Z -> Z -> Z -> Z -> bool)
    (x : Z) : bool :=
  let data := ImageData.data imageData in
  let w := ImageData.width imageData in
  let h := ImageData.height imageData in
  forallb (fun y =>
    let idx := (y * w + x) * 4 in
    isBackground data.[idx] data.[idx + 1] data.[idx + 2] data.[idx + 3])
    (Zrange 0 h).

(** Each of the four trimming loops moves one side by one step per
    iteration and stops at the latest when the box is empty, so [h]
    (respectively [w]) iterations are enough fuel. *)
Definition computeForegroundBBox (imageData : ImageData.t)
    (isBackground : Z -> Z -> Z -> Z -> bool) : BBox.t :=
  let w := ImageData.width imageData in
  let h := ImageData.height imageData in
  let rowBg := rowIsBackground imageData isBackground in
  let colBg := colIsBackground imageData isBackground in
  let top := while_ (Z.to_nat h) (fun top => (top <? h) && rowBg top) Z.succ 0 in
  let bottom :=
    while_ (Z.to_nat h) (fun bottom => (top <? bottom - 1) && rowBg (bottom - 1)) Z.pred h in
  let left := while_ (Z.to_nat w) (fun left => (left <? w) && colBg left) Z.succ 0 in
  let right :=
    while_ (Z.to_nat w) (fun right => (left <? right - 1) && colBg (right - 1)) Z.pred w in
  if (right <=? left) || (bottom <=? top) then
    {| BBox.left := 0; BBox.top := 0; BBox.right := w; BBox.bottom := h |}
  else
    {| BBox.left := Z.max 0 (left - 1); BBox.top := Z.max 0 (top - 1);
       BBox.right := Z.min w (right + 1); BBox.bottom := Z.min h (bottom + 1) |}.

Definition clamp (v : Q) : Q :=
  if Qltb v 0 then 0%Q else if Qltb 255 v then 255%Q else v.

(** One diffusion step of [floydSteinbergRefine]: the neighbour [n]
    receives [err * weight] unless the mask marks it. *)
Definition diffuse (bgMask : list Z) (n : Z) (err weight : Q) (grayBuf : list Z) : list Z :=
  if truthy (aget bgMask n) then grayBuf
  else aset grayBuf n (toUint8Clamp (clamp (inject_Z grayBuf.[n] + err * weight))).

Definition floydSteinbergRefine (grayBuf bgMask : list Z) (w h : Z) (step : Q) : list Z :=
  for_ 0 h (fun y grayBuf =>
    for_ 0 w (fun x grayBuf =>
      let i := y * w + x in
      if truthy (aget bgMask i) then grayBuf
      else
        let old := inject_Z grayBuf.[i] in
        let q := (inject_Z (Math_round (old / step)) * step)%Q in
        let err := (old - q)%Q in
        let grayBuf := aset grayBuf i (toUint8Clamp q) in
        let grayBuf :=
          if x + 1 <? w then diffuse bgMask (i + 1) err (7 / 16) grayBuf else grayBuf in
        let grayBuf :=
          if (0 <=? x - 1) && (y + 1 <? h)
          then diffuse bgMask (i + w - 1) err (3 / 16) grayBuf else grayBuf in
        let grayBuf :=
          if y + 1 <? h then diffuse bgMask (i + w) err (5 / 16) grayBuf else grayBuf in
        let grayBuf :=
          if (x + 1 <? w) && (y + 1 <? h)
          then diffuse bgMask (i + w + 1) err (1 / 16) grayBuf else grayBuf in
        grayBuf) grayBuf) grayBuf.

(** ** Tone helpers and the Braille packer (asciiPipeline.worker.ts) *)

Definition posterizeGray (buf : list Z) (levels : Z) : list Z :=
  let levels := if levels <=? 1 then 2 else levels in
  let step := (255 / inject_Z (levels - 1))%Q in
  for_ 0 (Z.of_nat (length buf)) (fun i buf =>
    aset buf i (toUint8Clamp (inject_Z (Math_round (inject_Z buf.[i] / step)) * step)))
    buf.

Fixpoint insertSorted (v : Z) (l : list Z) : list Z :=
  match l with
  | [] => [v]
  | h :: t => if v <=? h then v :: l else h :: insertSorted v t
  end.

(** [window.sort()] on a typed array: ascending numeric order. *)
Definition sortTyped (l : list Z) : list Z := fold_right insertSorted [] l.

(** The window is one array reused for every pixel; each pixel overwrites
    all of it before sorting, so a fresh one per pixel is the same. *)
Definition medianFilterGray (buf : list Z) (width height radius : Z) : list Z :=
  let windowSize := (radius * 2 + 1) * (radius * 2 + 1) in
  for_ 0 height (fun y out =>
    for_ 0 width (fun x out =>
      let '(_, window) :=
        for_ (- radius) (radius + 1) (fun j st =>
          for_ (- radius) (radius + 1) (fun i '(n, window) =>
            let nx := Z.min (width - 1) (Z.max 0 (x + i)) in
            let ny := Z.min (height - 1) (Z.max 0 (y + j)) in
            (n + 1, aset window n buf.[ny * width + nx])) st)
          (0, newArray windowSize) in
      let window := sortTyped window in
      let mid := window.[Math_floor (inject_Z windowSize / 2)] in
      aset out (y * width + x) mid) out)
    (newArray (Z.of_nat (length buf))).

(** A JavaScript string: its UTF-16 code units. *)
Definition JSString := list Z.

Definition String_fromCharCode (c : Z) : JSString := [c mod 65536].

(** A literal of ASCII characters as a JavaScript string. *)
Definition lit (s : String.string) : JSString :=
  map (fun c => Z.of_nat (Ascii.nat_of_ascii c)) (String.list_ascii_of_string s).
Arguments lit s%_string.

Definition newline : JSString := [10].
Definition space : JSString := [32].

Definition dotMap : list Z := [1; 2; 3; 7; 4; 5; 6; 8].

(** The body of the innermost loop of [generateBrailleArt]: the sub-pixel
    [(col, row)] of the cell at [(x, y)] sets its dot when it lies inside
    the buffer and is brighter than 127; [dotIndex] advances either way. *)
Definition packDot (grayBuf : list Z) (width height x y col row : Z)
    (st : Z * Z) : Z * Z :=
  let '(brailleCode, dotIndex) := st in
  let px := x + col in
  let py := y + row in
  let brailleCode :=
    if (px <? width) && (py <? height) then
      let brightness := grayBuf.[py * width + px] in
      if 127 <? brightness
      then Z.lor brailleCode (Z.shiftl 1 (dotMap.[dotIndex] - 1))
      else brailleCode
    else brailleCode in
  (brailleCode, dotIndex + 1).

(** The code point packed for the cell whose top-left pixel is [(x, y)]:
    the two inner loops of [generateBrailleArt]. *)
Definition brailleCell (grayBuf : list Z) (width height x y : Z) : Z :=
  fst (for_ 0 2 (fun col st =>
    for_ 0 4 (fun row st => packDot grayBuf width height x y col row st) st)
    (0x2800, 0)).

Definition generateBrailleArt (grayBuf : list Z) (width height : Z) (bbox : BBox.t) : JSString :=
  let startY := Math_floor (inject_Z (BBox.top bbox) / 4) * 4 in
  let endY := Math_ceil (inject_Z (BBox.bottom bbox) / 4) * 4 in
  let startX := Math_floor (inject_Z (BBox.left bbox) / 2) * 2 in
  let endX := Math_ceil (inject_Z (BBox.right bbox) / 2) * 2 in
  forStep startY endY 4 (fun y asciiArt =>
    let asciiArt :=
      forStep startX endX 2 (fun x asciiArt =>
        asciiArt ++ String_fromCharCode (brailleCell grayBuf width height x y)) asciiArt in
    asciiArt ++ newline) [].

(** ** The worker's message handler (asciiPipeline.worker.ts) *)

Inductive CharSetName := standard | detailed | simple | binary | braille.

Definition isBraille (n : CharSetName) : bool :=
  match n with braille => true | _ => false end.

Record Options := {
  invertColors : bool;
  charSetName : CharSetName;
  charSet : list JSString;
  gamma : Q;
  dithering : bool;
  compactMode : bool;
  preprocess : bool;
  preprocessStrength : Q  (* a number: [preprocessStrength ?? 0] is itself *)
}.

Record Message := { ascii : JSString }.

(** [data[i] = 255 - data[i]] for the three colour channels of each pixel. *)
Definition invertData (data : list Z) : list Z :=
  forStep 0 (Z.of_nat (length data)) 4 (fun i data =>
    let data := aset data i (255 - data.[i]) in
    let data := aset data (i + 1) (255 - data.[i + 1]) in
    aset data (i + 2) (255 - data.[i + 2])) data.

Definition buildBgMask (data : list Z) (w h : Z) (isBackground : Z -> Z -> Z -> Z -> bool)
    : list Z :=
  for_ 0 h (fun y bgMask =>
    for_ 0 w (fun x bgMask =>
      let i := (y * w + x) * 4 in
      let r := data.[i] in let g := data.[i + 1] in
      let b := data.[i + 2] in let a := data.[i + 3] in
      aset bgMask (y * w + x) (if isBackground r g b a then 1 else 0)) bgMask)
    (newArray (w * h)).

Definition buildGammaLUT {host : HostMath} (gamma : Q) : list Z :=
  for_ 0 256 (fun i gammaLUT =>
    aset gammaLUT i
      (toUint8Clamp (Qmax 0 (Qmin 255 (Math_pow (inject_Z i / 255) gamma * 255)))))
    (newArray 256).

Definition buildGrayBuf (Y : list Q) (gammaLUT : list Z) (w h : Z) : list Z :=
  let grayBuf : list Z := newArray (w * h) in
  for_ 0 (Z.of_nat (length grayBuf)) (fun i grayBuf =>
    aset grayBuf i gammaLUT.[Z.max 0 (Z.min 255 (Math_round Y.[i]))])
    grayBuf.

Definition applyPreprocess (grayBuf : list Z) (w h : Z) (compactMode : bool)
    (preprocessStrength : Q) : list Z :=
  let origGray := grayBuf in
  let preGray := grayBuf in
  let preGray := posterizeGray preGray (if compactMode then 2 else 3) in
  let preGray := medianFilterGray preGray w h 1 in
  let blend := Qmax 0 (Qmin 1 (preprocessStrength / 10)) in
  for_ 0 (Z.of_nat (length grayBuf)) (fun i grayBuf =>
    let v := (inject_Z preGray.[i] * (1 - blend) + inject_Z origGray.[i] * blend)%Q in
    aset grayBuf i (toUint8Clamp (inject_Z (Z.max 0 (Z.min 255 (Math_round v))))))
    grayBuf.

(** [charSet.length || 1] *)
Definition setLenOf (charSet : list JSString) : Z :=
  let n := Z.of_nat (length charSet) in if n =? 0 then 1 else n.

Definition stepOf (charSet : list JSString) : Z :=
  Z.max 1 (Math_floor (255 / inject_Z (setLenOf charSet))).

(** [charSet[charIdx] || ' ']: a missing or empty glyph becomes a space. *)
Definition buildCharMap (charSet : list JSString) : list JSString :=
  let setLen := setLenOf charSet in
  let step := stepOf charSet in
  map (fun i =>
    let charIdx :=
      Z.max 0 (Z.min (setLen - 1) (Math_round (inject_Z i / inject_Z step))) in
    match aget charSet charIdx with
    | Some (c :: s) => c :: s
    | _ => space
    end) (Zrange 0 256).

(** [bgMask[idx] ? ' ' : charMap[grayBuf[idx]]]; [join] prints an
    [undefined] element as the empty string. *)
Definition pixelGlyph (bgMask grayBuf : list Z) (charMap : list JSString) (idx : Z)
    : JSString :=
  if truthy (aget bgMask idx) then space
  else
    match aget grayBuf idx with
    | Some v => match aget charMap v with Some s => s | None => [] end
    | None => []
    end.

(** [Array.prototype.join] *)
Fixpoint join (sep : JSString) (parts : list JSString) : JSString :=
  match parts with
  | [] => []
  | [p] => p
  | p :: rest => p ++ sep ++ join sep rest
  end.

Definition renderRegular (bgMask grayBuf : list Z) (charMap : list JSString) (w : Z)
    (regularBbox : BBox.t) : JSString :=
  let lines :=
    map (fun y =>
      let rowChars :=
        map (fun x => pixelGlyph bgMask grayBuf charMap (y * w + x))
            (Zrange (BBox.left regularBbox) (BBox.right regularBbox)) in
      join [] rowChars)
      (Zrange (BBox.top regularBbox) (BBox.bottom regularBbox)) in
  join newline lines.

(** The handler returns the list of messages it posts. *)
Definition onmessage {host : HostMath} (imageData : ImageData.t) (options : Options)
    : list Message :=
  let w := ImageData.width imageData in
  let h := ImageData.height imageData in
  let data := ImageData.data imageData in
  let data := if invertColors options then invertData data else data in
  (* the inversion writes into [imageData.data] itself *)
  let imageData :=
    {| ImageData.data := data; ImageData.width := w; ImageData.height := h |} in
  let Y := computeLuminance data w h in
  let isBackground := detectBackground imageData in
  let bgMask := buildBgMask data w h isBackground in
  let bbox :=
    if compactMode options
    then {| BBox.left := 0; BBox.top := 0; BBox.right := w; BBox.bottom := h |}
    else computeForegroundBBox imageData (detectBackground imageData) in
  let gammaLUT := buildGammaLUT (gamma options) in
  let grayBuf := buildGrayBuf Y gammaLUT w h in
  let grayBuf :=
    if preprocess options
    then applyPreprocess grayBuf w h (compactMode options) (preprocessStrength options)
    else grayBuf in
  let step := stepOf (charSet options) in
  let grayBuf :=
    if dithering options && negb (isBraille (charSetName options))
    then floydSteinbergRefine grayBuf bgMask w h (inject_Z step)
    else grayBuf in
  let charMap := buildCharMap (charSet options) in
  let asciiArtResult :=
    if isBraille (charSetName options) then
      let brailleBbox :=
        {| BBox.left := Math_floor (inject_Z (BBox.left bbox) / 2) * 2;
           BBox.top := Math_floor (inject_Z (BBox.top bbox) / 4) * 4;
           BBox.right := Math_ceil (inject_Z (BBox.right bbox) / 2) * 2;
           BBox.bottom := Math_ceil (inject_Z (BBox.bottom bbox) / 4) * 4 |} in
      generateBrailleArt grayBuf w h brailleBbox
    else
      let regularBbox :=
        {| BBox.left := Math_floor (inject_Z (BBox.left bbox));
           BBox.top := Math_floor (inject_Z (BBox.top bbox));
           BBox.right := Math_ceil (inject_Z (BBox.right bbox));
           BBox.bottom := Math_ceil (inject_Z (BBox.bottom bbox)) |} in
      renderRegular bgMask grayBuf charMap w regularBbox in
  [ {| ascii := asciiArtResult |} ].

(** ** The vocabulary of the statements *)

(** The brute-force sum of [Y] over the rectangle [[x0, x1] x [y0, y1]]. *)
Definition rectSum (Y : list Q) (width x0 x1 y0 y1 : Z) : Q :=
  for_ y0 (y1 + 1) (fun y acc =>
    for_ x0 (x1 + 1) (fun x acc => (acc + Y.[y * width + x])%Q) acc) 0%Q.

(** The square window of side [2 r + 1] around [(x, y)], clipped to the
    image, summed sample by sample. *)
Definition windowSum (Y : list Q) (width height x y r : Z) : Q :=
  rectSum Y width (Z.max 0 (x - r)) (Z.min (width - 1) (x + r))
          (Z.max 0 (y - r)) (Z.min (height - 1) (y + r)).

(** [acc += f i] for [i] from [lo] to [hi - 1], starting from 0. *)
Definition Qsum (lo hi : Z) (f : Z -> Q) : Q :=
  for_ lo hi (fun i acc => (acc + f i)%Q) 0%Q.

(** The sum of row [y] of [Y] over the columns [lo .. hi - 1]. *)
Definition rowSum (Y : list Q) (w y lo hi : Z) : Q :=
  Qsum lo hi (fun x => Y.[y * w + x]).

(** The sum of [Y] over the rectangle [[0, x] x [0, y]]. *)
Definition prefixSum (Y : list Q) (w x y : Z) : Q :=
  Qsum 0 (y + 1) (fun y' => rowSum Y w y' 0 (x + 1)).

(** The divisor floor of [sobelGradient]. *)
Definition gradFloor : Q := 1 # 1000000.

(** A dark 3x3 RGBA image: black, but for the pixel left of the centre,
    (0, 1, 0), and the pixel right of it, (2, 0, 4). *)
Definition darkImage : list Z :=
  [0; 0; 0; 255;  0; 0; 0; 255;  0; 0; 0; 255;
   0; 1; 0; 255;  0; 0; 0; 255;  2; 0; 4; 255;
   0; 0; 0; 255;  0; 0; 0; 255;  0; 0; 0; 255].

(** What holds of [(G, maxG)] in [sobelGradient] once every index below
    [bound] has been visited: the magnitudes lie between 0 and [maxG], and
    [maxG] is the floor 1e-6 or one of the magnitudes stored so far. *)
Definition SobelInv (w h bound : Z) (st : list Q * Q) : Prop :=
  Z.of_nat (length (fst st)) = w * h /\
  Forall (fun g => 0 <= g <= snd st)%Q (fst st) /\
  (gradFloor <= snd st)%Q /\
  ((snd st == gradFloor)%Q \/
   exists j g, 0 <= j < bound /\ aget (fst st) j = Some g /\ (g == snd st)%Q).

(** The sub-pixel [(col, row)] of the cell at [(x, y)] is lit: inside the
    buffer and brighter than 127. *)
Definition subPixelOn (grayBuf : list Z) (w h x y col row : Z) : bool :=
  (x + col <? w) && (y + row <? h) && (127 <? grayBuf.[(y + row) * w + (x + col)]).

(** The eight sub-pixels in the order the loops scan them: column-major. *)
Definition cellScan : list (Z * Z) :=
  [(0, 0); (0, 1); (0, 2); (0, 3); (1, 0); (1, 1); (1, 2); (1, 3)].

(** The cells of the Braille row that starts at pixel row [y]. *)
Definition brailleRow (grayBuf : list Z) (w h startX endX y : Z) : JSString :=
  flat_map (fun x => String_fromCharCode (brailleCell grayBuf w h x y))
           (ZrangeStep startX endX 2).

Definition fullFrame (w h : Z) : BBox.t :=
  {| BBox.left := 0; BBox.top := 0; BBox.right := w; BBox.bottom := h |}.

(** What the results rely on about the host's exponential: it is positive,
    and at most 1 exactly on the non-positive numbers. *)
Record HostSpec (host : HostMath) : Prop := {
  exp_pos : forall u, (0 < Math_exp u)%Q;
  exp_le_1 : forall u, (Math_exp u <= 1)%Q <-> (u <= 0)%Q
}.

(** A host on which the examples can run: [sqrt] truncated to six
    decimals, [pow] exact for the exponent 1 (the only one the examples
    use), and for [exp] its first-order stand-in, which has the sign
    behaviour of the exponential ([exp u <= 1] exactly when [u <= 0]). *)
Definition exampleHost : HostMath :=
  {| Math_sqrt := fun x => (inject_Z (Z.sqrt (Qfloor (x * 1000000000000))) / 1000000)%Q;
     Math_exp := fun u => if Qle_bool 0 u then (1 + u)%Q else (1 / (1 - u))%Q;
     Math_pow := fun x _ => x |}.

(** Its linear luminance; every channel is below the sRGB knee, so [pow]
    is not called. *)
Definition darkLuminance : list Q :=
  computeLuminanceLinear (host := exampleHost) darkImage 3 3.

(** ** Further code of the two files *)

(** [edgeAwareSmooth] (asciiPipeline.worker.ts) overwrites [Y] with the
    smoothed field, which is what the model returns.  The three
    accumulators of the kernel loops are [wSum], [vSum] and [k]. *)
Definition smoothAt {host : HostMath} (Y grad : list Q) (width height : Z)
    (strength : Q) (x y : Z) : Q :=
  let spatial : list Q := [1; 2; 1; 2; 4; 2; 1; 2; 1]%Q in
  let sigmaR := (4 + strength * 5)%Q in
  let invTwoSigmaRSq := (1 / (2 * sigmaR * sigmaR))%Q in
  let idx := y * width + x in
  let center := Y.[idx] in
  let '(wSum, vSum, _) :=
    for_ (-1) 2 (fun ky st =>
      for_ (-1) 2 (fun kx '(wSum, vSum, k) =>
        let nx := Z.min (width - 1) (Z.max 0 (x + kx)) in
        let ny := Z.min (height - 1) (Z.max 0 (y + ky)) in
        let nIdx := ny * width + nx in
        let v := Y.[nIdx] in
        let range := Math_exp (- (v - center) * (v - center) * invTwoSigmaRSq) in
        let w := (spatial.[k] * range)%Q in
        ((wSum + w)%Q, (vSum + v * w)%Q, k + 1)) st)
      (0%Q, 0%Q, 0) in
  let bilateral := (vSum / Qmax (1 # 1000000) wSum)%Q in
  let edgeFactor := (1 - Qmin 1 grad.[idx])%Q in
  let blend := Qmin 1 (Qmax 0 (strength * edgeFactor * 0.25)) in
  (center * (1 - blend) + bilateral * blend)%Q.

Definition edgeAwareSmooth {host : HostMath} (Y grad : list Q) (width height : Z)
    (strength : Q) : list Q :=
  if Qle_bool strength 0 then Y
  else
    let out :=
      for_ 0 height (fun y out =>
        for_ 0 width (fun x out =>
          aset out (y * width + x) (smoothAt Y grad width height strength x y)) out)
        (newArray (Z.of_nat (length Y))) in
    out.

(** The histogram loop of [percentileThreshold] (asciiPipeline.worker.ts). *)
Definition histogramOf (buf : list Q) : list Z :=
  let bins := 256 in
  for_ 0 (Z.of_nat (length buf)) (fun i hist =>
    let b := Z.max 0 (Z.min (bins - 1) (Math_floor (buf.[i] * inject_Z (bins - 1)))) in
    aset hist b (hist.[b] + 1))
    (newArray bins).

(** The scanning loop of [percentileThreshold]: [scanBins hist target n i
    cum] runs the iterations [i], [i + 1], ... ([n] of them are left) and
    returns at the first bin whose cumulated count reaches [target]. *)
Fixpoint scanBins (hist : list Z) (target : Z) (n : nat) (i cum : Z) : Q :=
  match n with
  | O => 0.5%Q
  | S n' =>
      let cum := cum + hist.[i] in
      if target <=? cum then (inject_Z i / inject_Z (256 - 1))%Q
      else scanBins hist target n' (i + 1) cum
  end.

Definition percentileThreshold (buf : list Q) (p : Q) : Q :=
  let hist := histogramOf buf in
  let target := Math_floor (inject_Z (Z.of_nat (length buf)) * p / 100) in
  scanBins hist target 256 0 0.

(** The helpers of [preprocessImage] (lib/image-processing.ts). *)
Definition posterize (data : list Z) (levels : Z) : list Z :=
  let levels := if levels <=? 1 then 2 else levels in
  let step := (255 / inject_Z (levels - 1))%Q in
  forStep 0 (Z.of_nat (length data)) 4 (fun i data =>
    let brightness := brightnessOf data.[i] data.[i + 1] data.[i + 2] in
    let level := (inject_Z (Math_round (brightness / step)) * step)%Q in
    let data := aset data i (toUint8Clamp level) in
    let data := aset data (i + 1) (toUint8Clamp level) in
    aset data (i + 2) (toUint8Clamp level)) data.

Definition toBinary (data : list Z) : list Z :=
  let binary : list Z := newArray (Z.of_nat (length data) / 4) in
  for_ 0 (Z.of_nat (length binary)) (fun i binary =>
    aset binary i (if 128 <? data.[i * 4] then 1 else 0)) binary.

(** [data] is a [Uint8ClampedArray]: the store clamps [binary[i] * 255]. *)
Definition fromBinary (binary data : list Z) : list Z :=
  for_ 0 (Z.of_nat (length binary)) (fun i data =>
    let val := binary.[i] * 255 in
    let data := aset data (i * 4) (toUint8Clamp (inject_Z val)) in
    let data := aset data (i * 4 + 1) (toUint8Clamp (inject_Z val)) in
    aset data (i * 4 + 2) (toUint8Clamp (inject_Z val))) data.

(** [a[i] === n] *)
Definition isAt (a : list Z) (i n : Z) : bool :=
  match aget a i with Some v => v =? n | None => false end.

Definition erode (binaryData : list Z) (width height : Z) : list Z :=
  let input := binaryData in
  for_ 1 (height - 1) (fun y binaryData =>
    for_ 1 (width - 1) (fun x binaryData =>
      let i := y * width + x in
      if isAt input (i - width) 0 || isAt input (i + width) 0
         || isAt input (i - 1) 0 || isAt input (i + 1) 0
      then aset binaryData i 0
      else binaryData) binaryData) binaryData.

Definition dilate (binaryData : list Z) (width height : Z) : list Z :=
  let input := binaryData in
  for_ 1 (height - 1) (fun y binaryData =>
    for_ 1 (width - 1) (fun x binaryData =>
      let i := y * width + x in
      if isAt input (i - width) 1 || isAt input (i + width) 1
         || isAt input (i - 1) 1 || isAt input (i + 1) 1
      then aset binaryData i 1
      else binaryData) binaryData) binaryData.

(** The foreground mask [refineMasks] derives from a background mask:
    1 where the background mask is 0, and 0 elsewhere. *)
Definition complementMask (bgMask : list Z) : list Z :=
  for_ 0 (Z.of_nat (length bgMask)) (fun i f =>
    aset f i (if truthy (aget bgMask i) then 0 else 1))
    (newArray (Z.of_nat (length bgMask))).

(** The edge mask [refineMasks] derives from the gradient field. *)
Definition edgeMaskOf (bgMask : list Z) (grad : list Q) : list Z :=
  for_ 0 (Z.of_nat (length grad)) (fun i e =>
    aset e i (if Qltb 0.35 grad.[i] then 1 else 0))
    (newArray (Z.of_nat (length bgMask))).


(** The verdict of [isBackground] on the pixel [(x, y)] of an image. *)
Definition pixelIsBackground (imageData : ImageData.t)
    (isBackground : Z -> Z -> Z -> Z -> bool) (x y : Z) : bool :=
  let data := ImageData.data imageData in
  let idx := (y * ImageData.width imageData + x) * 4 in
  isBackground data.[idx] data.[idx + 1] data.[idx + 2] data.[idx + 3].


(** The values a [Uint8Array] or [Uint8ClampedArray] can hold. *)
Definition isByte (v : Z) : Prop := 0 <= v <= 255.


(** The window of [medianFilterGray] after [k] stores: the counter is [k],
    and every slot below it holds a sample of [buf]. *)
Definition WindowInv (buf : list Z) (radius k : Z) (st : Z * list Z) : Prop :=
  fst st = k /\
  Z.of_nat (length (snd st)) = (radius * 2 + 1) * (radius * 2 + 1) /\
  forall idx, 0 <= idx < k -> exists v, aget (snd st) idx = Some v /\ In v buf.



(* ================================================================== *)
(** * Part II: properties *)
(* ================================================================== *)

(** ** Arrays and loops *)

Section ArrayFacts.
Context {A : Type}.
Implicit Types (a : list A) (v : A) (i j : Z).

Lemma length_upd a n v : length (upd a n v) = length a.
Proof.
  revert n; induction a as [|x a IH]; intros [|n]; simpl; auto.
Qed.

Lemma nth_error_upd_same a n v :
  (n < length a)%nat -> nth_error (upd a n v) n = Some v.
Proof.
  revert n; induction a as [|x a IH]; intros [|n] Hn; simpl in *; try lia; auto.
  apply IH; lia.
Qed.

Lemma nth_error_upd_other a n m v :
  n <> m -> nth_error (upd a n v) m = nth_error a m.
Proof.
  revert n m; induction a as [|x a IH]; intros [|n] [|m] Hnm; simpl; auto; try congruence.
Qed.

Lemma length_aset a i v : length (aset a i v) = length a.
Proof.
  unfold aset. destruct (i <? 0); auto using length_upd.
Qed.

Lemma aget_aset_same a i v :
  0 <= i < Z.of_nat (length a) -> aget (aset a i v) i = Some v.
Proof.
  intros Hi. unfold aget, aset.
  destruct (Z.ltb_spec i 0); try lia.
  apply nth_error_upd_same. lia.
Qed.

Lemma aget_aset_other a i j v : i <> j -> aget (aset a j v) i = aget a i.
Proof.
  intros Hij. unfold aget, aset.
  destruct (Z.ltb_spec i 0); auto.
  destruct (Z.ltb_spec j 0); auto.
  apply nth_error_upd_other. lia.
Qed.

Lemma aget_Some_range a i v : aget a i = Some v -> 0 <= i < Z.of_nat (length a).
Proof.
  unfold aget. destruct (Z.ltb_spec i 0); try discriminate.
  intros Hn. assert (nth_error a (Z.to_nat i) <> None) as Hlt by congruence.
  apply nth_error_Some in Hlt. lia.
Qed.

Lemma aget_in_range a i : 0 <= i < Z.of_nat (length a) -> exists v, aget a i = Some v.
Proof.
  intros Hi. unfold aget. destruct (Z.ltb_spec i 0); try lia.
  destruct (nth_error a (Z.to_nat i)) eqn:E; eauto.
  apply nth_error_None in E. lia.
Qed.

Lemma aget_out_of_range a i : ~ (0 <= i < Z.of_nat (length a)) -> aget a i = None.
Proof.
  intros Hi. destruct (aget a i) eqn:E; auto.
  apply aget_Some_range in E. contradiction.
Qed.

Lemma aget_In a i v : aget a i = Some v -> In v a.
Proof.
  unfold aget. destruct (i <? 0); try discriminate. apply nth_error_In.
Qed.

Lemma In_aget a v : In v a -> exists i, aget a i = Some v.
Proof.
  intros Hin. apply In_nth_error in Hin as [n Hn].
  exists (Z.of_nat n). unfold aget.
  destruct (Z.ltb_spec (Z.of_nat n) 0); try lia.
  now rewrite Nat2Z.id.
Qed.

End ArrayFacts.

Lemma rd_aset_same {A : Type} `{Undef A} (a : list A) i v :
  0 <= i < Z.of_nat (length a) -> (aset a i v).[i] = v.
Proof.
  intros Hi. unfold rd. now rewrite aget_aset_same.
Qed.

Lemma rd_aset_other {A : Type} `{Undef A} (a : list A) i j v :
  i <> j -> (aset a j v).[i] = a.[i].
Proof.
  intros Hij. unfold rd. now rewrite aget_aset_other.
Qed.

Lemma length_newArray {A : Type} `{Undef A} n :
  length (newArray (A := A) n) = Z.to_nat n.
Proof. apply repeat_length. Qed.

Section LoopFacts.
Context {S : Type}.
Implicit Types (body : Z -> S -> S) (s : S).

Lemma Zrange_empty lo hi : hi <= lo -> Zrange lo hi = [].
Proof.
  intros Hle. unfold Zrange. replace (Z.to_nat (hi - lo)) with 0%nat by lia. reflexivity.
Qed.

Lemma Zrange_snoc lo hi : lo <= hi -> Zrange lo (hi + 1) = Zrange lo hi ++ [hi].
Proof.
  intros Hle. unfold Zrange.
  replace (Z.to_nat (hi + 1 - lo)) with (Z.to_nat (hi - lo) + 1)%nat by lia.
  rewrite seq_app, map_app. simpl. do 2 f_equal. lia.
Qed.

Lemma In_Zrange lo hi i : In i (Zrange lo hi) <-> lo <= i < hi.
Proof.
  unfold Zrange. rewrite in_map_iff. split.
  - intros (k & <- & Hk). apply in_seq in Hk. lia.
  - intros Hi. exists (Z.to_nat (i - lo)). split; [lia|]. apply in_seq. lia.
Qed.

Lemma for_empty lo hi body s : hi <= lo -> for_ lo hi body s = s.
Proof.
  intros Hle. unfold for_. now rewrite Zrange_empty.
Qed.

Lemma for_snoc lo hi body s :
  lo <= hi -> for_ lo (hi + 1) body s = body hi (for_ lo hi body s).
Proof.
  intros Hle. unfold for_. rewrite Zrange_snoc by assumption.
  now rewrite fold_left_app.
Qed.

(** The invariant rule for a [for] loop. *)
Lemma for_invariant (P : Z -> S -> Prop) lo hi body s :
  lo <= hi ->
  P lo s ->
  (forall i s, lo <= i < hi -> P i s -> P (i + 1) (body i s)) ->
  P hi (for_ lo hi body s).
Proof.
  intros Hle H0 Hstep.
  replace hi with (lo + Z.of_nat (Z.to_nat (hi - lo))) by lia.
  assert (Z.of_nat (Z.to_nat (hi - lo)) <= hi - lo) as Hb by lia.
  revert Hb. generalize (Z.to_nat (hi - lo)) as n.
  induction n as [|n IH]; intros Hb.
  - rewrite for_empty by lia. now replace (lo + Z.of_nat 0) with lo by lia.
  - replace (lo + Z.of_nat (Datatypes.S n)) with (lo + Z.of_nat n + 1) by lia.
    rewrite for_snoc by lia. apply Hstep; [lia|]. apply IH. lia.
Qed.

(** A loop whose iterations all preserve [P] preserves it. *)
Lemma for_preserves (P : S -> Prop) lo hi body s :
  P s -> (forall i s, lo <= i < hi -> P s -> P (body i s)) -> P (for_ lo hi body s).
Proof.
  intros H0 Hstep. destruct (Z.le_gt_cases lo hi) as [Hle|Hgt].
  - apply (for_invariant (fun _ => P)); auto.
  - now rewrite for_empty by lia.
Qed.

Lemma for_ext lo hi body body' s :
  (forall i s, lo <= i < hi -> body i s = body' i s) ->
  for_ lo hi body s = for_ lo hi body' s.
Proof.
  intros Hext. unfold for_.
  assert (forall i, In i (Zrange lo hi) -> lo <= i < hi) as Hin
    by (intros i; apply In_Zrange).
  revert s Hin. induction (Zrange lo hi) as [|i l IH]; intros s Hin; simpl; auto.
  rewrite Hext by (apply Hin; now left). apply IH. intros j Hj. apply Hin. now right.
Qed.

Lemma for_split lo mid hi body s :
  lo <= mid <= hi -> for_ lo hi body s = for_ mid hi body (for_ lo mid body s).
Proof.
  intros [Hlm Hmh].
  replace hi with (mid + Z.of_nat (Z.to_nat (hi - mid))) by lia.
  generalize (Z.to_nat (hi - mid)) as n. induction n as [|n IH].
  - replace (mid + Z.of_nat 0) with mid by lia. now rewrite (for_empty mid mid) by lia.
  - replace (mid + Z.of_nat (Datatypes.S n)) with (mid + Z.of_nat n + 1) by lia.
    rewrite !for_snoc by lia. now rewrite IH.
Qed.

End LoopFacts.

(** The trimming loops of [computeForegroundBBox] have fuel enough: run
    with at least [hi - lo] iterations of fuel, an upward scan from [lo]
    stops on a false guard, and so does a downward scan from [hi]. *)
Lemma while_up_exits (c : Z -> bool) (hi : Z) (fuel : nat) (lo : Z) :
  hi - lo <= Z.of_nat fuel ->
  let r := while_ fuel (fun t => (t <? hi) && c t) Z.succ lo in
  (r <? hi) && c r = false.
Proof.
  revert lo. induction fuel as [|fuel IH]; intros lo Hfuel; simpl.
  - destruct (Z.ltb_spec lo hi); [lia|reflexivity].
  - destruct ((lo <? hi) && c lo) eqn:Hguard; [|assumption].
    apply IH. lia.
Qed.

Lemma while_down_exits (c : Z -> bool) (lo : Z) (fuel : nat) (hi : Z) :
  hi - lo <= Z.of_nat fuel ->
  let r := while_ fuel (fun b => (lo <? b - 1) && c (b - 1)) Z.pred hi in
  (lo <? r - 1) && c (r - 1) = false.
Proof.
  revert hi. induction fuel as [|fuel IH]; intros hi Hfuel; simpl.
  - destruct (Z.ltb_spec lo (hi - 1)); [lia|reflexivity].
  - destruct ((lo <? hi - 1) && c (hi - 1)) eqn:Hguard; [|assumption].
    apply IH. lia.
Qed.

(** Loops that fill an array, one write per index. *)
Section FillFacts.
Context {A : Type}.

Lemma fill1_spec (f : Z -> A) n (init : list A) :
  0 <= n <= Z.of_nat (length init) ->
  let out := for_ 0 n (fun i a => aset a i (f i)) init in
  length out = length init /\
  (forall i, 0 <= i < n -> aget out i = Some (f i)) /\
  (forall i, n <= i -> aget out i = aget init i).
Proof.
  intros Hn out. subst out.
  apply (for_invariant (fun k out =>
    length out = length init /\
    (forall i, 0 <= i < k -> aget out i = Some (f i)) /\
    (forall i, k <= i -> aget out i = aget init i))); [lia| |].
  - repeat split; auto. intros; lia.
  - intros k a Hk (Hlen & Hlo & Hhi). rewrite length_aset. repeat split; auto.
    + intros i Hi. destruct (Z.eq_dec i k) as [->|Hne].
      * apply aget_aset_same. lia.
      * rewrite aget_aset_other by assumption. apply Hlo. lia.
    + intros i Hi. rewrite aget_aset_other by lia. apply Hhi. lia.
Qed.

Lemma fill2_spec (F : Z -> Z -> A) w h (init : list A) :
  0 <= w -> 0 <= h -> Z.of_nat (length init) = w * h ->
  let out :=
    for_ 0 h (fun y out => for_ 0 w (fun x out => aset out (y * w + x) (F x y)) out) init in
  length out = length init /\
  forall x y, 0 <= x < w -> 0 <= y < h -> aget out (y * w + x) = Some (F x y).
Proof.
  intros Hw Hh Hlen out. subst out.
  enough (length (for_ 0 h (fun y out =>
            for_ 0 w (fun x out => aset out (y * w + x) (F x y)) out) init) = length init /\
          forall x y, 0 <= x < w -> 0 <= y < h ->
            aget (for_ 0 h (fun y out =>
              for_ 0 w (fun x out => aset out (y * w + x) (F x y)) out) init) (y * w + x)
            = Some (F x y)) by assumption.
  apply (for_invariant (fun k out =>
    length out = length init /\
    forall x y, 0 <= x < w -> 0 <= y < k -> aget out (y * w + x) = Some (F x y)));
    [lia| |].
  - split; auto. intros; lia.
  - intros y out Hy (Hl & Hrows).
    pose (Inv := fun (k : Z) (a : list A) =>
      length a = length init /\
      forall x' y', 0 <= x' < w -> 0 <= y' < y + 1 -> (y' < y \/ x' < k) ->
        aget a (y' * w + x') = Some (F x' y')).
    assert (Inv w (for_ 0 w (fun x out => aset out (y * w + x) (F x y)) out)) as [Hl' Hall].
    { apply for_invariant; [lia| |].
      - split; auto. intros x' y' Hx' Hy' [Hlt|Hlt]; [|lia]. apply Hrows; lia.
      - intros x a Hx (Hla & Ha). split; [now rewrite length_aset|].
        intros x' y' Hx' Hy' Hdone.
        destruct (Z.eq_dec (y' * w + x') (y * w + x)) as [Heq|Hne].
        + assert (y' = y) by nia. subst y'. assert (x' = x) by lia. subst x'.
          apply aget_aset_same. nia.
        + rewrite aget_aset_other by assumption. apply Ha; auto.
          destruct Hdone as [Hd|Hd]; [now left|].
          destruct (Z.eq_dec y' y) as [->|Hy'']; [right|left; lia].
          assert (x' <> x) by (intros ->; apply Hne; reflexivity). lia. }
    split; auto. intros x' y' Hx' Hy'. apply Hall; auto. lia.
Qed.

End FillFacts.

Lemma index_decompose w h i :
  0 <= w -> 0 <= i < w * h -> exists x y, 0 <= x < w /\ 0 <= y < h /\ i = y * w + x.
Proof.
  intros Hw Hi. assert (w <> 0) by (intros ->; lia). assert (0 < w) by lia.
  exists (i mod w), (i / w). repeat split.
  - apply Z.mod_pos_bound; lia.
  - apply Z.mod_pos_bound; lia.
  - apply Z.div_pos; lia.
  - apply Z.div_lt_upper_bound; nia.
  - rewrite (Z.div_mod i w) at 1 by lia. lia.
Qed.

(** ** Dithering leaves the background alone (C7) *)

Lemma diffuse_frame bgMask n err weight grayBuf i :
  truthy (aget bgMask i) = true ->
  aget (diffuse bgMask n err weight grayBuf) i = aget grayBuf i.
Proof.
  intros Hbg. unfold diffuse.
  destruct (truthy (aget bgMask n)) eqn:Hn; auto.
  apply aget_aset_other. intros ->. congruence.
Qed.

(** C7.  Floyd-Steinberg dithering never changes a background pixel: a
    pixel whose mask entry is set is skipped by the quantisation, and every
    diffusion step aimed at it is dropped. *)
Theorem floydSteinbergRefine_background_unchanged
    (grayBuf bgMask : list Z) (w h : Z) (step : Q) (i : Z) :
  truthy (aget bgMask i) = true ->
  aget (floydSteinbergRefine grayBuf bgMask w h step) i = aget grayBuf i.
Proof.
  intros Hbg. unfold floydSteinbergRefine.
  apply (for_preserves (fun g => aget g i = aget grayBuf i)); [reflexivity|].
  intros y g _ Hg.
  apply (for_preserves (fun g => aget g i = aget grayBuf i)); [assumption|].
  clear g Hg. intros x g _ Hg.
  destruct (truthy (aget bgMask (y * w + x))) eqn:Hpix; [assumption|].
  assert (i <> y * w + x) as Hne by (intros ->; congruence).
  repeat match goal with
  | |- context [if ?c then diffuse _ _ _ _ _ else _] => destruct c
  end;
  rewrite ?diffuse_frame by assumption;
  rewrite aget_aset_other by assumption; assumption.
Qed.

Lemma floydSteinbergRefine_background_unchanged_witness :
  aget (floydSteinbergRefine [100; 200; 37; 90] [0; 1; 0; 0] 2 2 85) 1 = Some 200.
Proof.
  apply (floydSteinbergRefine_background_unchanged [100; 200; 37; 90] [0; 1; 0; 0] 2 2 85 1).
  reflexivity.
Defined.

(** ** Comparisons on rationals *)

Lemma Qltb_lt a b : Qltb a b = true <-> (a < b)%Q.
Proof.
  unfold Qltb. rewrite negb_true_iff, <- not_true_iff_false, Qle_bool_iff.
  split; [apply Qnot_le_lt | apply Qlt_not_le].
Qed.

Lemma Qltb_ge a b : Qltb a b = false <-> (b <= a)%Q.
Proof.
  unfold Qltb. now rewrite negb_false_iff, Qle_bool_iff.
Qed.

(** ** Morphology keeps strong edges (C6) *)

Lemma fill2_body_spec {A : Type} (body : Z -> Z -> list A -> list A) (F : Z -> Z -> A)
    w h (init : list A) :
  (forall x y out, body x y out = aset out (y * w + x) (F x y)) ->
  0 <= w -> 0 <= h -> Z.of_nat (length init) = w * h ->
  let out := for_ 0 h (fun y out => for_ 0 w (fun x out => body x y out) out) init in
  length out = length init /\
  forall x y, 0 <= x < w -> 0 <= y < h -> aget out (y * w + x) = Some (F x y).
Proof.
  intros Hbody Hw Hh Hlen.
  rewrite (for_ext 0 h _
    (fun y out => for_ 0 w (fun x out => aset out (y * w + x) (F x y)) out)).
  - now apply fill2_spec.
  - intros y out _. apply for_ext. intros x a _. apply Hbody.
Qed.

Section EdgeGate.
Variables (mask edgeMask : list Z) (w h : Z).
Hypothesis Hw : 0 <= w.
Hypothesis Hh : 0 <= h.
Hypothesis Hlen : Z.of_nat (length mask) = w * h.

(** Both operators share this loop: a gated pixel copies its own value,
    any other takes the vote [V] of its neighbourhood. *)
Lemma gated_fill_spec (V : Z -> Z -> Z) :
  let out :=
    for_ 0 h (fun y out =>
      for_ 0 w (fun x out =>
        let i := y * w + x in
        if gatedByEdge (Some edgeMask) i then aset out i mask.[i]
        else aset out i (V x y)) out)
      (newArray (Z.of_nat (length mask))) in
  length out = length mask /\
  forall x y, 0 <= x < w -> 0 <= y < h ->
    gatedByEdge (Some edgeMask) (y * w + x) = true ->
    aget out (y * w + x) = aget mask (y * w + x).
Proof.
  pose (F := fun x y : Z =>
    if gatedByEdge (Some edgeMask) (y * w + x) then mask.[y * w + x] else V x y).
  destruct (fill2_body_spec
    (fun x y out =>
      let i := y * w + x in
      if gatedByEdge (Some edgeMask) i then aset out i mask.[i] else aset out i (V x y))
    F w h (newArray (Z.of_nat (length mask)))) as [Hl Hget]; auto.
  - intros x y out. subst F. cbv beta zeta. now destruct (gatedByEdge _ _).
  - rewrite length_newArray. lia.
  - cbv zeta in *. split.
    + rewrite Hl, length_newArray. lia.
    + intros x y Hx Hy Hgate. rewrite Hget by assumption. subst F. cbv beta.
      rewrite Hgate. unfold rd.
      destruct (aget_in_range mask (y * w + x)) as [v Hv]; [nia|]. now rewrite Hv.
Qed.

Lemma length_erodeMask : length (erodeMask mask w h (Some edgeMask)) = length mask.
Proof.
  exact (proj1 (gated_fill_spec (fun x y =>
    if existsb (fun n => match aget mask n with Some 0 => true | _ => false end)
               (neighbours w h x y) then 0 else 1))).
Qed.

Lemma erodeMask_gated x y :
  0 <= x < w -> 0 <= y < h ->
  gatedByEdge (Some edgeMask) (y * w + x) = true ->
  aget (erodeMask mask w h (Some edgeMask)) (y * w + x) = aget mask (y * w + x).
Proof.
  exact (proj2 (gated_fill_spec (fun x y =>
    if existsb (fun n => match aget mask n with Some 0 => true | _ => false end)
               (neighbours w h x y) then 0 else 1)) x y).
Qed.

Lemma length_dilateMask : length (dilateMask mask w h (Some edgeMask)) = length mask.
Proof.
  exact (proj1 (gated_fill_spec (fun x y =>
    if existsb (fun n => match aget mask n with Some 1 => true | _ => false end)
               (neighbours w h x y) then 1 else 0))).
Qed.

Lemma dilateMask_gated x y :
  0 <= x < w -> 0 <= y < h ->
  gatedByEdge (Some edgeMask) (y * w + x) = true ->
  aget (dilateMask mask w h (Some edgeMask)) (y * w + x) = aget mask (y * w + x).
Proof.
  exact (proj2 (gated_fill_spec (fun x y =>
    if existsb (fun n => match aget mask n with Some 1 => true | _ => false end)
               (neighbours w h x y) then 1 else 0)) x y).
Qed.

End EdgeGate.

(** One closing/opening pass keeps the length of the background mask and
    the value of every gated pixel. *)
Lemma refine_pass_keeps (bgMask edgeMask bg : list Z) (w h i : Z) :
  0 <= w -> 0 <= h -> Z.of_nat (length bgMask) = w * h ->
  0 <= i < w * h ->
  gatedByEdge (Some edgeMask) i = true ->
  length bg = length bgMask /\ aget bg i = aget bgMask i ->
  let bg' := erodeMask (dilateMask bg w h (Some edgeMask)) w h (Some edgeMask) in
  length bg' = length bgMask /\ aget bg' i = aget bgMask i.
Proof.
  intros Hw Hh Hlen Hi Hgate [Hl Hv] bg'. subst bg'.
  destruct (index_decompose w h i Hw Hi) as (x & y & Hx & Hy & ->).
  assert (Z.of_nat (length bg) = w * h) as Hlbg by lia.
  assert (Z.of_nat (length (dilateMask bg w h (Some edgeMask))) = w * h) as Hld
    by (rewrite length_dilateMask; auto).
  split.
  - rewrite length_erodeMask, length_dilateMask; auto.
  - rewrite erodeMask_gated, dilateMask_gated; auto.
Qed.

(** A filling loop that may run past the end of the array: the stores
    beyond it are dropped. *)
Lemma fill1_within {A : Type} (f : Z -> A) (n : Z) (init : list A) :
  0 <= n ->
  let out := for_ 0 n (fun i a => aset a i (f i)) init in
  length out = length init /\
  forall i, 0 <= i < n -> i < Z.of_nat (length init) -> aget out i = Some (f i).
Proof.
  intros Hn out. subst out.
  apply (for_invariant (fun k out =>
    length out = length init /\
    forall i, 0 <= i < k -> i < Z.of_nat (length init) -> aget out i = Some (f i)));
    [assumption| |].
  - split; [reflexivity|]. intros i Hi. lia.
  - intros k out Hk [Hl Hget]. split; [now rewrite length_aset|].
    intros i Hi Hlen. destruct (Z.eq_dec i k) as [->|Hne].
    + apply aget_aset_same. lia.
    + rewrite aget_aset_other by assumption. apply Hget; lia.
Qed.

(** C6.  [refineMasks] returns its input when [passes <= 0], whatever the
    mask and the gradient field; and for any number of passes, on a mask of
    [w * h] entries, every pixel whose gradient exceeds the edge threshold
    0.35 has the same background-mask value after refinement as before. *)
Theorem refineMasks_preserves_edges
    (bgMask : list Z) (w h : Z) (grad : list Q) (passes : Z) :
  (passes <= 0 -> refineMasks bgMask w h grad passes = bgMask) /\
  (0 <= w -> 0 <= h -> Z.of_nat (length bgMask) = w * h ->
   forall i, 0 <= i < w * h -> (0.35 < grad.[i])%Q ->
     aget (refineMasks bgMask w h grad passes) i = aget bgMask i).
Proof.
  unfold refineMasks. split.
  { intros Hle. destruct (Z.leb_spec passes 0); [reflexivity|lia]. }
  intros Hw Hh Hlen i Hi Hedge.
  destruct (Z.leb_spec passes 0) as [Hle|Hgt]; [reflexivity|].
  set (edgeMask := for_ 0 (Z.of_nat (length grad)) _ _).
  set (fgMask := for_ 0 (Z.of_nat (length bgMask)) _ _).
  assert (i < Z.of_nat (length grad)) as Hingrad.
  { destruct (Z.lt_ge_cases i (Z.of_nat (length grad))) as [Hlt|Hge]; [assumption|].
    unfold rd in Hedge. rewrite aget_out_of_range in Hedge by lia. discriminate Hedge. }
  assert (gatedByEdge (Some edgeMask) i = true) as Hgate.
  { destruct (fill1_within (fun i => if Qltb 0.35 grad.[i] then 1 else 0)
               (Z.of_nat (length grad)) (newArray (Z.of_nat (length bgMask))))
      as (_ & Hget); [lia|].
    cbv zeta in Hget. unfold gatedByEdge. subst edgeMask.
    rewrite Hget by (rewrite ?length_newArray; lia).
    apply Qltb_lt in Hedge. now rewrite Hedge. }
  pose (Inv := fun st : list Z * list Z =>
    length (fst st) = length bgMask /\ aget (fst st) i = aget bgMask i).
  assert (Inv (for_ 0 passes (fun (_ : Z) '(bg, fg) =>
            let bg := dilateMask bg w h (Some edgeMask) in
            let bg := erodeMask bg w h (Some edgeMask) in
            let fg := erodeMask fg w h (Some edgeMask) in
            let fg := dilateMask fg w h (Some edgeMask) in
            (bg, fg)) (bgMask, fgMask))) as HInv.
  { apply for_preserves; [split; reflexivity|].
    intros p [bg fg] _ Hst. unfold Inv in *. cbv zeta. simpl fst in *.
    now apply refine_pass_keeps. }
  destruct (for_ 0 passes _ (bgMask, fgMask)) as [bg fg]. destruct HInv as [Hl Hv].
  simpl fst in *.
  destruct (fill1_spec (fun i => bg.[i]) (Z.of_nat (length bg))
             (newArray (Z.of_nat (length bg)))) as (_ & Hget & _).
  - rewrite length_newArray. lia.
  - cbv zeta in Hget. rewrite Hget by lia. rewrite <- Hv. unfold rd.
    destruct (aget_in_range bg i) as [v Hbg]; [lia|]. now rewrite Hbg.
Qed.

(** Zero passes on a field with no strong edge return the mask; two passes
    on a 3x3 mask keep the isolated 0 at the centre, where the gradient is 1
    (without the edge mask the closing would fill it). *)
Lemma refineMasks_preserves_edges_witness :
  refineMasks [1; 0; 1; 1; 0; 1; 1; 1; 1] 3 3 [0; 0; 0; 0; 0; 0; 0; 0; 0]%Q 0
  = [1; 0; 1; 1; 0; 1; 1; 1; 1] /\
  aget (refineMasks [1; 1; 1; 1; 0; 1; 1; 1; 1] 3 3 [0; 0; 0; 0; 1; 0; 0; 0; 0]%Q 2) 4
  = Some 0.
Proof.
  split.
  - apply (refineMasks_preserves_edges [1; 0; 1; 1; 0; 1; 1; 1; 1] 3 3
             [0; 0; 0; 0; 0; 0; 0; 0; 0]%Q 0). lia.
  - apply (proj2 (refineMasks_preserves_edges [1; 1; 1; 1; 0; 1; 1; 1; 1] 3 3
                    [0; 0; 0; 0; 1; 0; 0; 0; 0]%Q 2)); try lia; reflexivity.
Defined.

(** ** No dominant border category, no background (C10) *)

Lemma Forall_upd {A : Type} (P : A -> Prop) (a : list A) n v :
  Forall P a -> P v -> Forall P (upd a n v).
Proof.
  intros Ha Hv. revert n. induction Ha as [|x a Hx Ha IH]; intros [|n]; simpl; auto.
Qed.

Lemma Forall_aset {A : Type} (P : A -> Prop) (a : list A) i v :
  Forall P a -> P v -> Forall P (aset a i v).
Proof.
  intros Ha Hv. unfold aset. destruct (i <? 0); auto using Forall_upd.
Qed.

Lemma Forall_newArray {A : Type} `{Undef A} (P : A -> Prop) n :
  P undef -> Forall P (newArray n).
Proof.
  intros Hu. unfold newArray. induction (Z.to_nat n); simpl; auto.
Qed.

Lemma buildBgMask_never (data : list Z) (w h : Z) (isBackground : Z -> Z -> Z -> Z -> bool) :
  (forall r g b a, isBackground r g b a = false) ->
  Forall (fun m => m = 0) (buildBgMask data w h isBackground).
Proof.
  intros Hnever. unfold buildBgMask.
  apply for_preserves; [now apply Forall_newArray|].
  intros y m _ Hm. apply for_preserves; [assumption|].
  intros x m' _ Hm'. cbv zeta. rewrite Hnever. now apply Forall_aset.
Qed.

(** C10.  When none of the three border categories (transparent,
    near-white, near-black) both dominates the other two and exceeds 30%
    of the border samples, [detectBackground] returns the predicate that is
    false everywhere; the handler's background mask is then all zero, and
    no pixel takes the forced-space branch of the glyph mapper. *)
Theorem detectBackground_no_dominant_category (imageData : ImageData.t) :
  let c := borderCounts imageData in
  let bgMask :=
    buildBgMask (ImageData.data imageData) (ImageData.width imageData)
                (ImageData.height imageData) (detectBackground imageData) in
  dominates (trans c) (white c) (black c) (samples c) = false ->
  dominates (white c) (black c) (trans c) (samples c) = false ->
  dominates (black c) (white c) (trans c) (samples c) = false ->
  (forall r g b a, detectBackground imageData r g b a = false) /\
  Forall (fun m => m = 0) bgMask /\
  (forall idx, truthy (aget bgMask idx) = false).
Proof.
  intros c bgMask Ht Hwh Hb.
  assert (forall r g b a, detectBackground imageData r g b a = false) as Hnever.
  { intros r g b a. unfold detectBackground. fold c. now rewrite Ht, Hwh, Hb. }
  assert (Forall (fun m => m = 0) bgMask) as Hzero by now apply buildBgMask_never.
  repeat split; auto.
  intros idx. destruct (aget bgMask idx) as [m|] eqn:E; [|reflexivity].
  apply aget_In in E. rewrite Forall_forall in Hzero. now rewrite (Hzero m E).
Qed.

Lemma detectBackground_no_dominant_category_witness :
  let imageData :=
    {| ImageData.data := [128; 128; 128; 255; 250; 250; 250; 255;
                         3; 3; 3; 255; 9; 200; 40; 10];
       ImageData.width := 2; ImageData.height := 2 |} in
  (forall r g b a, detectBackground imageData r g b a = false) /\
  Forall (fun m => m = 0)
    (buildBgMask (ImageData.data imageData) 2 2 (detectBackground imageData)) /\
  (forall idx,
     truthy (aget (buildBgMask (ImageData.data imageData) 2 2
                     (detectBackground imageData)) idx) = false).
Proof.
  apply (detectBackground_no_dominant_category
    {| ImageData.data := [128; 128; 128; 255; 250; 250; 250; 255;
                         3; 3; 3; 255; 9; 200; 40; 10];
       ImageData.width := 2; ImageData.height := 2 |}); reflexivity.
Defined.

(** ** Braille packing (C8) *)

Lemma for_0_2 {S : Type} (body : Z -> S -> S) s : for_ 0 2 body s = body 1 (body 0 s).
Proof. reflexivity. Qed.

Lemma for_0_4 {S : Type} (body : Z -> S -> S) s :
  for_ 0 4 body s = body 3 (body 2 (body 1 (body 0 s))).
Proof. reflexivity. Qed.

Lemma packDot_spec grayBuf w h x y col row code k :
  packDot grayBuf w h x y col row (code, k) =
  (if subPixelOn grayBuf w h x y col row
   then Z.lor code (Z.shiftl 1 (dotMap.[k] - 1)) else code, k + 1).
Proof.
  unfold packDot, subPixelOn. cbv zeta.
  destruct (x + col <? w), (y + row <? h); simpl; reflexivity.
Qed.

Lemma brailleCell_sum grayBuf w h x y :
  brailleCell grayBuf w h x y =
  0x2800 + fold_right Z.add 0
    (map (fun '(col, row) =>
            if subPixelOn grayBuf w h x y col row
            then 2 ^ (dotMap.[col * 4 + row] - 1) else 0) cellScan).
Proof.
  unfold brailleCell. rewrite for_0_2, !for_0_4, !packDot_spec.
  unfold cellScan, map, fold_right.
  destruct (subPixelOn grayBuf w h x y 0 0), (subPixelOn grayBuf w h x y 0 1),
    (subPixelOn grayBuf w h x y 0 2), (subPixelOn grayBuf w h x y 0 3),
    (subPixelOn grayBuf w h x y 1 0), (subPixelOn grayBuf w h x y 1 1),
    (subPixelOn grayBuf w h x y 1 2), (subPixelOn grayBuf w h x y 1 3);
    reflexivity.
Qed.

(** C8 (as the code has it).  The code point of a Braille cell is U+2800
    plus, for each sub-pixel lit, the bit of the dot that [dotMap] =
    [1,2,3,7,4,5,6,8] assigns to it in column-major scan order; a sub-pixel
    outside the buffer is never lit.  Hence a cell whose eight sub-pixels
    all lie in the buffer with luminance 255 packs to U+28FF, and a cell
    whose in-buffer sub-pixels all have luminance 0 packs to U+2800. *)
Theorem brailleCell_packing (grayBuf : list Z) (w h x y : Z) :
  dotMap = [1; 2; 3; 7; 4; 5; 6; 8] /\
  brailleCell grayBuf w h x y =
    0x2800 + fold_right Z.add 0
      (map (fun '(col, row) =>
              if subPixelOn grayBuf w h x y col row
              then 2 ^ (dotMap.[col * 4 + row] - 1) else 0) cellScan) /\
  (forall col row, ~ (x + col < w /\ y + row < h) ->
     subPixelOn grayBuf w h x y col row = false) /\
  ((forall col row, 0 <= col < 2 -> 0 <= row < 4 ->
      x + col < w /\ y + row < h /\ grayBuf.[(y + row) * w + (x + col)] = 255) ->
   brailleCell grayBuf w h x y = 0x28FF) /\
  ((forall col row, 0 <= col < 2 -> 0 <= row < 4 ->
      x + col < w -> y + row < h -> grayBuf.[(y + row) * w + (x + col)] = 0) ->
   brailleCell grayBuf w h x y = 0x2800).
Proof.
  split; [reflexivity|]. split; [apply brailleCell_sum|]. split; [|split].
  - intros col row Hout. unfold subPixelOn.
    destruct (Z.ltb_spec (x + col) w); [|reflexivity].
    destruct (Z.ltb_spec (y + row) h); [|reflexivity].
    exfalso. apply Hout. now split.
  - intros Hwhite. rewrite brailleCell_sum.
    assert (forall col row, 0 <= col < 2 -> 0 <= row < 4 ->
              subPixelOn grayBuf w h x y col row = true) as Hon.
    { intros col row Hc Hr. destruct (Hwhite col row Hc Hr) as (Hx & Hy & Hv).
      unfold subPixelOn. rewrite Hv.
      destruct (Z.ltb_spec (x + col) w); [|lia].
      destruct (Z.ltb_spec (y + row) h); [|lia]. reflexivity. }
    unfold cellScan, map, fold_right. rewrite !Hon by lia. reflexivity.
  - intros Hblack. rewrite brailleCell_sum.
    assert (forall col row, 0 <= col < 2 -> 0 <= row < 4 ->
              subPixelOn grayBuf w h x y col row = false) as Hoff.
    { intros col row Hc Hr. unfold subPixelOn.
      destruct (Z.ltb_spec (x + col) w); [|reflexivity].
      destruct (Z.ltb_spec (y + row) h); [|reflexivity].
      now rewrite (Hblack col row Hc Hr) by assumption. }
    unfold cellScan, map, fold_right. rewrite !Hoff by lia. reflexivity.
Qed.

Lemma brailleCell_packing_witness :
  brailleCell [255; 255; 255; 255; 255; 255; 255; 255] 2 4 0 0 = 0x28FF /\
  brailleCell [0; 0; 0; 0; 0; 0; 0; 0] 2 4 0 0 = 0x2800.
Proof.
  split.
  - apply (brailleCell_packing [255; 255; 255; 255; 255; 255; 255; 255] 2 4 0 0).
    intros col row Hc Hr.
    assert (col = 0 \/ col = 1) as [-> | ->] by lia;
      assert (row = 0 \/ row = 1 \/ row = 2 \/ row = 3) as [-> | [-> | [-> | ->]]] by lia;
      (split; [|split]); reflexivity.
  - apply (brailleCell_packing [0; 0; 0; 0; 0; 0; 0; 0] 2 4 0 0).
    intros col row Hc Hr _ _.
    assert (col = 0 \/ col = 1) as [-> | ->] by lia;
      assert (row = 0 \/ row = 1 \/ row = 2 \/ row = 3) as [-> | [-> | [-> | ->]]] by lia;
      reflexivity.
Defined.

(** The claim as stated: a cell all of whose in-buffer sub-pixels have
    luminance 255 packs to U+28FF.  It fails on a cell the buffer clips: the
    one cell of a white 1x1 image has a single sub-pixel in the buffer and
    packs to U+2801. *)
Lemma brailleCell_packing_counterexample :
  ~ (forall (grayBuf : list Z) (w h x y : Z),
       (forall col row, 0 <= col < 2 -> 0 <= row < 4 ->
          x + col < w -> y + row < h -> grayBuf.[(y + row) * w + (x + col)] = 255) ->
       brailleCell grayBuf w h x y = 0x28FF).
Proof.
  intros Hclaim. specialize (Hclaim [255] 1 1 0 0).
  assert (brailleCell [255] 1 1 0 0 = 0x2801) as Hcell by reflexivity.
  rewrite Hclaim in Hcell; [discriminate|].
  intros col row Hc Hr Hx Hy.
  assert (col = 0) as -> by lia. assert (row = 0) as -> by lia. reflexivity.
Qed.

(** ** The glyph mapper on ['#', '.', ' '] (C9) *)

(** C9.  With the glyph list ['#', '.', ' '] the quantisation step is
    max(1, floor(255 / 3)) = 85; a foreground pixel of intensity 0 renders
    as '#', of intensity 90 as '.', of intensity 200 as ' '; and a
    background pixel renders as ' ' whatever its intensity. *)
Theorem glyph_mapping_scenario (bgMask grayBuf : list Z) (idx : Z) :
  let charSet := [lit "#"; lit "."; lit " "] in
  let charMap := buildCharMap charSet in
  stepOf charSet = Z.max 1 (Math_floor (255 / 3)) /\
  stepOf charSet = 85 /\
  (truthy (aget bgMask idx) = true ->
     pixelGlyph bgMask grayBuf charMap idx = lit " ") /\
  (truthy (aget bgMask idx) = false ->
     (aget grayBuf idx = Some 0 -> pixelGlyph bgMask grayBuf charMap idx = lit "#") /\
     (aget grayBuf idx = Some 90 -> pixelGlyph bgMask grayBuf charMap idx = lit ".") /\
     (aget grayBuf idx = Some 200 -> pixelGlyph bgMask grayBuf charMap idx = lit " ")).
Proof.
  intros charSet charMap.
  split; [reflexivity|]. split; [reflexivity|]. split.
  - intros Hbg. unfold pixelGlyph. now rewrite Hbg.
  - intros Hfg. unfold pixelGlyph. rewrite Hfg.
    (split; [|split]); intros ->; reflexivity.
Qed.

Lemma glyph_mapping_scenario_witness :
  let charMap := buildCharMap [lit "#"; lit "."; lit " "] in
  pixelGlyph [0; 0; 0; 1] [0; 90; 200; 0] charMap 0 = lit "#" /\
  pixelGlyph [0; 0; 0; 1] [0; 90; 200; 0] charMap 1 = lit "." /\
  pixelGlyph [0; 0; 0; 1] [0; 90; 200; 0] charMap 2 = lit " " /\
  pixelGlyph [0; 0; 0; 1] [0; 90; 200; 0] charMap 3 = lit " ".
Proof.
  split; [|split; [|split]].
  - destruct (glyph_mapping_scenario [0; 0; 0; 1] [0; 90; 200; 0] 0) as (_ & _ & _ & Hfg).
    now apply Hfg.
  - destruct (glyph_mapping_scenario [0; 0; 0; 1] [0; 90; 200; 0] 1) as (_ & _ & _ & Hfg).
    now apply Hfg.
  - destruct (glyph_mapping_scenario [0; 0; 0; 1] [0; 90; 200; 0] 2) as (_ & _ & _ & Hfg).
    now apply Hfg.
  - destruct (glyph_mapping_scenario [0; 0; 0; 1] [0; 90; 200; 0] 3) as (_ & _ & Hbg & _).
    now apply Hbg.
Defined.

(** ** Sums of rationals written as loops *)

Lemma for_Qeq lo hi (body body' : Z -> Q -> Q) (a a' : Q) :
  (forall i s s', lo <= i < hi -> (s == s')%Q -> (body i s == body' i s')%Q) ->
  (a == a')%Q ->
  (for_ lo hi body a == for_ lo hi body' a')%Q.
Proof.
  intros Hbody Ha. destruct (Z.le_gt_cases lo hi) as [Hle|Hgt].
  - replace hi with (lo + Z.of_nat (Z.to_nat (hi - lo))) by lia.
    assert (Z.of_nat (Z.to_nat (hi - lo)) <= hi - lo) as Hb by lia.
    revert Hb. generalize (Z.to_nat (hi - lo)) as n.
    induction n as [|n IH]; intros Hb.
    + now rewrite !for_empty by lia.
    + replace (lo + Z.of_nat (S n)) with (lo + Z.of_nat n + 1) by lia.
      rewrite !for_snoc by lia. apply Hbody; [lia|]. apply IH. lia.
  - now rewrite !for_empty by lia.
Qed.

Lemma Qsum_empty lo hi f : hi <= lo -> Qsum lo hi f = 0%Q.
Proof. intros Hle. unfold Qsum. now rewrite for_empty. Qed.

Lemma Qsum_snoc lo hi f : lo <= hi -> Qsum lo (hi + 1) f = (Qsum lo hi f + f hi)%Q.
Proof. intros Hle. unfold Qsum. now rewrite for_snoc. Qed.

Lemma Qsum_ext lo hi f g :
  (forall i, lo <= i < hi -> (f i == g i)%Q) -> (Qsum lo hi f == Qsum lo hi g)%Q.
Proof.
  intros Hfg. unfold Qsum. apply for_Qeq; [|reflexivity].
  intros i s s' Hi Hs. now rewrite Hs, (Hfg i Hi).
Qed.

(** A summing loop started from [a] adds [a] to the sum. *)
Lemma for_sum_from lo hi (body : Z -> Q -> Q) (f : Z -> Q) (a : Q) :
  (forall i s, lo <= i < hi -> (body i s == s + f i)%Q) ->
  (forall i s s', lo <= i < hi -> (s == s')%Q -> (body i s == body i s')%Q) ->
  (for_ lo hi body a == a + Qsum lo hi f)%Q.
Proof.
  intros Hbody Hproper. destruct (Z.le_gt_cases lo hi) as [Hle|Hgt].
  - replace hi with (lo + Z.of_nat (Z.to_nat (hi - lo))) by lia.
    assert (Z.of_nat (Z.to_nat (hi - lo)) <= hi - lo) as Hb by lia.
    revert Hb. generalize (Z.to_nat (hi - lo)) as n.
    induction n as [|n IH]; intros Hb.
    + rewrite for_empty, Qsum_empty by lia. ring.
    + replace (lo + Z.of_nat (S n)) with (lo + Z.of_nat n + 1) by lia.
      rewrite for_snoc, Qsum_snoc by lia.
      rewrite (Hproper _ _ (a + Qsum lo (lo + Z.of_nat n) f)%Q) by (try apply IH; lia).
      rewrite Hbody by lia. ring.
  - rewrite for_empty, Qsum_empty by lia. ring.
Qed.

Lemma Qsum_split lo mid hi f :
  lo <= mid <= hi -> (Qsum lo hi f == Qsum lo mid f + Qsum mid hi f)%Q.
Proof.
  intros Hm. unfold Qsum at 1. rewrite (for_split lo mid hi) by assumption.
  apply for_sum_from.
  - intros; reflexivity.
  - intros i s s' _ Hs. now rewrite Hs.
Qed.

Lemma Qsum_plus lo hi f g :
  (Qsum lo hi (fun i => f i + g i) == Qsum lo hi f + Qsum lo hi g)%Q.
Proof.
  destruct (Z.le_gt_cases lo hi) as [Hle|Hgt].
  - replace hi with (lo + Z.of_nat (Z.to_nat (hi - lo))) by lia.
    generalize (Z.to_nat (hi - lo)) as n. induction n as [|n IH].
    + rewrite !Qsum_empty by lia. ring.
    + replace (lo + Z.of_nat (S n)) with (lo + Z.of_nat n + 1) by lia.
      rewrite !Qsum_snoc by lia. rewrite IH. ring.
  - rewrite !Qsum_empty by lia. ring.
Qed.

(** [rectSum] is the sum over the rows of the sums along each row. *)
Lemma rectSum_Qsum Y w x0 x1 y0 y1 :
  (rectSum Y w x0 x1 y0 y1 ==
   Qsum y0 (y1 + 1) (fun y => Qsum x0 (x1 + 1) (fun x => Y.[y * w + x])))%Q.
Proof.
  unfold rectSum.
  rewrite (for_sum_from y0 (y1 + 1) _
             (fun y => Qsum x0 (x1 + 1) (fun x => Y.[y * w + x]))).
  - ring.
  - intros y s _. apply for_sum_from.
    + intros; reflexivity.
    + intros i a a' _ Ha. now rewrite Ha.
  - intros y s s' _ Hs. apply for_Qeq; [|assumption].
    intros i a a' _ Ha. now rewrite Ha.
Qed.

(** ** The integral table and its window query (C2) *)

Section IntegralImage.
Variables (Y : list Q) (w h : Z).
Hypothesis Hw : 0 <= w.
Hypothesis Hh : 0 <= h.

Lemma prefixSum_row x y :
  0 <= y ->
  (prefixSum Y w x y == prefixSum Y w x (y - 1) + rowSum Y w y 0 (x + 1))%Q.
Proof.
  intros Hy. unfold prefixSum. rewrite Qsum_snoc by lia.
  now replace (y - 1 + 1) with y by lia.
Qed.

Lemma buildIntegralImage_spec :
  let T := buildIntegralImage Y w h in
  Z.of_nat (length T) = w * h /\
  forall x y, 0 <= x < w -> 0 <= y < h -> (T.[y * w + x] == prefixSum Y w x y)%Q.
Proof.
  unfold buildIntegralImage.
  pose (Inv := fun (k : Z) (T : list Q) =>
    Z.of_nat (length T) = w * h /\
    forall x y, 0 <= x < w -> 0 <= y < k -> (T.[y * w + x] == prefixSum Y w x y)%Q).
  enough (Inv h (for_ 0 h (fun y I =>
    snd (for_ 0 w (fun x '(rowSum, I_) =>
      let idx := y * w + x in
      let rowSum := (rowSum + Y.[idx])%Q in
      (rowSum,
       aset I_ idx (rowSum + (if 0 <? y then I_.[(y - 1) * w + x] else 0))%Q))
      (0%Q, I))) (newArray (w * h)))) by assumption.
  apply for_invariant; [lia| |].
  - split; [rewrite length_newArray; nia | intros; lia].
  - intros y T Hy [Hlen Hrows].
    pose (InvRow := fun (k : Z) (st : Q * list Q) =>
      (fst st == rowSum Y w y 0 k)%Q /\
      Z.of_nat (length (snd st)) = w * h /\
      forall x' y', 0 <= x' < w -> 0 <= y' < y + 1 -> (y' < y \/ x' < k) ->
        ((snd st).[y' * w + x'] == prefixSum Y w x' y')%Q).
    assert (InvRow w (for_ 0 w (fun x '(rowSum, I_) =>
      let idx := y * w + x in
      let rowSum := (rowSum + Y.[idx])%Q in
      (rowSum,
       aset I_ idx (rowSum + (if 0 <? y then I_.[(y - 1) * w + x] else 0))%Q))
      (0%Q, T))) as (_ & Hlen' & Hall).
    { apply for_invariant; [lia| |].
      - unfold InvRow; simpl. split; [unfold rowSum; now rewrite Qsum_empty by lia|].
        split; auto.
        intros x' y' Hx' Hy' [Hlt|Hlt]; [|lia]. apply Hrows; lia.
      - intros x [rs T'] Hx (Hrs & Hl' & Hdone). unfold InvRow in *; simpl in *.
        assert (rs + Y.[y * w + x] == rowSum Y w y 0 (x + 1))%Q as Hrs'.
        { unfold rowSum. rewrite Qsum_snoc by lia. now rewrite Hrs. }
        split; [assumption|]. split; [now rewrite length_aset|].
        intros x' y' Hx' Hy' Hd.
        destruct (Z.eq_dec (y' * w + x') (y * w + x)) as [Heq|Hne].
        + assert (y' = y) by nia. subst y'. assert (x' = x) by lia. subst x'.
          rewrite rd_aset_same by nia. rewrite Hrs', (prefixSum_row x y) by lia.
          destruct (Z.ltb_spec 0 y) as [Hpos|Hzero].
          * rewrite (Hdone x (y - 1)) by lia. ring.
          * assert (y = 0) by lia. subst y. unfold prefixSum.
            rewrite Qsum_empty by lia. ring.
        + rewrite rd_aset_other by assumption. apply Hdone; auto.
          destruct Hd as [Hd|Hd]; [now left|].
          destruct (Z.eq_dec y' y) as [->|Hy'']; [right|left; lia].
          assert (x' <> x) by (intros ->; apply Hne; reflexivity). lia. }
    split; [assumption|]. intros x' y' Hx' Hy'. apply Hall; auto. lia.
Qed.

(** Differences of prefix sums are sums over rectangles. *)
Lemma prefixSum_rows x y0 y1 :
  -1 <= y0 <= y1 ->
  (prefixSum Y w x y1 - prefixSum Y w x y0 ==
   Qsum (y0 + 1) (y1 + 1) (fun y => rowSum Y w y 0 (x + 1)))%Q.
Proof.
  intros Hy. unfold prefixSum. rewrite (Qsum_split 0 (y0 + 1) (y1 + 1)) by lia. ring.
Qed.

Lemma rowSum_cols y x0 x1 :
  -1 <= x0 <= x1 ->
  (rowSum Y w y 0 (x1 + 1) - rowSum Y w y 0 (x0 + 1) ==
   rowSum Y w y (x0 + 1) (x1 + 1))%Q.
Proof.
  intros Hx. unfold rowSum. rewrite (Qsum_split 0 (x0 + 1) (x1 + 1)) by lia. ring.
Qed.

Lemma prefixSum_inclusion_exclusion x0 x1 y0 y1 :
  -1 <= x0 <= x1 -> -1 <= y0 <= y1 ->
  (prefixSum Y w x1 y1 - prefixSum Y w x1 y0
   - prefixSum Y w x0 y1 + prefixSum Y w x0 y0 ==
   rectSum Y w (x0 + 1) x1 (y0 + 1) y1)%Q.
Proof.
  intros Hx Hy. rewrite rectSum_Qsum.
  setoid_replace (prefixSum Y w x1 y1 - prefixSum Y w x1 y0
                  - prefixSum Y w x0 y1 + prefixSum Y w x0 y0)%Q
    with ((prefixSum Y w x1 y1 - prefixSum Y w x1 y0)
          - (prefixSum Y w x0 y1 - prefixSum Y w x0 y0))%Q
    by ring.
  rewrite !prefixSum_rows by assumption.
  setoid_replace (Qsum (y0 + 1) (y1 + 1) (fun y => rowSum Y w y 0 (x1 + 1)))
    with (Qsum (y0 + 1) (y1 + 1)
            (fun y => rowSum Y w y 0 (x0 + 1) + rowSum Y w y (x0 + 1) (x1 + 1)))%Q.
  - rewrite Qsum_plus. unfold rowSum. ring.
  - apply Qsum_ext. intros y _. rewrite <- (rowSum_cols y x0 x1) by assumption. ring.
Qed.

End IntegralImage.

(** C2.  What the integral-table query computes.  [boxSum] subtracts the
    table entries at the window's own first row [y0] and first column [x0]
    (not at [y0 - 1] and [x0 - 1]), so the sum it returns is that of the
    clipped window without its first row and first column; it equals the
    brute-force [windowSum] only when those samples add up to zero. *)
Theorem boxSum_drops_first_row_and_column (Y : list Q) (w h x y r : Z) :
  0 <= x < w -> 0 <= y < h -> 0 <= r ->
  let x0 := Z.max 0 (x - r) in
  let y0 := Z.max 0 (y - r) in
  let x1 := Z.min (w - 1) (x + r) in
  let y1 := Z.min (h - 1) (y + r) in
  windowSum Y w h x y r = rectSum Y w x0 x1 y0 y1 /\
  (boxSum (buildIntegralImage Y w h) w h x y r ==
   rectSum Y w (x0 + 1) x1 (y0 + 1) y1)%Q.
Proof.
  intros Hx Hy Hr x0 y0 x1 y1. split; [reflexivity|].
  destruct (buildIntegralImage_spec Y w h) as [_ HT]; [lia|lia|].
  unfold boxSum. fold x0 y0 x1 y1. cbv zeta.
  rewrite !HT by (subst x0 y0 x1 y1; lia).
  apply prefixSum_inclusion_exclusion; subst x0 y0 x1 y1; lia.
Qed.

(** On the one-pixel field [5] the query returns 0, the brute-force sum 5. *)
Lemma boxSum_drops_first_row_and_column_witness :
  windowSum [5%Q] 1 1 0 0 0 = rectSum [5%Q] 1 0 0 0 0 /\
  (boxSum (buildIntegralImage [5%Q] 1 1) 1 1 0 0 0 == rectSum [5%Q] 1 1 0 1 0)%Q.
Proof.
  apply (boxSum_drops_first_row_and_column [5%Q] 1 1 0 0 0); lia.
Defined.

Lemma boxSum_one_pixel :
  (boxSum (buildIntegralImage [5%Q] 1 1) 1 1 0 0 0 == 0)%Q /\
  (windowSum [5%Q] 1 1 0 0 0 == 5)%Q.
Proof. split; reflexivity. Qed.

(** [computeLocalMean] divides every window sum by the same
    [(2 radius + 1)^2], clipped or not. *)
Lemma computeLocalMean_constant_area (Y : list Q) (w h radius x y : Z) :
  0 <= x < w -> 0 <= y < h ->
  aget (computeLocalMean Y w h radius) (y * w + x) =
  Some (boxSum (buildIntegralImage Y w h) w h x y radius
        / inject_Z ((2 * radius + 1) * (2 * radius + 1)))%Q.
Proof.
  intros Hx Hy. unfold computeLocalMean. cbv zeta.
  destruct (fill2_spec
    (fun x y => (boxSum (buildIntegralImage Y w h) w h x y radius
                 / inject_Z ((2 * radius + 1) * (2 * radius + 1)))%Q)
    w h (newArray (w * h))) as [_ Hget]; try lia.
  - rewrite length_newArray. nia.
  - now apply Hget.
Qed.

(** ** Row separators (C3) *)

Lemma fold_left_append {A B : Type} (g : B -> list A) (l : list B) (acc : list A) :
  fold_left (fun acc x => acc ++ g x) l acc = acc ++ flat_map g l.
Proof.
  revert acc. induction l as [|x l IH]; intros acc; simpl.
  - now rewrite app_nil_r.
  - now rewrite IH, app_assoc.
Qed.

(** [generateBrailleArt] appends a newline after every row it emits. *)
Lemma generateBrailleArt_rows grayBuf w h bbox :
  let startY := Math_floor (inject_Z (BBox.top bbox) / 4) * 4 in
  let endY := Math_ceil (inject_Z (BBox.bottom bbox) / 4) * 4 in
  let startX := Math_floor (inject_Z (BBox.left bbox) / 2) * 2 in
  let endX := Math_ceil (inject_Z (BBox.right bbox) / 2) * 2 in
  generateBrailleArt grayBuf w h bbox =
  flat_map (fun y => brailleRow grayBuf w h startX endX y ++ newline)
           (ZrangeStep startY endY 4).
Proof.
  intros startY endY startX endX. unfold generateBrailleArt, forStep.
  fold startY endY startX endX.
  rewrite <- (app_nil_l (flat_map _ _)).
  rewrite <- fold_left_append. generalize (@nil Z) as acc.
  induction (ZrangeStep startY endY 4) as [|y l IH]; intros acc; simpl; auto.
  rewrite fold_left_append, <- app_assoc. apply IH.
Qed.

Lemma flat_map_ends_with {A B : Type} (g : B -> list A) (sep : list A) (l : list B) :
  flat_map (fun y => g y ++ sep) l = [] \/
  exists s, flat_map (fun y => g y ++ sep) l = s ++ sep.
Proof.
  induction l as [|y l IH]; [now left|right]. simpl.
  destruct IH as [-> | [s ->]].
  - exists (g y). now rewrite app_nil_r.
  - exists ((g y ++ sep) ++ s). now rewrite app_assoc.
Qed.

(** Regular mode: [join] puts one separator between consecutive rows and
    none after the last, so rows free of '\n' give a text with one '\n'
    fewer than there are rows. *)
Lemma join_newline_count (lines : list JSString) :
  Forall (fun l => ~ In 10 l) lines ->
  count_occ Z.eq_dec (join newline lines) 10 = pred (length lines).
Proof.
  induction 1 as [|l lines Hl Hrest IH]; [reflexivity|].
  destruct lines as [|l' lines'].
  - simpl. now apply count_occ_not_In.
  - change (join newline (l :: l' :: lines'))
      with (l ++ newline ++ join newline (l' :: lines')).
    rewrite !count_occ_app, IH. rewrite (proj1 (count_occ_not_In Z.eq_dec l 10) Hl).
    reflexivity.
Qed.

(** C3.  In Braille mode the handler posts a text in which every row, the
    last one included, is followed by '\n': the text is empty or ends with
    '\n'.  (Regular mode joins its rows with '\n' and adds none after the
    last.) *)
Theorem braille_text_ends_with_newline {host : HostMath}
    (imageData : ImageData.t) (options : Options) :
  charSetName options = braille ->
  exists text,
    onmessage imageData options = [ {| ascii := text |} ] /\
    (text = [] \/ exists s, text = s ++ newline).
Proof.
  intros Hbraille. unfold onmessage. rewrite Hbraille. cbn [isBraille].
  eexists. split; [reflexivity|].
  rewrite generateBrailleArt_rows. apply flat_map_ends_with.
Qed.

Lemma braille_text_ends_with_newline_witness :
  exists text,
    onmessage (host := exampleHost)
      {| ImageData.data := flat_map (fun _ => [255; 255; 255; 255]) (seq 0 8);
         ImageData.width := 2; ImageData.height := 4 |}
      {| invertColors := false; charSetName := braille; charSet := []; gamma := 1;
         dithering := true; compactMode := true; preprocess := false;
         preprocessStrength := 0 |}
    = [ {| ascii := text |} ] /\
    (text = [] \/ exists s, text = s ++ newline).
Proof.
  apply (braille_text_ends_with_newline (host := exampleHost)). reflexivity.
Defined.

(** The all-white 2x4 image in Braille mode: one cell, then a newline. *)
Lemma braille_single_cell_text :
  generateBrailleArt [255; 255; 255; 255; 255; 255; 255; 255] 2 4
    {| BBox.left := 0; BBox.top := 0; BBox.right := 2; BBox.bottom := 4 |}
  = [0x28FF; 10] /\
  onmessage (host := exampleHost)
    {| ImageData.data := flat_map (fun _ => [255; 255; 255; 255]) (seq 0 8);
       ImageData.width := 2; ImageData.height := 4 |}
    {| invertColors := false; charSetName := braille; charSet := []; gamma := 1;
       dithering := true; compactMode := true; preprocess := false;
       preprocessStrength := 0 |}
  = [ {| ascii := [0x28FF; 10] |} ].
Proof. split; vm_compute; reflexivity. Qed.

(** ** Requests with a zero dimension (C1) *)

Lemma computeForegroundBBox_degenerate imageData isBackground :
  ImageData.width imageData = 0 \/ ImageData.height imageData = 0 ->
  computeForegroundBBox imageData isBackground =
  fullFrame (ImageData.width imageData) (ImageData.height imageData).
Proof.
  destruct imageData as [data w h]. simpl. intros [-> | ->];
    unfold computeForegroundBBox; simpl ImageData.width; simpl ImageData.height;
    cbv zeta; simpl Z.to_nat; cbn [while_].
  - reflexivity.
  - now rewrite orb_true_r.
Qed.

(** The text the handler posts, as a function of the buffers it renders. *)
Lemma onmessage_text {host : HostMath} imageData options :
  let w := ImageData.width imageData in
  let h := ImageData.height imageData in
  exists (bbox : BBox.t) (bgMask grayBuf : list Z),
    (bbox = fullFrame w h \/
     exists data isBackground,
       bbox = computeForegroundBBox
                {| ImageData.data := data; ImageData.width := w; ImageData.height := h |}
                isBackground) /\
    onmessage imageData options =
    [ {| ascii :=
           if isBraille (charSetName options) then
             generateBrailleArt grayBuf w h
               {| BBox.left := Math_floor (inject_Z (BBox.left bbox) / 2) * 2;
                  BBox.top := Math_floor (inject_Z (BBox.top bbox) / 4) * 4;
                  BBox.right := Math_ceil (inject_Z (BBox.right bbox) / 2) * 2;
                  BBox.bottom := Math_ceil (inject_Z (BBox.bottom bbox) / 4) * 4 |}
           else
             renderRegular bgMask grayBuf (buildCharMap (charSet options)) w
               {| BBox.left := Math_floor (inject_Z (BBox.left bbox));
                  BBox.top := Math_floor (inject_Z (BBox.top bbox));
                  BBox.right := Math_ceil (inject_Z (BBox.right bbox));
                  BBox.bottom := Math_ceil (inject_Z (BBox.bottom bbox)) |} |} ].
Proof.
  intros w h. unfold onmessage. fold w h. cbv zeta.
  eexists. eexists. eexists. split; [|reflexivity].
  destruct (compactMode options); [now left|right]. eauto.
Qed.

Lemma join_newline_empty_rows (lines : list JSString) :
  Forall (fun l => l = []) lines -> Forall (fun c => c = 10) (join newline lines).
Proof.
  induction 1 as [|l lines Hl _ IH]; [constructor|]. subst l.
  destruct lines as [|l' lines']; [constructor|].
  change (join newline ([] :: l' :: lines'))
    with ([] ++ newline ++ join newline (l' :: lines')).
  simpl app. now constructor.
Qed.

(** C1 (as the code has it).  The handler makes no dimension check: for a
    request of zero width or zero height it still posts exactly one
    response.  The text of that response holds no glyph: it consists of
    row separators only, and it is empty when the height is zero. *)
Theorem onmessage_zero_dimension {host : HostMath}
    (imageData : ImageData.t) (options : Options) :
  ImageData.width imageData = 0 \/ ImageData.height imageData = 0 ->
  exists text,
    onmessage imageData options = [ {| ascii := text |} ] /\
    Forall (fun c => c = 10) text /\
    (ImageData.height imageData = 0 -> text = []).
Proof.
  intros Hzero.
  destruct (onmessage_text imageData options) as (bbox & bgMask & grayBuf & Hbbox & ->).
  assert (bbox = fullFrame (ImageData.width imageData) (ImageData.height imageData))
    as ->.
  { destruct Hbbox as [-> | (data & isBg & ->)]; [reflexivity|].
    now rewrite computeForegroundBBox_degenerate. }
  eexists. split; [reflexivity|].
  unfold fullFrame. cbn [BBox.left BBox.top BBox.right BBox.bottom].
  unfold Math_floor, Math_ceil. rewrite !Qfloor_Z, !Qceiling_Z.
  destruct (isBraille (charSetName options)).
  - rewrite generateBrailleArt_rows. cbn [BBox.left BBox.top BBox.right BBox.bottom].
    destruct Hzero as [-> | ->].
    + replace (Math_floor (inject_Z (Qfloor (inject_Z 0 / 2) * 2) / 2) * 2)
        with 0 by reflexivity.
      replace (Math_ceil (inject_Z (Qceiling (inject_Z 0 / 2) * 2) / 2) * 2)
        with 0 by reflexivity.
      split.
      * apply Forall_flat_map, Forall_forall. intros y _.
        unfold brailleRow. simpl. repeat constructor.
      * intros ->. reflexivity.
    + split; [constructor | reflexivity].
  - unfold renderRegular. cbn [BBox.left BBox.top BBox.right BBox.bottom].
    destruct Hzero as [-> | ->].
    + split.
      * apply join_newline_empty_rows. apply Forall_forall.
        intros l Hl. apply in_map_iff in Hl as (y & <- & _). reflexivity.
      * intros ->. reflexivity.
    + split; [constructor | reflexivity].
Qed.

Lemma onmessage_zero_dimension_witness :
  exists text,
    onmessage (host := exampleHost)
      {| ImageData.data := []; ImageData.width := 0; ImageData.height := 3 |}
      {| invertColors := true; charSetName := standard;
         charSet := [lit "@"; lit "#"; lit "."; lit " "]; gamma := 1;
         dithering := true; compactMode := false; preprocess := true;
         preprocessStrength := 5 |}
    = [ {| ascii := text |} ] /\
    Forall (fun c => c = 10) text /\
    (3 = 0 -> text = []).
Proof.
  apply (onmessage_zero_dimension (host := exampleHost)). left. reflexivity.
Defined.

(** The claim as stated: a request with a zero dimension gets no response.
    It fails on the 0 x 0 request, which is answered with the empty text. *)
Lemma onmessage_zero_dimension_counterexample :
  ~ (forall (host : HostMath) (imageData : ImageData.t) (options : Options),
       ImageData.width imageData = 0 \/ ImageData.height imageData = 0 ->
       onmessage imageData options = []).
Proof.
  intros Hclaim.
  specialize (Hclaim exampleHost
    {| ImageData.data := []; ImageData.width := 0; ImageData.height := 0 |}
    {| invertColors := false; charSetName := standard;
       charSet := [lit "@"; lit "#"; lit "."; lit " "]; gamma := 1;
       dithering := false; compactMode := false; preprocess := false;
       preprocessStrength := 0 |} (or_introl eq_refl)).
  discriminate Hclaim.
Qed.

Lemma onmessage_empty_request :
  onmessage (host := exampleHost)
    {| ImageData.data := []; ImageData.width := 0; ImageData.height := 0 |}
    {| invertColors := false; charSetName := standard;
       charSet := [lit "@"; lit "#"; lit "."; lit " "]; gamma := 1;
       dithering := false; compactMode := false; preprocess := false;
       preprocessStrength := 0 |}
  = [ {| ascii := [] |} ].
Proof. vm_compute. reflexivity. Qed.

(** ** Normalisation of the Sobel gradient (C5) *)

Section Sobel.
Variables (Y : list Q) (w h : Z).
Hypothesis Hw : 0 <= w.
Hypothesis Hh : 0 <= h.

Lemma SobelInv_mono b b' st : b <= b' -> SobelInv w h b st -> SobelInv w h b' st.
Proof.
  intros Hb (Hl & Hall & Hfl & Hmax). repeat split; auto.
  destruct Hmax as [Hmax | (j & g & Hj & Hg & Hgm)]; [now left|right].
  exists j, g. repeat split; auto; lia.
Qed.

Lemma SobelInv_step x y G maxG mag :
  0 <= x < w -> 0 <= y < h -> (0 <= mag)%Q ->
  SobelInv w h (y * w + x) (G, maxG) ->
  SobelInv w h (y * w + x + 1)
           (aset G (y * w + x) mag, if Qltb maxG mag then mag else maxG).
Proof.
  intros Hx Hy Hmag (Hl & Hall & Hfl & Hmax). simpl in *.
  assert (0 <= y * w + x < Z.of_nat (length G)) as Hidx by nia.
  destruct (Qltb maxG mag) eqn:Hcmp.
  - apply Qltb_lt in Hcmp. split; [|split; [|split]]; simpl.
    + now rewrite length_aset.
    + apply Forall_aset.
      * eapply Forall_impl; [|exact Hall]. intros g [Hg0 Hg]. split; auto.
        apply Qle_trans with maxG; auto. now apply Qlt_le_weak.
      * split; auto. apply Qle_refl.
    + apply Qle_trans with maxG; auto. now apply Qlt_le_weak.
    + right. exists (y * w + x), mag.
      split; [lia|]. split; [now apply aget_aset_same | reflexivity].
  - apply Qltb_ge in Hcmp. split; [|split; [|split]]; simpl; auto.
    + now rewrite length_aset.
    + apply Forall_aset; auto.
    + destruct Hmax as [Hmax | (j & g & Hj & Hg & Hgm)]; [now left|right].
      exists j, g. split; [lia|]. split; [|assumption].
      rewrite aget_aset_other by lia. assumption.
Qed.

Lemma sobelRaw_invariant : exists bound, SobelInv w h bound (sobelRaw Y w h).
Proof.
  assert (forall b, SobelInv w h b (newArray (w * h), gradFloor)) as Hinit.
  { intros b. repeat split; simpl.
    - rewrite length_newArray. nia.
    - apply Forall_newArray. split; [apply Qle_refl | discriminate].
    - apply Qle_refl.
    - left. reflexivity. }
  unfold sobelRaw. destruct (Z.le_gt_cases 1 (h - 1)) as [Hrows|Hrows].
  - exists ((h - 1) * w).
    apply (for_invariant (fun k st => SobelInv w h (k * w) st)); [lia|apply Hinit|].
    intros y [G maxG] Hy Hst.
    destruct (Z.le_gt_cases 1 (w - 1)) as [Hcols|Hcols].
    + apply SobelInv_mono with (y * w + (w - 1)); [lia|].
      apply (for_invariant (fun k st => SobelInv w h (y * w + k) st)); [lia| |].
      * apply SobelInv_mono with (y * w); [lia|assumption].
      * intros x [G' m'] Hx Hst'. cbv zeta.
        replace (y * w + (x + 1)) with (y * w + x + 1) by lia.
        apply SobelInv_step; auto; try lia.
        apply (Qplus_le_compat 0 _ 0); apply Qabs_nonneg.
    + rewrite for_empty by lia. apply SobelInv_mono with (y * w); [nia|assumption].
  - exists 0. rewrite for_empty by lia. apply Hinit.
Qed.

End Sobel.

(** The normalising loop rewrites every entry from its own old value. *)
Lemma map_in_place {A : Type} `{Undef A} (f : A -> A) (a : list A) :
  let out := for_ 0 (Z.of_nat (length a)) (fun j a => aset a j (f a.[j])) a in
  length out = length a /\
  forall j v, aget a j = Some v -> aget out j = Some (f v).
Proof.
  pose (Inv := fun (k : Z) (out : list A) =>
    length out = length a /\
    (forall j v, 0 <= j < k -> aget a j = Some v -> aget out j = Some (f v)) /\
    (forall j, k <= j -> aget out j = aget a j)).
  assert (Inv (Z.of_nat (length a))
            (for_ 0 (Z.of_nat (length a)) (fun j a => aset a j (f a.[j])) a))
    as (Hl & Hlo & _).
  { apply for_invariant; [lia| |].
    - repeat split; auto. intros; lia.
    - intros k out Hk (Hl & Hlo & Hhi). repeat split.
      + now rewrite length_aset.
      + intros j v Hj Hv. destruct (Z.eq_dec j k) as [->|Hne].
        * rewrite aget_aset_same by lia. unfold rd. rewrite Hhi by lia. now rewrite Hv.
        * rewrite aget_aset_other by assumption. apply Hlo; auto. lia.
      + intros j Hj. rewrite aget_aset_other by lia. apply Hhi. lia. }
  split; auto. intros j v Hv. apply Hlo; auto. now apply aget_Some_range in Hv.
Qed.





Lemma sobelGradient_below_floor :
  (nth 4 (fst (sobelRaw darkLuminance 3 3)) 0 == 24 # 32946000)%Q /\
  (nth 4 (sobelGradient darkLuminance 3 3) 0 == 24000000 # 32946000)%Q /\
  (nth 4 (sobelGradient [0; 0; 0; 0; 0; 0; 0; 0; 1 # 10000000]%Q 3 3) 0 == 2 # 10)%Q.
Proof. repeat split. Qed.

(** ** The two classifiers below the gating threshold (C4) *)

Lemma exampleHost_spec : HostSpec exampleHost.
Proof.
  split; intros u; simpl; destruct (Qle_bool 0 u) eqn:Hu.
  - apply Qle_bool_iff in Hu. lra.
  - assert (u < 0)%Q as Hneg by (apply Qltb_lt; unfold Qltb; now rewrite Hu).
    apply Qlt_shift_div_l; lra.
  - apply Qle_bool_iff in Hu. split; lra.
  - assert (u < 0)%Q as Hneg by (apply Qltb_lt; unfold Qltb; now rewrite Hu).
    split; [lra|]. intros _. apply Qle_shift_div_r; lra.
Qed.

Lemma nonneg_div (a b : Q) : (0 < b)%Q -> (0 <= a / b)%Q <-> (0 <= a)%Q.
Proof.
  intros Hb. split.
  - intros Hq. apply Qnot_lt_le. intros Hneg.
    apply (Qlt_not_le _ _ (Qlt_shift_div_r a b 0 Hb ltac:(lra))). exact Hq.
  - intros Ha. apply Qle_shift_div_l; lra.
Qed.

(** C4 (as the code has it).  At a pixel whose gradient does not exceed the
    gating threshold neither classifier applies its edge gate: each gives
    the pixel what it gives it when no gradient field is passed, the hard
    classifier a flag 0 or 1 and the soft one a probability in [0, 1].
    (Their tests differ, [mean * (1 - t)] against [mean - k * std], so the
    two classes need not agree.) *)
Theorem classifiers_below_gate {host : HostMath}
    (Y : list Q) (w h radius : Z) (t k : Q) (grad : list Q) (gThresh : Q) (x y : Z) :
  0 <= x < w -> 0 <= y < h ->
  (grad.[y * w + x] <= gThresh)%Q ->
  (exists m,
     aget (computeLocalBackgroundMask Y w h radius t (Some grad) gThresh) (y * w + x)
       = Some m /\
     aget (computeLocalBackgroundMask Y w h radius t None gThresh) (y * w + x)
       = Some m /\
     (m = 0 \/ m = 1)) /\
  (exists p,
     aget (computeSoftBackgroundProb Y w h radius k (Some grad) gThresh) (y * w + x)
       = Some p /\
     aget (computeSoftBackgroundProb Y w h radius k None gThresh) (y * w + x)
       = Some p /\
     (0 <= p <= 1)%Q).
Proof.
  intros Hx Hy Hgate. apply Qltb_ge in Hgate. split.
  - unfold computeLocalBackgroundMask. cbv zeta.
    destruct (fill2_spec
      (localMaskAt Y (buildIntegralImage Y w h) w h radius t (Some grad) gThresh)
      w h (newArray (w * h))) as [_ Hget]; [lia|lia| |].
    { rewrite length_newArray. nia. }
    destruct (fill2_spec
      (localMaskAt Y (buildIntegralImage Y w h) w h radius t None gThresh)
      w h (newArray (w * h))) as [_ Hget']; [lia|lia| |].
    { rewrite length_newArray. nia. }
    cbv zeta in Hget, Hget'. eexists. split; [now apply Hget|].
    rewrite Hget' by assumption. unfold localMaskAt. cbv zeta. rewrite Hgate.
    split; [reflexivity|]. destruct (Qle_bool _ _); auto.
  - unfold computeSoftBackgroundProb. cbv zeta.
    set (II := buildIntegralImages Y w h).
    destruct (fill2_spec
      (softProbAt Y (fst II) (snd II) w h radius k (Some grad) gThresh)
      w h (newArray (w * h))) as [_ Hget]; [lia|lia| |].
    { rewrite length_newArray. nia. }
    destruct (fill2_spec
      (softProbAt Y (fst II) (snd II) w h radius k None gThresh)
      w h (newArray (w * h))) as [_ Hget']; [lia|lia| |].
    { rewrite length_newArray. nia. }
    cbv zeta in Hget, Hget'. eexists. split; [now apply Hget|].
    rewrite Hget' by assumption. unfold softProbAt. cbv zeta. rewrite Hgate.
    split; [reflexivity|]. split; [apply Q.le_max_l|].
    apply Q.max_lub; [discriminate | apply Q.le_min_l].
Qed.

(** The 3x3 field with 8 at the centre and 94 in the last corner, radius
    1, [t = k = 1/5], at the centre: the window is the whole field, its
    mean is 102/9 and its deviation 264/9.  The hard classifier compares 8
    with 0.8 * 102/9 (about 9.07) and says foreground; the soft one
    compares 8 with 102/9 - 0.2 * 264/9 (about 5.47) and says background.
    With or without the (zero) gradient field. *)
Lemma classifiers_below_gate_witness :
  (exists m,
     aget (computeLocalBackgroundMask [0; 0; 0; 0; 8; 0; 0; 0; 94]%Q 3 3 1 (1 # 5)
             (Some [0; 0; 0; 0; 0; 0; 0; 0; 0]%Q) (1 # 5)) (1 * 3 + 1) = Some m /\
     aget (computeLocalBackgroundMask [0; 0; 0; 0; 8; 0; 0; 0; 94]%Q 3 3 1 (1 # 5)
             None (1 # 5)) (1 * 3 + 1) = Some m /\
     (m = 0 \/ m = 1)) /\
  (exists p,
     aget (computeSoftBackgroundProb (host := exampleHost)
             [0; 0; 0; 0; 8; 0; 0; 0; 94]%Q 3 3 1 (1 # 5)
             (Some [0; 0; 0; 0; 0; 0; 0; 0; 0]%Q) (1 # 5)) (1 * 3 + 1) = Some p /\
     aget (computeSoftBackgroundProb (host := exampleHost)
             [0; 0; 0; 0; 8; 0; 0; 0; 94]%Q 3 3 1 (1 # 5)
             None (1 # 5)) (1 * 3 + 1) = Some p /\
     (0 <= p <= 1)%Q).
Proof.
  apply (classifiers_below_gate (host := exampleHost)
           [0; 0; 0; 0; 8; 0; 0; 0; 94]%Q 3 3 1 (1 # 5) (1 # 5)
           [0; 0; 0; 0; 0; 0; 0; 0; 0]%Q (1 # 5) 1 1); try lia.
  vm_compute. discriminate.
Defined.

(** The claim as stated: below the gating threshold the hard class is
    background exactly when the soft probability is at least 1/2.  It fails
    on the witness's input, where the window is not clipped and the first
    row and column of the field are zero: the hard class is 0 and the soft
    probability is above 1/2. *)
Lemma classifiers_below_gate_counterexample :
  ~ (forall (host : HostMath), HostSpec host ->
     forall (Y : list Q) (w h radius : Z) (t k : Q) (grad : list Q) (gThresh : Q)
            (x y : Z) (m : Z) (p : Q),
       0 <= x < w -> 0 <= y < h ->
       (grad.[y * w + x] <= gThresh)%Q ->
       aget (computeLocalBackgroundMask Y w h radius t (Some grad) gThresh) (y * w + x)
         = Some m ->
       aget (computeSoftBackgroundProb Y w h radius k (Some grad) gThresh) (y * w + x)
         = Some p ->
       (m = 1 <-> ((1 # 2) <= p)%Q)).
Proof.
  intros Hclaim.
  pose (soft := computeSoftBackgroundProb (host := exampleHost)
                  [0; 0; 0; 0; 8; 0; 0; 0; 94]%Q 3 3 1 (1 # 5)
                  (Some [0; 0; 0; 0; 0; 0; 0; 0; 0]%Q) (1 # 5)).
  assert (0 = 1 <-> ((1 # 2) <= soft.[4])%Q) as [_ Hfrom].
  { apply (Hclaim exampleHost exampleHost_spec
      [0; 0; 0; 0; 8; 0; 0; 0; 94]%Q 3 3 1 (1 # 5) (1 # 5)
      [0; 0; 0; 0; 0; 0; 0; 0; 0]%Q (1 # 5) 1 1 0 soft.[4]); try lia.
    - vm_compute. discriminate.
    - reflexivity.
    - reflexivity. }
  assert (0 = 1) as Habs by (apply Hfrom; vm_compute; discriminate).
  discriminate Habs.
Qed.

(** The values behind the counterexample: the hard flag, the mean and the
    deviation of the window, and the soft probability on the example host. *)
Lemma classifiers_disagree_at_centre :
  let Y := [0; 0; 0; 0; 8; 0; 0; 0; 94]%Q in
  let II := buildIntegralImages Y 3 3 in
  let s := boxStats (host := exampleHost) (fst II) (snd II) 3 3 1 1 1 in
  aget (computeLocalBackgroundMask Y 3 3 1 (1 # 5) None (1 # 5)) 4 = Some 0 /\
  (mean s == 102 # 9)%Q /\ (29333333 # 1000000 <= std s <= 264 # 9)%Q /\
  ((1 # 2) < (computeSoftBackgroundProb (host := exampleHost) Y 3 3 1 (1 # 5) None (1 # 5)).[4])%Q.
Proof.
  cbv zeta. split; [reflexivity|]. split; [reflexivity|].
  split; [split; vm_compute; discriminate|]. vm_compute. reflexivity.
Qed.

(* ================================================================== *)
(** * Part III: further properties of the code *)
(* ================================================================== *)

(** ** More on arrays and loops *)

Lemma rd_in_range {A : Type} `{Undef A} (a : list A) i :
  0 <= i < Z.of_nat (length a) -> aget a i = Some a.[i].
Proof.
  intros Hi. unfold rd. destruct (aget_in_range a i Hi) as [v ->]. reflexivity.
Qed.

Lemma aget_ext {A : Type} (a b : list A) :
  (forall i, aget a i = aget b i) -> a = b.
Proof.
  intros Hab. apply nth_error_ext. intros n.
  specialize (Hab (Z.of_nat n)). unfold aget in Hab.
  destruct (Z.ltb_spec (Z.of_nat n) 0); [lia|]. now rewrite Nat2Z.id in Hab.
Qed.

Lemma aget_map {A B : Type} (f : A -> B) (a : list A) i :
  aget (map f a) i = option_map f (aget a i).
Proof.
  unfold aget. destruct (i <? 0); [reflexivity|]. apply nth_error_map.
Qed.

(** Two loops whose bodies keep a relation between their states. *)
Lemma for_related {St St' : Type} (R : St -> St' -> Prop) lo hi
    (body : Z -> St -> St) (body' : Z -> St' -> St') s t :
  R s t ->
  (forall i s t, lo <= i < hi -> R s t -> R (body i s) (body' i t)) ->
  R (for_ lo hi body s) (for_ lo hi body' t).
Proof.
  intros H0 Hstep. destruct (Z.le_gt_cases lo hi) as [Hle|Hgt].
  - replace hi with (lo + Z.of_nat (Z.to_nat (hi - lo))) by lia.
    assert (Z.of_nat (Z.to_nat (hi - lo)) <= hi - lo) as Hb by lia.
    revert Hb. generalize (Z.to_nat (hi - lo)) as n.
    induction n as [|n IH]; intros Hb.
    + now rewrite !for_empty by lia.
    + replace (lo + Z.of_nat (S n)) with (lo + Z.of_nat n + 1) by lia.
      rewrite !for_snoc by lia. apply Hstep; [lia|]. apply IH. lia.
  - now rewrite !for_empty by lia.
Qed.

(** A stepped loop is a loop over the number of its iterations. *)
Lemma forStep_for {St : Type} lo hi st (body : Z -> St -> St) s :
  forStep lo hi st body s =
  for_ 0 ((hi - lo + st - 1) / st) (fun k s => body (lo + st * k) s) s.
Proof.
  unfold forStep, for_, ZrangeStep, Zrange. rewrite Z.sub_0_r.
  generalize (Z.to_nat ((hi - lo + st - 1) / st)) as n. intros n.
  generalize 0%nat as m. revert s.
  induction n as [|n IH]; intros s m; simpl; auto.
Qed.

(** ** The integral tables (X1, X2, X3) *)

(** X1.  The integral table of a field holds, at every pixel, the sum of
    the field over the rectangle from the origin to that pixel, both
    included; it has one entry per pixel. *)
Theorem buildIntegralImage_prefix_sums (Y : list Q) (w h x y : Z) :
  0 <= x < w -> 0 <= y < h ->
  Z.of_nat (length (buildIntegralImage Y w h)) = w * h /\
  ((buildIntegralImage Y w h).[y * w + x] == rectSum Y w 0 x 0 y)%Q.
Proof.
  intros Hx Hy. destruct (buildIntegralImage_spec Y w h) as [Hl HT]; [lia|lia|].
  split; [assumption|]. rewrite HT by assumption.
  rewrite rectSum_Qsum. reflexivity.
Qed.

Lemma buildIntegralImage_prefix_sums_witness :
  Z.of_nat (length (buildIntegralImage [1; 2; 3; 4; 5; 6]%Q 3 2)) = 3 * 2 /\
  ((buildIntegralImage [1; 2; 3; 4; 5; 6]%Q 3 2).[1 * 3 + 1]
   == rectSum [1; 2; 3; 4; 5; 6]%Q 3 0 1 0 1)%Q.
Proof.
  apply (buildIntegralImage_prefix_sums [1; 2; 3; 4; 5; 6]%Q 3 2 1 1); lia.
Defined.

Lemma rd_map_square (Y : list Q) i :
  (map (fun v => v * v)%Q Y).[i] = (Y.[i] * Y.[i])%Q.
Proof.
  unfold rd. rewrite aget_map. now destruct (aget Y i).
Qed.

Lemma for_pair {A B : Type} lo hi (f : Z -> A -> A) (g : Z -> B -> B) a b :
  for_ lo hi (fun i s => (f i (fst s), g i (snd s))) (a, b) =
  (for_ lo hi f a, for_ lo hi g b).
Proof.
  assert (fst (for_ lo hi (fun i s => (f i (fst s), g i (snd s))) (a, b)) = for_ lo hi f a) as H1.
  { apply (for_related (fun (s : A * B) (t : A) => fst s = t)); [reflexivity|].
    intros i s t _ <-. reflexivity. }
  assert (snd (for_ lo hi (fun i s => (f i (fst s), g i (snd s))) (a, b)) = for_ lo hi g b) as H2.
  { apply (for_related (fun (s : A * B) (t : B) => snd s = t)); [reflexivity|].
    intros i s t _ <-. reflexivity. }
  rewrite <- H1, <- H2. apply surjective_pairing.
Qed.

(** X2.  [buildIntegralImages] builds, in one pass, the integral table of
    the field and the integral table of its squares. *)
Theorem buildIntegralImages_both (Y : list Q) (w h : Z) :
  buildIntegralImages Y w h =
  (buildIntegralImage Y w h, buildIntegralImage (map (fun v => v * v)%Q Y) w h).
Proof.
  unfold buildIntegralImages, buildIntegralImage.
  rewrite <- for_pair. apply for_ext. intros y [T T2] _. cbn [fst snd].
  set (f := fun (x : Z) '(rowSum, I_) =>
    let idx := y * w + x in
    let rowSum := (rowSum + Y.[idx])%Q in
    (rowSum, aset I_ idx (rowSum + (if 0 <? y then I_.[(y - 1) * w + x] else 0))%Q)).
  set (g := fun (x : Z) '(rowSum, I_) =>
    let idx := y * w + x in
    let rowSum := (rowSum + (map (fun v => v * v)%Q Y).[idx])%Q in
    (rowSum, aset I_ idx (rowSum + (if 0 <? y then I_.[(y - 1) * w + x] else 0))%Q)).
  pose (R := fun (s : Q * Q * (list Q * list Q)) (t : (Q * list Q) * (Q * list Q)) =>
    s = (fst (fst t), fst (snd t), (snd (fst t), snd (snd t)))).
  match goal with |- snd (for_ 0 w ?body ?s0) = _ =>
    assert (R (for_ 0 w body s0)
              (for_ 0 w (fun x s => (f x (fst s), g x (snd s))) ((0%Q, T), (0%Q, T2))))
      as Hrel
  end.
  { apply for_related; [reflexivity|].
    intros x s [[r1 T1] [r2 T2']] _ ->. unfold R, f, g. cbn [fst snd].
    rewrite rd_map_square. reflexivity. }
  unfold R in Hrel. rewrite Hrel, for_pair. reflexivity.
Qed.

Lemma buildIntegralImages_fst (Y : list Q) (w h : Z) :
  fst (buildIntegralImages Y w h) = buildIntegralImage Y w h.
Proof.
  unfold buildIntegralImages, buildIntegralImage.
  apply (for_related (fun (s : list Q * list Q) (t : list Q) => fst s = t));
    [reflexivity|].
  intros y [T T2] t _ <-. cbn [fst].
  pose (R := fun (s : Q * Q * (list Q * list Q)) (t : Q * list Q) =>
    (fst (fst s), fst (snd s)) = t).
  match goal with |- fst (snd (for_ 0 w ?body ?s0)) = snd (for_ 0 w ?body' ?t0) =>
    assert (R (for_ 0 w body s0) (for_ 0 w body' t0)) as Hrel
  end.
  { apply (for_related R); [reflexivity|].
    intros x [[r1 r2] [T1 T2']] t' _ <-. reflexivity. }
  unfold R in Hrel. rewrite <- Hrel. reflexivity.
Qed.

(** X3.  The mean that [boxStats] reads off the two integral tables is the
    sum of the clipped window without its first row and first column,
    divided by the number of pixels of the whole clipped window. *)
Theorem boxStats_mean {host : HostMath} (Y : list Q) (w h x y r : Z) :
  0 <= x < w -> 0 <= y < h -> 0 <= r ->
  let x0 := Z.max 0 (x - r) in
  let y0 := Z.max 0 (y - r) in
  let x1 := Z.min (w - 1) (x + r) in
  let y1 := Z.min (h - 1) (y + r) in
  let area := (x1 - x0 + 1) * (y1 - y0 + 1) in
  let II := buildIntegralImages Y w h in
  1 <= area /\
  (mean (boxStats (fst II) (snd II) w h x y r) ==
   rectSum Y w (x0 + 1) x1 (y0 + 1) y1 / inject_Z area)%Q.
Proof.
  intros Hx Hy Hr x0 y0 x1 y1 area II.
  assert (1 <= area) as Harea by (subst area x0 y0 x1 y1; nia).
  split; [assumption|].
  subst II. rewrite buildIntegralImages_fst.
  destruct (buildIntegralImage_spec Y w h) as [_ HT]; [lia|lia|].
  unfold boxStats. fold x0 y0 x1 y1. cbv zeta. cbn [mean]. fold area.
  rewrite (Z.max_r 1 area) by assumption.
  rewrite !HT by (subst x0 y0 x1 y1; lia).
  rewrite prefixSum_inclusion_exclusion by (subst x0 y0 x1 y1; lia).
  reflexivity.
Qed.

Lemma boxStats_mean_witness :
  let II := buildIntegralImages [1; 2; 3; 4]%Q 2 2 in
  1 <= (Z.min (2 - 1) (1 + 1) - Z.max 0 (1 - 1) + 1) *
       (Z.min (2 - 1) (1 + 1) - Z.max 0 (1 - 1) + 1) /\
  (mean (boxStats (host := exampleHost) (fst II) (snd II) 2 2 1 1 1) ==
   rectSum [1; 2; 3; 4]%Q 2 (Z.max 0 (1 - 1) + 1) (Z.min (2 - 1) (1 + 1))
           (Z.max 0 (1 - 1) + 1) (Z.min (2 - 1) (1 + 1)) /
   inject_Z ((Z.min (2 - 1) (1 + 1) - Z.max 0 (1 - 1) + 1) *
             (Z.min (2 - 1) (1 + 1) - Z.max 0 (1 - 1) + 1)))%Q.
Proof.
  apply (boxStats_mean (host := exampleHost) [1; 2; 3; 4]%Q 2 2 1 1 1); lia.
Defined.

(** ** Luminance and gradient fields (X4, X5) *)

Lemma aget_newArray {A : Type} `{Undef A} n j :
  0 <= j < n -> aget (newArray (A := A) n) j = Some undef.
Proof.
  intros Hj. unfold aget, newArray. destruct (Z.ltb_spec j 0); [lia|].
  apply nth_error_repeat. lia.
Qed.

Lemma index_unique w x y x' y' :
  0 <= x < w -> 0 <= x' < w -> y * w + x = y' * w + x' -> x = x' /\ y = y'.
Proof.
  intros Hx Hx' Heq. assert (y = y') by nia. subst. lia.
Qed.

(** The first loop nest of [sobelGradient] writes interior pixels only. *)
Lemma sobelRaw_border (Y : list Q) (w h : Z) j :
  0 <= j < w * h ->
  aget (fst (sobelRaw Y w h)) j = Some 0%Q \/
  exists x y, 1 <= x < w - 1 /\ 1 <= y < h - 1 /\ j = y * w + x.
Proof.
  intros Hj. unfold sobelRaw.
  apply (for_preserves (fun st : list Q * Q =>
    aget (fst st) j = Some 0%Q \/
    exists x y, 1 <= x < w - 1 /\ 1 <= y < h - 1 /\ j = y * w + x)).
  - left. simpl. now apply aget_newArray.
  - intros y st Hy Hst. apply for_preserves; [assumption|].
    intros x [G maxG] Hx [Hz|Hint]; [|now right]. cbv zeta. cbn [fst].
    destruct (Z.eq_dec j (y * w + x)) as [->|Hne].
    + right. exists x, y. auto.
    + left. now rewrite aget_aset_other.
Qed.

(** X4.  The gradient field has one entry per pixel, and it is 0 on the
    one-pixel border of the image (so everywhere, when the image is less
    than three pixels wide or high). *)
Theorem sobelGradient_border_zero (Y : list Q) (w h : Z) :
  0 <= w -> 0 <= h ->
  Z.of_nat (length (sobelGradient Y w h)) = w * h /\
  forall x y, 0 <= x < w -> 0 <= y < h ->
    x = 0 \/ x = w - 1 \/ y = 0 \/ y = h - 1 ->
    ((sobelGradient Y w h).[y * w + x] == 0)%Q.
Proof.
  intros Hw Hh.
  destruct (sobelRaw_invariant Y w h Hw Hh) as (bound & Hl & _).
  pose proof (sobelRaw_border Y w h) as Hborder.
  unfold sobelGradient. destruct (sobelRaw Y w h) as [raw maxG]. cbn [fst] in *.
  cbv zeta.
  destruct (map_in_place (fun g => Qmin 1 (g * (1 / maxG))) raw) as [Hlen Hget].
  cbv zeta in Hlen, Hget. split; [now rewrite Hlen|].
  intros x y Hx Hy Hedge.
  destruct (Hborder (y * w + x)) as [Hz|(x' & y' & Hx' & Hy' & Heq)]; [nia| |].
  - unfold rd at 1. rewrite (Hget _ _ Hz).
    rewrite Q.min_r by (rewrite Qmult_0_l; discriminate). apply Qmult_0_l.
  - apply index_unique in Heq as [-> ->]; lia.
Qed.

Lemma sobelGradient_border_zero_witness :
  ((sobelGradient [1; 2; 3; 4; 5; 6; 7; 8; 10]%Q 3 3).[2 * 3 + 1] == 0)%Q.
Proof.
  destruct (sobelGradient_border_zero [1; 2; 3; 4; 5; 6; 7; 8; 10]%Q 3 3)
    as [_ Hz]; [lia|lia|].
  apply (Hz 1 2); lia.
Defined.

(** X5.  [computeLuminance] returns one value per pixel; for a pixel whose
    three colour samples are bytes the value lies in 0..255, and for a grey
    pixel (three equal bytes) it is that byte. *)
Theorem computeLuminance_pixel (data : list Z) (w h x y : Z) :
  0 <= x < w -> 0 <= y < h ->
  isByte data.[(y * w + x) * 4] -> isByte data.[(y * w + x) * 4 + 1] ->
  isByte data.[(y * w + x) * 4 + 2] ->
  let i := (y * w + x) * 4 in
  let Y := computeLuminance data w h in
  Z.of_nat (length Y) = w * h /\
  (exists v, aget Y (y * w + x) = Some v /\ (0 <= v <= 255)%Q) /\
  (data.[i + 1] = data.[i] -> data.[i + 2] = data.[i] ->
   (Y.[y * w + x] == inject_Z data.[i])%Q).
Proof.
  intros Hx Hy Hr Hg Hb i Y. unfold isByte in Hr, Hg, Hb. fold i in Hr, Hg, Hb.
  destruct (fill2_spec
    (fun x y => (0.299 * inject_Z data.[(y * w + x) * 4]
                 + 0.587 * inject_Z data.[(y * w + x) * 4 + 1]
                 + 0.114 * inject_Z data.[(y * w + x) * 4 + 2])%Q)
    w h (newArray (w * h))) as [Hlen Hget]; [lia|lia| |].
  { rewrite length_newArray. nia. }
  cbv zeta in Hlen, Hget. fold (computeLuminance data w h) in Hlen, Hget. fold Y in Hlen, Hget.
  split; [|split].
  - rewrite Hlen, length_newArray. nia.
  - eexists. split; [apply (Hget x y Hx Hy)|]. fold i.
    assert (0 <= inject_Z data.[i] <= 255)%Q as Hr'
      by (rewrite !Zle_Qle in Hr; exact Hr).
    assert (0 <= inject_Z data.[i + 1] <= 255)%Q as Hg'
      by (rewrite !Zle_Qle in Hg; exact Hg).
    assert (0 <= inject_Z data.[i + 2] <= 255)%Q as Hb'
      by (rewrite !Zle_Qle in Hb; exact Hb).
    lra.
  - intros Eg Eb. unfold rd at 1. rewrite (Hget x y Hx Hy). fold i.
    rewrite Eg, Eb. ring.
Qed.

Lemma computeLuminance_pixel_witness :
  (exists v,
     aget (computeLuminance [255; 255; 255; 255; 10; 20; 30; 255] 2 1) (0 * 2 + 1) = Some v /\
     (0 <= v <= 255)%Q) /\
  (let Y := computeLuminance [255; 255; 255; 255; 90; 90; 90; 255] 2 1 in
   (Y.[(0 * 2 + 1)%Z] == inject_Z 90)%Q).
Proof.
  split.
  - destruct (computeLuminance_pixel [255; 255; 255; 255; 10; 20; 30; 255] 2 1 1 0)
      as (_ & Hrange & _);
      [lia|lia|vm_compute; split; discriminate|vm_compute; split; discriminate
      |vm_compute; split; discriminate|].
    exact Hrange.
  - destruct (computeLuminance_pixel [255; 255; 255; 255; 90; 90; 90; 255] 2 1 1 0)
      as (_ & _ & Hgrey);
      [lia|lia|vm_compute; split; discriminate|vm_compute; split; discriminate
      |vm_compute; split; discriminate|].
    apply Hgrey; reflexivity.
Defined.

(** ** The two classifiers (X6, X7, X8) *)

(** X6.  The hard mask has one entry per pixel, every entry is 0 or 1, and
    a pixel whose gradient exceeds the gating threshold is never marked as
    background. *)
Theorem computeLocalBackgroundMask_binary (Y : list Q) (w h radius : Z) (t : Q)
    (grad : option (list Q)) (gThresh : Q) :
  0 <= w -> 0 <= h ->
  let mask := computeLocalBackgroundMask Y w h radius t grad gThresh in
  Z.of_nat (length mask) = w * h /\
  Forall (fun m => m = 0 \/ m = 1) mask /\
  forall g x y, grad = Some g -> 0 <= x < w -> 0 <= y < h ->
    (gThresh < g.[y * w + x])%Q -> aget mask (y * w + x) = Some 0.
Proof.
  intros Hw Hh mask.
  destruct (fill2_spec
    (localMaskAt Y (buildIntegralImage Y w h) w h radius t grad gThresh)
    w h (newArray (w * h))) as [Hlen Hget]; [lia|lia| |].
  { rewrite length_newArray. nia. }
  cbv zeta in Hlen, Hget.
  fold (computeLocalBackgroundMask Y w h radius t grad gThresh) in Hlen, Hget.
  fold mask in Hlen, Hget.
  split; [|split].
  - rewrite Hlen, length_newArray. nia.
  - subst mask. unfold computeLocalBackgroundMask. cbv zeta.
    apply for_preserves; [apply Forall_newArray; now left|].
    intros y bg _ Hbg. apply for_preserves; [assumption|].
    intros x bg' _ Hbg'. apply Forall_aset; [assumption|].
    unfold localMaskAt. cbv zeta.
    destruct (match grad with Some g => _ | None => _ end); [now left|].
    destruct (Qle_bool _ _); auto.
  - intros g x y -> Hx Hy Hg. rewrite (Hget x y Hx Hy). f_equal.
    unfold localMaskAt. cbv zeta. apply Qltb_lt in Hg. now rewrite Hg.
Qed.

Lemma computeLocalBackgroundMask_binary_witness :
  aget (computeLocalBackgroundMask [1; 2]%Q 2 1 1 0 (Some [0; 1]%Q) (1 # 5)) (0 * 2 + 1)
  = Some 0.
Proof.
  destruct (computeLocalBackgroundMask_binary [1; 2]%Q 2 1 1 0 (Some [0; 1]%Q) (1 # 5))
    as (_ & _ & Hgate); [lia|lia|].
  apply (Hgate [0; 1]%Q 1 0); [reflexivity|lia|lia|reflexivity].
Defined.

Lemma clamp01_range (p : Q) : (0 <= Qmax 0 (Qmin 1 p) <= 1)%Q.
Proof.
  split; [apply Q.le_max_l|].
  apply Q.max_lub; [discriminate | apply Q.le_min_l].
Qed.

(** X7.  The soft map has one entry per pixel and every probability lies
    in [0, 1], whatever the host's [exp] and [sqrt] return. *)
Theorem computeSoftBackgroundProb_range {host : HostMath} (Y : list Q) (w h radius : Z)
    (k : Q) (grad : option (list Q)) (gThresh : Q) :
  0 <= w -> 0 <= h ->
  let P := computeSoftBackgroundProb Y w h radius k grad gThresh in
  Z.of_nat (length P) = w * h /\ Forall (fun p => 0 <= p <= 1)%Q P.
Proof.
  intros Hw Hh P. split.
  - set (II := buildIntegralImages Y w h).
    destruct (fill2_spec
      (softProbAt Y (fst II) (snd II) w h radius k grad gThresh)
      w h (newArray (w * h))) as [Hlen _]; [lia|lia| |].
    { rewrite length_newArray. nia. }
    cbv zeta in Hlen. subst P. unfold computeSoftBackgroundProb. cbv zeta. fold II.
    rewrite Hlen, length_newArray. nia.
  - subst P. unfold computeSoftBackgroundProb. cbv zeta.
    apply for_preserves.
    { apply Forall_newArray. split; [apply Qle_refl|discriminate]. }
    intros y bg _ Hbg. apply for_preserves; [assumption|].
    intros x bg' _ Hbg'. apply Forall_aset; [assumption|].
    unfold softProbAt. cbv zeta. apply clamp01_range.
Qed.

Lemma computeSoftBackgroundProb_range_witness :
  Z.of_nat (length (computeSoftBackgroundProb (host := exampleHost)
                      [1; 2]%Q 2 1 1 (1 # 5) None (1 # 5))) = 2 * 1.
Proof.
  destruct (computeSoftBackgroundProb_range (host := exampleHost)
              [1; 2]%Q 2 1 1 (1 # 5) None (1 # 5)) as [Hlen _]; [lia|lia|].
  exact Hlen.
Defined.

Lemma softProbAt_gate_le {host : HostMath} (Hspec : HostSpec host)
    Y I1 I2 w h radius k g gThresh x y :
  (softProbAt Y I1 I2 w h radius k (Some g) gThresh x y <=
   softProbAt Y I1 I2 w h radius k None gThresh x y)%Q.
Proof.
  unfold softProbAt. cbv zeta.
  set (z := (- ((Y.[y * w + x] - _) / _))%Q).
  pose proof (exp_pos host Hspec z) as He.
  assert (0 <= 1 / (1 + Math_exp z))%Q as Hp by (apply nonneg_div; lra).
  set (p := (1 / (1 + Math_exp z))%Q) in *.
  apply Q.max_le_compat_l, Q.min_le_compat_l.
  destruct (Qltb gThresh g.[y * w + x]) eqn:Hg; [|apply Qle_refl].
  apply Qltb_lt in Hg.
  set (den := Qmax (1 # 1000000) (1 - gThresh)).
  assert (0 < den)%Q as Hden
    by (apply Qlt_le_trans with (1 # 1000000)%Q; [reflexivity|apply Q.le_max_l]).
  assert (0 <= (g.[y * w + x] - gThresh) / den)%Q as Hq by (apply nonneg_div; lra).
  assert (0 <= Qmin 1 ((g.[y * w + x] - gThresh) / den))%Q as Hgate
    by (apply Q.min_glb; [discriminate|assumption]).
  set (gate := Qmin 1 ((g.[y * w + x] - gThresh) / den)) in *.
  assert (0 <= p * gate)%Q by (apply Qmult_le_0_compat; assumption).
  setoid_replace (p * (1 - 0.75 * gate))%Q with (p - 0.75 * (p * gate))%Q by ring.
  lra.
Qed.

(** X8.  Edge gating never raises the background probability of a pixel:
    with a gradient field the soft map is pointwise at most the soft map
    computed without one. *)
Theorem computeSoftBackgroundProb_gating_lowers {host : HostMath} (Hspec : HostSpec host)
    (Y : list Q) (w h radius : Z) (k : Q) (g : list Q) (gThresh : Q) (x y : Z) :
  0 <= x < w -> 0 <= y < h ->
  ((computeSoftBackgroundProb Y w h radius k (Some g) gThresh).[y * w + x] <=
   (computeSoftBackgroundProb Y w h radius k None gThresh).[y * w + x])%Q.
Proof.
  intros Hx Hy. set (II := buildIntegralImages Y w h).
  destruct (fill2_spec
    (softProbAt Y (fst II) (snd II) w h radius k (Some g) gThresh)
    w h (newArray (w * h))) as [_ Hget]; [lia|lia| |].
  { rewrite length_newArray. nia. }
  destruct (fill2_spec
    (softProbAt Y (fst II) (snd II) w h radius k None gThresh)
    w h (newArray (w * h))) as [_ Hget']; [lia|lia| |].
  { rewrite length_newArray. nia. }
  cbv zeta in Hget, Hget'. unfold computeSoftBackgroundProb. cbv zeta. fold II.
  unfold rd. rewrite (Hget x y Hx Hy), (Hget' x y Hx Hy).
  now apply softProbAt_gate_le.
Qed.

Lemma computeSoftBackgroundProb_gating_lowers_witness :
  ((computeSoftBackgroundProb (host := exampleHost)
      [1; 2]%Q 2 1 1 (1 # 5) (Some [0; 1]%Q) (1 # 5)).[0 * 2 + 1] <=
   (computeSoftBackgroundProb (host := exampleHost)
      [1; 2]%Q 2 1 1 (1 # 5) None (1 # 5)).[0 * 2 + 1])%Q.
Proof.
  apply (computeSoftBackgroundProb_gating_lowers exampleHost_spec); lia.
Defined.

(** ** Erosion and dilation of masks (X9, X10, X11, X12) *)

Lemma neighbours_self w h x y :
  0 <= x < w -> 0 <= y < h -> In (y * w + x) (neighbours w h x y).
Proof.
  intros Hx Hy. unfold neighbours. cbn [flat_map map app]. do 4 right. left.
  rewrite !Z.add_0_r, !Z.max_r, !Z.min_r by lia. reflexivity.
Qed.

Lemma neighbours_in_range w h x y n :
  0 < w -> 0 < h -> In n (neighbours w h x y) -> 0 <= n < w * h.
Proof.
  intros Hw Hh Hn.
  assert (forall nx ny, 0 <= nx < w -> 0 <= ny < h -> 0 <= ny * w + nx < w * h)
    as Hin by (intros; nia).
  unfold neighbours in Hn. cbn [flat_map map app] in Hn.
  repeat (destruct Hn as [<-|Hn]; [apply Hin; lia|]). contradiction.
Qed.

Section MaskPass.
Variables (mask : list Z) (w h : Z) (edgeMask : option (list Z)).
Hypothesis Hw : 0 <= w.
Hypothesis Hh : 0 <= h.
Hypothesis Hlen : Z.of_nat (length mask) = w * h.

Lemma gated_fill_at (V : Z -> Z -> Z) :
  let out :=
    for_ 0 h (fun y out =>
      for_ 0 w (fun x out =>
        let i := y * w + x in
        if gatedByEdge edgeMask i then aset out i mask.[i]
        else aset out i (V x y)) out)
      (newArray (Z.of_nat (length mask))) in
  length out = length mask /\
  forall x y, 0 <= x < w -> 0 <= y < h ->
    aget out (y * w + x) =
    Some (if gatedByEdge edgeMask (y * w + x) then mask.[y * w + x] else V x y).
Proof.
  destruct (fill2_body_spec
    (fun x y out =>
      let i := y * w + x in
      if gatedByEdge edgeMask i then aset out i mask.[i] else aset out i (V x y))
    (fun x y => if gatedByEdge edgeMask (y * w + x) then mask.[y * w + x] else V x y)
    w h (newArray (Z.of_nat (length mask)))) as [Hl Hget]; auto.
  - intros x y out. cbv beta zeta. now destruct (gatedByEdge _ _).
  - rewrite length_newArray. lia.
  - cbv zeta in *. split; [|exact Hget].
    rewrite Hl, length_newArray. lia.
Qed.

Lemma erodeMask_at x y :
  0 <= x < w -> 0 <= y < h ->
  aget (erodeMask mask w h edgeMask) (y * w + x) =
  Some (if gatedByEdge edgeMask (y * w + x) then mask.[y * w + x]
        else if existsb (fun n => match aget mask n with Some 0 => true | _ => false end)
                        (neighbours w h x y) then 0 else 1).
Proof.
  exact (proj2 (gated_fill_at (fun x y =>
    if existsb (fun n => match aget mask n with Some 0 => true | _ => false end)
               (neighbours w h x y) then 0 else 1)) x y).
Qed.

Lemma dilateMask_at x y :
  0 <= x < w -> 0 <= y < h ->
  aget (dilateMask mask w h edgeMask) (y * w + x) =
  Some (if gatedByEdge edgeMask (y * w + x) then mask.[y * w + x]
        else if existsb (fun n => match aget mask n with Some 1 => true | _ => false end)
                        (neighbours w h x y) then 1 else 0).
Proof.
  exact (proj2 (gated_fill_at (fun x y =>
    if existsb (fun n => match aget mask n with Some 1 => true | _ => false end)
               (neighbours w h x y) then 1 else 0)) x y).
Qed.

Lemma length_erodeMask_any : length (erodeMask mask w h edgeMask) = length mask.
Proof.
  exact (proj1 (gated_fill_at (fun x y =>
    if existsb (fun n => match aget mask n with Some 0 => true | _ => false end)
               (neighbours w h x y) then 0 else 1))).
Qed.

Lemma length_dilateMask_any : length (dilateMask mask w h edgeMask) = length mask.
Proof.
  exact (proj1 (gated_fill_at (fun x y =>
    if existsb (fun n => match aget mask n with Some 1 => true | _ => false end)
               (neighbours w h x y) then 1 else 0))).
Qed.

End MaskPass.

(** X9.  Erosion keeps the size of the mask and never turns a 0 into
    anything else; away from gated pixels its output is 0 or 1. *)
Theorem erodeMask_shrinks (mask : list Z) (w h : Z) (edgeMask : option (list Z)) :
  0 <= w -> 0 <= h -> Z.of_nat (length mask) = w * h ->
  let out := erodeMask mask w h edgeMask in
  length out = length mask /\
  forall x y, 0 <= x < w -> 0 <= y < h ->
    (aget mask (y * w + x) = Some 0 -> aget out (y * w + x) = Some 0) /\
    (gatedByEdge edgeMask (y * w + x) = false ->
     aget out (y * w + x) = Some 0 \/ aget out (y * w + x) = Some 1).
Proof.
  intros Hw Hh Hlen out. split; [now apply length_erodeMask_any|].
  intros x y Hx Hy. subst out. rewrite erodeMask_at by assumption. split.
  - intros Hz. f_equal. destruct (gatedByEdge _ _).
    + unfold rd. now rewrite Hz.
    + replace (existsb _ _) with true; [reflexivity|]. symmetry.
      apply existsb_exists. exists (y * w + x). split.
      * now apply neighbours_self.
      * now rewrite Hz.
  - intros ->. destruct (existsb _ _); auto.
Qed.

Lemma erodeMask_shrinks_witness :
  aget (erodeMask [1; 0; 1; 1] 2 2 None) (0 * 2 + 1) = Some 0.
Proof.
  destruct (erodeMask_shrinks [1; 0; 1; 1] 2 2 None) as [_ Hout];
    [lia|lia|reflexivity|].
  apply (Hout 1 0); [lia|lia|reflexivity].
Defined.

(** X10.  Dilation keeps the size of the mask and never turns a 1 into
    anything else; away from gated pixels its output is 0 or 1. *)
Theorem dilateMask_grows (mask : list Z) (w h : Z) (edgeMask : option (list Z)) :
  0 <= w -> 0 <= h -> Z.of_nat (length mask) = w * h ->
  let out := dilateMask mask w h edgeMask in
  length out = length mask /\
  forall x y, 0 <= x < w -> 0 <= y < h ->
    (aget mask (y * w + x) = Some 1 -> aget out (y * w + x) = Some 1) /\
    (gatedByEdge edgeMask (y * w + x) = false ->
     aget out (y * w + x) = Some 0 \/ aget out (y * w + x) = Some 1).
Proof.
  intros Hw Hh Hlen out. split; [now apply length_dilateMask_any|].
  intros x y Hx Hy. subst out. rewrite dilateMask_at by assumption. split.
  - intros Hz. f_equal. destruct (gatedByEdge _ _).
    + unfold rd. now rewrite Hz.
    + replace (existsb _ _) with true; [reflexivity|]. symmetry.
      apply existsb_exists. exists (y * w + x). split.
      * now apply neighbours_self.
      * now rewrite Hz.
  - intros ->. destruct (existsb _ _); auto.
Qed.

Lemma dilateMask_grows_witness :
  aget (dilateMask [0; 1; 0; 0] 2 2 None) (0 * 2 + 1) = Some 1.
Proof.
  destruct (dilateMask_grows [0; 1; 0; 0] 2 2 None) as [_ Hout];
    [lia|lia|reflexivity|].
  apply (Hout 1 0); [lia|lia|reflexivity].
Defined.

Lemma existsb_ext_in {A : Type} (f g : A -> bool) (l : list A) :
  (forall a, In a l -> f a = g a) -> existsb f l = existsb g l.
Proof.
  induction l as [|a l IH]; intros Hfg; simpl; [reflexivity|].
  rewrite (Hfg a) by now left. rewrite IH; [reflexivity|].
  intros b Hb. apply Hfg. now right.
Qed.

Lemma complementMask_at (m : list Z) i :
  aget (complementMask m) i = option_map (fun v => if v =? 0 then 1 else 0) (aget m i).
Proof.
  destruct (fill1_spec (fun i => if truthy (aget m i) then 0 else 1)
              (Z.of_nat (length m)) (newArray (Z.of_nat (length m))))
    as (Hl & Hin & _).
  { rewrite length_newArray. lia. }
  cbv zeta in Hl, Hin. fold (complementMask m) in Hl, Hin.
  rewrite length_newArray, Nat2Z.id in Hl.
  destruct (aget m i) as [v|] eqn:Hv.
  - rewrite Hin by (apply aget_Some_range in Hv; lia).
    rewrite Hv. simpl. now destruct (v =? 0).
  - apply aget_out_of_range. rewrite Hl. intros Hi.
    destruct (aget_in_range m i Hi) as [v Hv']. congruence.
Qed.

Lemma length_complementMask (m : list Z) : length (complementMask m) = length m.
Proof.
  destruct (fill1_spec (fun i => if truthy (aget m i) then 0 else 1)
              (Z.of_nat (length m)) (newArray (Z.of_nat (length m))))
    as (Hl & _).
  { rewrite length_newArray. lia. }
  cbv zeta in Hl. fold (complementMask m) in Hl.
  now rewrite length_newArray, Nat2Z.id in Hl.
Qed.

(** X11.  Erosion and dilation are dual under the complement that
    [refineMasks] uses for its foreground mask: dilating the complement of
    a mask gives the complement of the eroded mask, with or without an
    edge mask. *)
Theorem dilateMask_complement (m : list Z) (w h : Z) (edgeMask : option (list Z)) :
  0 <= w -> 0 <= h -> Z.of_nat (length m) = w * h ->
  dilateMask (complementMask m) w h edgeMask =
  complementMask (erodeMask m w h edgeMask).
Proof.
  intros Hw Hh Hlen. apply aget_ext. intros i.
  assert (Z.of_nat (length (complementMask m)) = w * h) as Hlc
    by now rewrite length_complementMask.
  destruct (Z.le_gt_cases 0 i) as [Hi0|Hneg];
    [destruct (Z.lt_ge_cases i (w * h)) as [Hi|Hbig]|].
  - destruct (index_decompose w h i Hw (conj Hi0 Hi)) as (x & y & Hx & Hy & ->).
    rewrite dilateMask_at, complementMask_at, erodeMask_at by assumption.
    cbn [option_map]. f_equal.
    assert (forall n, 0 <= n < w * h ->
              exists v, aget m n = Some v /\
                        aget (complementMask m) n = Some (if v =? 0 then 1 else 0))
      as Hpt.
    { intros n Hn. destruct (aget_in_range m n) as [v Hv]; [lia|].
      exists v. split; [assumption|]. now rewrite complementMask_at, Hv. }
    destruct (gatedByEdge edgeMask (y * w + x)).
    + destruct (Hpt (y * w + x)) as (v & Hv & Hc); [lia|].
      unfold rd. now rewrite Hv, Hc.
    + rewrite (existsb_ext_in _
        (fun n => match aget m n with Some 0 => true | _ => false end)).
      * now destruct (existsb _ _).
      * intros n Hn. apply neighbours_in_range in Hn; [|lia|lia].
        destruct (Hpt n Hn) as (v & -> & ->). now destruct v.
  - rewrite !aget_out_of_range; [reflexivity| |].
    + rewrite length_complementMask, length_erodeMask_any by assumption. lia.
    + rewrite length_dilateMask_any by assumption. lia.
  - rewrite !aget_out_of_range; [reflexivity| |]; lia.
Qed.

Lemma dilateMask_complement_witness :
  dilateMask (complementMask [1; 0; 1; 1]) 2 2 None =
  complementMask (erodeMask [1; 0; 1; 1] 2 2 None).
Proof.
  apply (dilateMask_complement [1; 0; 1; 1] 2 2 None); [lia|lia|reflexivity].
Defined.

Lemma copy_loop (a : list Z) :
  for_ 0 (Z.of_nat (length a)) (fun i merged => aset merged i a.[i])
    (newArray (Z.of_nat (length a))) = a.
Proof.
  destruct (fill1_spec (fun i => a.[i]) (Z.of_nat (length a))
              (newArray (Z.of_nat (length a)))) as (Hl & Hin & _).
  { rewrite length_newArray. lia. }
  cbv zeta in Hl, Hin. rewrite length_newArray, Nat2Z.id in Hl.
  apply aget_ext. intros i.
  destruct (Z.le_gt_cases 0 i) as [Hi0|Hneg];
    [destruct (Z.lt_ge_cases i (Z.of_nat (length a))) as [Hi|Hbig]|].
  - rewrite Hin by lia. symmetry. apply rd_in_range. lia.
  - rewrite !aget_out_of_range; [reflexivity| |]; lia.
  - rewrite !aget_out_of_range; [reflexivity| |]; lia.
Qed.

(** X12.  The mask [refineMasks] returns is the background mask closed
    (dilated, then eroded) once per pass under the edge mask; the foreground
    mask it also maintains has no influence on the result. *)
Theorem refineMasks_is_closing (bgMask : list Z) (w h : Z) (grad : list Q) (passes : Z) :
  0 < passes ->
  refineMasks bgMask w h grad passes =
  for_ 0 passes (fun _ bg =>
    erodeMask (dilateMask bg w h (Some (edgeMaskOf bgMask grad)))
              w h (Some (edgeMaskOf bgMask grad))) bgMask.
Proof.
  intros Hp. unfold refineMasks.
  destruct (Z.leb_spec passes 0) as [|_]; [lia|]. cbv zeta.
  fold (edgeMaskOf bgMask grad). fold (complementMask bgMask).
  set (e := edgeMaskOf bgMask grad).
  pose (R := fun (s : list Z * list Z) (t : list Z) => fst s = t).
  match goal with |- (let '(bg, fg) := for_ 0 passes ?body ?s0 in _) = for_ 0 passes ?body' ?t0 =>
    assert (R (for_ 0 passes body s0) (for_ 0 passes body' t0)) as Hrel
  end.
  { apply (for_related R); [reflexivity|].
    intros p [bg fg] t _ <-. reflexivity. }
  unfold R in Hrel. rewrite <- Hrel.
  destruct (for_ 0 passes _ (bgMask, complementMask bgMask)) as [bg fg].
  cbn [fst]. apply copy_loop.
Qed.

Lemma refineMasks_is_closing_witness :
  refineMasks [1; 0; 1; 1] 2 2 [0; 1; 0; 0]%Q 1 =
  for_ 0 1 (fun _ bg =>
    erodeMask (dilateMask bg 2 2 (Some (edgeMaskOf [1; 0; 1; 1] [0; 1; 0; 0]%Q)))
              2 2 (Some (edgeMaskOf [1; 0; 1; 1] [0; 1; 0; 0]%Q))) [1; 0; 1; 1].
Proof.
  apply (refineMasks_is_closing [1; 0; 1; 1] 2 2 [0; 1; 0; 0]%Q 1). lia.
Defined.

(** ** Posterising and the median filter (X13, X14) *)

Lemma posterize_two (v : Z) :
  0 <= v <= 255 ->
  toUint8Clamp (inject_Z (Math_round (inject_Z v / (255 / inject_Z (2 - 1))))
                * (255 / inject_Z (2 - 1))) =
  if v <? 128 then 0 else 255.
Proof.
  intros Hv.
  assert (forallb (fun v =>
    toUint8Clamp (inject_Z (Math_round (inject_Z v / (255 / inject_Z (2 - 1))))
                  * (255 / inject_Z (2 - 1))) =?
    (if v <? 128 then 0 else 255)) (Zrange 0 256) = true) as Hall
    by (vm_compute; reflexivity).
  rewrite forallb_forall in Hall. apply Z.eqb_eq, Hall, In_Zrange. lia.
Qed.

Lemma posterize_three (v : Z) :
  0 <= v <= 255 ->
  toUint8Clamp (inject_Z (Math_round (inject_Z v / (255 / inject_Z (3 - 1))))
                * (255 / inject_Z (3 - 1))) =
  if v <? 64 then 0 else if v <? 192 then 128 else 255.
Proof.
  intros Hv.
  assert (forallb (fun v =>
    toUint8Clamp (inject_Z (Math_round (inject_Z v / (255 / inject_Z (3 - 1))))
                  * (255 / inject_Z (3 - 1))) =?
    (if v <? 64 then 0 else if v <? 192 then 128 else 255)) (Zrange 0 256) = true)
    as Hall by (vm_compute; reflexivity).
  rewrite forallb_forall in Hall. apply Z.eqb_eq, Hall, In_Zrange. lia.
Qed.

(** X13.  At the two settings the worker uses, [posterizeGray] is a
    threshold map on bytes: with 2 levels a sample becomes 0 below 128 and
    255 from 128 on; with 3 levels it becomes 0 below 64, 128 (the stored
    form of 127.5) from 64 to 191, and 255 from 192 on. *)
Theorem posterizeGray_thresholds (buf : list Z) (i v : Z) :
  aget buf i = Some v -> 0 <= v <= 255 ->
  aget (posterizeGray buf 2) i = Some (if v <? 128 then 0 else 255) /\
  aget (posterizeGray buf 3) i =
  Some (if v <? 64 then 0 else if v <? 192 then 128 else 255).
Proof.
  intros Hget Hv. unfold posterizeGray.
  change (2 <=? 1) with false. change (3 <=? 1) with false. cbv zeta. split.
  - destruct (map_in_place (fun v =>
      toUint8Clamp (inject_Z (Math_round (inject_Z v / (255 / inject_Z (2 - 1))))
                    * (255 / inject_Z (2 - 1)))) buf) as [_ Hmap].
    cbv zeta in Hmap. rewrite (Hmap i v Hget). f_equal. now apply posterize_two.
  - destruct (map_in_place (fun v =>
      toUint8Clamp (inject_Z (Math_round (inject_Z v / (255 / inject_Z (3 - 1))))
                    * (255 / inject_Z (3 - 1)))) buf) as [_ Hmap].
    cbv zeta in Hmap. rewrite (Hmap i v Hget). f_equal. now apply posterize_three.
Qed.

Lemma posterizeGray_thresholds_witness :
  aget (posterizeGray [10; 127; 128; 200] 2) 1 = Some (if 127 <? 128 then 0 else 255) /\
  aget (posterizeGray [10; 127; 128; 200] 3) 1 =
  Some (if 127 <? 64 then 0 else if 127 <? 192 then 128 else 255).
Proof.
  apply (posterizeGray_thresholds [10; 127; 128; 200] 1 127); [reflexivity|lia].
Defined.

Lemma insertSorted_In (v x : Z) (l : list Z) :
  In x (insertSorted v l) <-> x = v \/ In x l.
Proof.
  induction l as [|a l IH]; simpl.
  - intuition.
  - destruct (v <=? a); simpl; [intuition|]. rewrite IH. intuition.
Qed.

Lemma length_insertSorted (v : Z) (l : list Z) :
  length (insertSorted v l) = S (length l).
Proof.
  induction l as [|a l IH]; simpl; [reflexivity|].
  destruct (v <=? a); simpl; [reflexivity|]. now rewrite IH.
Qed.

Lemma sortTyped_In (x : Z) (l : list Z) : In x (sortTyped l) <-> In x l.
Proof.
  induction l as [|a l IH]; simpl; [tauto|].
  rewrite insertSorted_In, IH. intuition.
Qed.

Lemma length_sortTyped (l : list Z) : length (sortTyped l) = length l.
Proof.
  induction l as [|a l IH]; simpl; [reflexivity|].
  now rewrite length_insertSorted, IH.
Qed.

Lemma floor_half (n : Z) : Math_floor (inject_Z n / 2) = n / 2.
Proof.
  unfold Math_floor, Qdiv, Qmult, Qinv, inject_Z, Qfloor. cbn [Qnum Qden].
  now rewrite Z.mul_1_r.
Qed.

Section MedianWindow.
Variables (buf : list Z) (w h radius : Z).
Hypothesis Hw : 0 < w.
Hypothesis Hh : 0 < h.
Hypothesis Hr : 0 <= radius.
Hypothesis Hlen : Z.of_nat (length buf) = w * h.

Lemma window_filled (x y : Z) :
  WindowInv buf radius ((radius * 2 + 1) * (radius * 2 + 1))
    (for_ (- radius) (radius + 1) (fun j st =>
       for_ (- radius) (radius + 1) (fun i '(n, window) =>
         let nx := Z.min (w - 1) (Z.max 0 (x + i)) in
         let ny := Z.min (h - 1) (Z.max 0 (y + j)) in
         (n + 1, aset window n buf.[ny * w + nx])) st)
       (0, newArray ((radius * 2 + 1) * (radius * 2 + 1)))).
Proof.
  replace ((radius * 2 + 1) * (radius * 2 + 1)) with
    ((radius + 1 + radius) * (radius * 2 + 1)) at 1 by ring.
  apply (for_invariant (fun j st =>
           WindowInv buf radius ((j + radius) * (radius * 2 + 1)) st));
    [lia| |].
  - split; [|split]; cbn [fst snd].
    + ring.
    + rewrite length_newArray. nia.
    + intros idx Hidx. nia.
  - intros j st Hj Hst.
    replace ((j + 1 + radius) * (radius * 2 + 1)) with
      ((j + radius) * (radius * 2 + 1) + (radius + 1 + radius)) by ring.
    apply (for_invariant
      (fun i st =>
         WindowInv buf radius ((j + radius) * (radius * 2 + 1) + (i + radius)) st));
      [lia| |].
    + now replace (- radius + radius) with 0 by lia; rewrite Z.add_0_r.
    + intros i [n window] Hi (Hn & Hl & Hslots). cbn [fst snd] in *. cbv zeta.
      assert (0 <= n < (radius * 2 + 1) * (radius * 2 + 1)) as Hnr by nia.
      split; [|split]; cbn [fst snd].
      * lia.
      * now rewrite length_aset.
      * intros idx Hidx. destruct (Z.eq_dec idx n) as [->|Hne].
        -- rewrite aget_aset_same by lia. eexists. split; [reflexivity|].
           set (nx := Z.min (w - 1) (Z.max 0 (x + i))).
           set (ny := Z.min (h - 1) (Z.max 0 (y + j))).
           assert (0 <= ny * w + nx < w * h) as Hin by (subst nx ny; nia).
           rewrite <- Hlen in Hin. apply rd_in_range in Hin.
           apply (aget_In _ _ _ Hin).
        -- rewrite aget_aset_other by assumption. apply Hslots. lia.
Qed.

Lemma median_in_buf (x y : Z) :
  In (let '(_, window) :=
        for_ (- radius) (radius + 1) (fun j st =>
          for_ (- radius) (radius + 1) (fun i '(n, window) =>
            let nx := Z.min (w - 1) (Z.max 0 (x + i)) in
            let ny := Z.min (h - 1) (Z.max 0 (y + j)) in
            (n + 1, aset window n buf.[ny * w + nx])) st)
          (0, newArray ((radius * 2 + 1) * (radius * 2 + 1))) in
      (sortTyped window).[Math_floor (inject_Z ((radius * 2 + 1) * (radius * 2 + 1)) / 2)])
     buf.
Proof.
  pose proof (window_filled x y) as (_ & Hl & Hslots).
  destruct (for_ _ _ _ _) as [n window]. cbn [fst snd] in *.
  rewrite floor_half.
  set (ws := (radius * 2 + 1) * (radius * 2 + 1)) in *.
  assert (1 <= ws) by (subst ws; nia).
  assert (0 <= ws / 2 < ws) as Hmid
    by (split; [apply Z.div_pos; lia | apply Z.div_lt_upper_bound; lia]).
  assert (aget (sortTyped window) (ws / 2) = Some (sortTyped window).[ws / 2]) as Hget
    by (apply rd_in_range; rewrite length_sortTyped; lia).
  apply aget_In in Hget. rewrite sortTyped_In in Hget.
  apply In_aget in Hget as [idx Hidx].
  destruct (Hslots idx) as (v & Hv & Hin).
  - apply aget_Some_range in Hidx. lia.
  - congruence.
Qed.

End MedianWindow.

(** X14.  The median filter keeps the size of the buffer, and every value
    it produces is one of the values of the buffer it was given. *)
Theorem medianFilterGray_values (buf : list Z) (w h radius : Z) :
  0 <= w -> 0 <= h -> 0 <= radius -> Z.of_nat (length buf) = w * h ->
  let out := medianFilterGray buf w h radius in
  length out = length buf /\
  forall i v, aget out i = Some v -> In v buf.
Proof.
  intros Hw Hh Hr Hlen out.
  destruct (fill2_body_spec
    (fun x y out =>
       let '(_, window) :=
         for_ (- radius) (radius + 1) (fun j st =>
           for_ (- radius) (radius + 1) (fun i '(n, window) =>
             let nx := Z.min (w - 1) (Z.max 0 (x + i)) in
             let ny := Z.min (h - 1) (Z.max 0 (y + j)) in
             (n + 1, aset window n buf.[ny * w + nx])) st)
           (0, newArray ((radius * 2 + 1) * (radius * 2 + 1))) in
       let window := sortTyped window in
       let mid := window.[Math_floor (inject_Z ((radius * 2 + 1) * (radius * 2 + 1)) / 2)] in
       aset out (y * w + x) mid)
    (fun x y =>
       let '(_, window) :=
         for_ (- radius) (radius + 1) (fun j st =>
           for_ (- radius) (radius + 1) (fun i '(n, window) =>
             let nx := Z.min (w - 1) (Z.max 0 (x + i)) in
             let ny := Z.min (h - 1) (Z.max 0 (y + j)) in
             (n + 1, aset window n buf.[ny * w + nx])) st)
           (0, newArray ((radius * 2 + 1) * (radius * 2 + 1))) in
       (sortTyped window).[Math_floor (inject_Z ((radius * 2 + 1) * (radius * 2 + 1)) / 2)])
    w h (newArray (Z.of_nat (length buf)))) as [Hl Hget]; auto.
  - intros x y o. now destruct (for_ _ _ _ _).
  - rewrite length_newArray. lia.
  - cbv zeta in Hl, Hget. fold (medianFilterGray buf w h radius) in Hl, Hget.
    fold out in Hl, Hget. split.
    + rewrite Hl, length_newArray. lia.
    + intros i v Hv.
      assert (0 <= i < w * h) as Hi.
      { apply aget_Some_range in Hv. rewrite Hl, length_newArray in Hv. lia. }
      destruct (index_decompose w h i Hw Hi) as (x & y & Hx & Hy & ->).
      rewrite (Hget x y Hx Hy) in Hv. injection Hv as <-.
      apply median_in_buf; auto; lia.
Qed.

Lemma medianFilterGray_values_witness :
  length (medianFilterGray [9; 1; 5; 7] 2 2 1) = length [9; 1; 5; 7].
Proof.
  destruct (medianFilterGray_values [9; 1; 5; 7] 2 2 1) as [Hl _];
    [lia|lia|lia|reflexivity|].
  exact Hl.
Defined.

(** ** The alphabet of the Braille text (X15) *)

Lemma brailleCell_range grayBuf w h x y :
  0x2800 <= brailleCell grayBuf w h x y <= 0x28FF.
Proof.
  rewrite brailleCell_sum. unfold cellScan, map, fold_right.
  destruct (subPixelOn grayBuf w h x y 0 0), (subPixelOn grayBuf w h x y 0 1),
    (subPixelOn grayBuf w h x y 0 2), (subPixelOn grayBuf w h x y 0 3),
    (subPixelOn grayBuf w h x y 1 0), (subPixelOn grayBuf w h x y 1 1),
    (subPixelOn grayBuf w h x y 1 2), (subPixelOn grayBuf w h x y 1 3);
    split; vm_compute; discriminate.
Qed.

Lemma brailleRow_alphabet grayBuf w h startX endX y :
  Forall (fun c => 0x2800 <= c <= 0x28FF) (brailleRow grayBuf w h startX endX y).
Proof.
  unfold brailleRow. apply Forall_flat_map, Forall_forall. intros x _.
  unfold String_fromCharCode. constructor; [|constructor].
  pose proof (brailleCell_range grayBuf w h x y) as Hc.
  rewrite Z.mod_small; lia.
Qed.

(** X15.  The Braille text consists of Braille patterns (U+2800..U+28FF)
    and line feeds only, and it holds exactly one line feed per row of
    cells. *)
Theorem generateBrailleArt_alphabet (grayBuf : list Z) (w h : Z) (bbox : BBox.t) :
  let text := generateBrailleArt grayBuf w h bbox in
  let startY := Math_floor (inject_Z (BBox.top bbox) / 4) * 4 in
  let endY := Math_ceil (inject_Z (BBox.bottom bbox) / 4) * 4 in
  Forall (fun c => c = 10 \/ 0x2800 <= c <= 0x28FF) text /\
  count_occ Z.eq_dec text 10 = length (ZrangeStep startY endY 4).
Proof.
  intros text startY endY. subst text. rewrite generateBrailleArt_rows.
  cbv zeta. fold startY endY.
  generalize (ZrangeStep startY endY 4) as rows.
  set (startX := Math_floor (inject_Z (BBox.left bbox) / 2) * 2).
  set (endX := Math_ceil (inject_Z (BBox.right bbox) / 2) * 2).
  induction rows as [|y rows [IHall IHcount]]; [split; [constructor|reflexivity]|].
  pose proof (brailleRow_alphabet grayBuf w h startX endX y) as Hrow.
  cbn [flat_map length]. split.
  - rewrite !Forall_app. split; [split|assumption].
    + eapply Forall_impl; [|exact Hrow]. intros c Hc. now right.
    + constructor; [now left|constructor].
  - rewrite !count_occ_app, IHcount.
    rewrite (proj1 (count_occ_not_In Z.eq_dec _ 10)).
    + reflexivity.
    + intros Hin. rewrite Forall_forall in Hrow. apply Hrow in Hin. lia.
Qed.

(** ** Colour inversion (X16) *)

Lemma aget_aset_here {A : Type} (a : list A) i v :
  aget (aset a i v) i = match aget a i with Some _ => Some v | None => None end.
Proof.
  destruct (aget a i) eqn:E.
  - apply aget_aset_same. now apply aget_Some_range in E.
  - apply aget_out_of_range. rewrite length_aset. intros Hi.
    destruct (aget_in_range a i Hi). congruence.
Qed.

Lemma mod4_offset k r : 0 <= r < 4 -> (0 + 4 * k + r) mod 4 = r.
Proof.
  intros Hr. rewrite Z.add_0_l, Z.add_comm, Z.mul_comm, Z.mod_add by lia.
  apply Z.mod_small. lia.
Qed.

(** Every sample of the inverted data, in terms of the sample it had. *)
Lemma invertData_aget (data : list Z) j :
  aget (invertData data) j =
  option_map (fun v => if j mod 4 =? 3 then v else 255 - v) (aget data j).
Proof.
  unfold invertData. rewrite forStep_for.
  set (n := (Z.of_nat (length data) - 0 + 4 - 1) / 4).
  pose (Inv := fun (k : Z) (d : list Z) =>
    forall j,
      (j < 4 * k -> aget d j =
         option_map (fun v => if j mod 4 =? 3 then v else 255 - v) (aget data j)) /\
      (4 * k <= j -> aget d j = aget data j)).
  assert (Inv n (for_ 0 n (fun k d =>
            let d := aset d (0 + 4 * k) (255 - d.[0 + 4 * k]) in
            let d := aset d (0 + 4 * k + 1) (255 - d.[0 + 4 * k + 1]) in
            aset d (0 + 4 * k + 2) (255 - d.[0 + 4 * k + 2])) data)) as Hfin.
  { apply for_invariant.
    - subst n. apply Z.div_pos; lia.
    - intros j'. split; [|reflexivity].
      intros Hj. now rewrite (aget_out_of_range data j') by lia.
    - intros k d Hk Hd j'. cbv zeta.
      pose proof (mod4_offset k 0 ltac:(lia)) as M0. rewrite Z.add_0_r in M0.
      pose proof (mod4_offset k 1 ltac:(lia)) as M1.
      pose proof (mod4_offset k 2 ltac:(lia)) as M2.
      pose proof (mod4_offset k 3 ltac:(lia)) as M3.
      set (i := 0 + 4 * k) in *.
      rewrite (rd_aset_other _ (i + 1) i) by lia.
      rewrite !(rd_aset_other _ (i + 2)) by lia.
      assert (forall m, i <= m -> d.[m] = data.[m]) as Hrd.
      { intros m Hm. unfold rd. now rewrite (proj2 (Hd m)) by lia. }
      rewrite !Hrd by lia.
      assert (forall m, i <= m -> aget d m = aget data m) as Hsame
        by (intros m Hm; apply (proj2 (Hd m)); lia).
      split; intros Hj.
      + destruct (Z.eq_dec j' i) as [->|N0];
          [|destruct (Z.eq_dec j' (i + 1)) as [->|N1];
            [|destruct (Z.eq_dec j' (i + 2)) as [->|N2];
              [|destruct (Z.eq_dec j' (i + 3)) as [->|N3]]]].
        * rewrite !(aget_aset_other _ i) by lia. rewrite aget_aset_here, Hsame by lia.
          rewrite M0. unfold rd. now destruct (aget data i).
        * rewrite !(aget_aset_other _ (i + 1) (i + 2)) by lia.
          rewrite aget_aset_here, aget_aset_other, Hsame by lia.
          rewrite M1. unfold rd. now destruct (aget data (i + 1)).
        * rewrite aget_aset_here, !aget_aset_other, Hsame by lia.
          rewrite M2. unfold rd. now destruct (aget data (i + 2)).
        * rewrite !aget_aset_other, Hsame by lia.
          rewrite M3. now destruct (aget data (i + 3)).
        * rewrite !aget_aset_other by lia. apply (proj1 (Hd j')). lia.
      + rewrite !aget_aset_other by lia. apply Hsame. lia. }
  destruct (Hfin j) as [Hlo Hhi]. cbv zeta in Hlo, Hhi.
  destruct (Z.lt_ge_cases j (4 * n)) as [Hlt|Hge].
  - now apply Hlo.
  - rewrite Hhi by assumption.
    assert (Z.of_nat (length data) <= 4 * n)
      by (subst n; Z.div_mod_to_equations; lia).
    rewrite aget_out_of_range; [reflexivity|]. lia.
Qed.

(** X16.  Inverting the colours leaves every alpha sample as it was, and
    inverting twice gives back the data. *)
Theorem invertData_involutive (data : list Z) :
  (forall p, aget (invertData data) (4 * p + 3) = aget data (4 * p + 3)) /\
  invertData (invertData data) = data.
Proof.
  split.
  - intros p. rewrite invertData_aget.
    replace ((4 * p + 3) mod 4) with 3
      by (symmetry; rewrite Z.add_comm, Z.mul_comm, Z.mod_add by lia; reflexivity).
    now destruct (aget data (4 * p + 3)).
  - apply aget_ext. intros j. rewrite !invertData_aget.
    destruct (aget data j) as [v|]; [|reflexivity]. cbn [option_map].
    destruct (j mod 4 =? 3); f_equal. lia.
Qed.

(** ** The glyph ramp (X17) *)

(** X17.  The intensity-to-glyph table has 256 entries; each is a
    non-empty string, either a glyph of the character set or the space that
    stands in for a missing or empty glyph. *)
Theorem buildCharMap_entries (charSet : list JSString) :
  length (buildCharMap charSet) = 256%nat /\
  Forall (fun s => s <> [] /\ (In s charSet \/ s = space)) (buildCharMap charSet).
Proof.
  unfold buildCharMap. cbv zeta. split; [now rewrite length_map|].
  apply Forall_map, Forall_forall. intros i _.
  destruct (aget charSet _) as [[|c s]|] eqn:E.
  - split; [discriminate|now right].
  - split; [discriminate|left]. apply (aget_In _ _ _ E).
  - split; [discriminate|now right].
Qed.

(** ** Background detection (X18, X19) *)

(** X18.  Whatever the border of the image looks like, the predicate that
    [detectBackground] returns rejects every pixel that is not transparent
    (alpha at least 32) and is either translucent (alpha below 220) or of
    middle brightness (strictly between 10 and 245). *)
Theorem detectBackground_rejects_midtones (imageData : ImageData.t) (r g b a : Z) :
  32 <= a ->
  a < 220 \/ ((10 < brightnessOf r g b)%Q /\ (brightnessOf r g b < 245)%Q) ->
  detectBackground imageData r g b a = false.
Proof.
  intros Ha Hmid. unfold detectBackground. cbv zeta.
  assert ((a <? transparentThresh) = false) as Ht
    by (apply Z.ltb_ge; unfold transparentThresh; lia).
  assert (Qle_bool whiteThresh (brightnessOf r g b) && (opaqueThresh <=? a) = false) as Hwh.
  { destruct Hmid as [Hlow|[_ Hb]].
    - replace (opaqueThresh <=? a) with false; [apply andb_false_r|].
      symmetry. apply Z.leb_gt. unfold opaqueThresh. lia.
    - replace (Qle_bool whiteThresh (brightnessOf r g b)) with false; [reflexivity|].
      symmetry. apply Qltb_lt in Hb. unfold Qltb in Hb.
      apply negb_true_iff in Hb. exact Hb. }
  assert (Qle_bool (brightnessOf r g b) blackThresh && (opaqueThresh <=? a) = false) as Hbl.
  { destruct Hmid as [Hlow|[Hb _]].
    - replace (opaqueThresh <=? a) with false; [apply andb_false_r|].
      symmetry. apply Z.leb_gt. unfold opaqueThresh. lia.
    - replace (Qle_bool (brightnessOf r g b) blackThresh) with false; [reflexivity|].
      symmetry. apply Qltb_lt in Hb. unfold Qltb in Hb.
      apply negb_true_iff in Hb. exact Hb. }
  destruct (dominates _ _ _ _); [exact Ht|].
  destruct (dominates _ _ _ _); [exact Hwh|].
  destruct (dominates _ _ _ _); [exact Hbl|reflexivity].
Qed.

Lemma detectBackground_rejects_midtones_witness :
  detectBackground
    {| ImageData.data := [255; 255; 255; 255]; ImageData.width := 1;
       ImageData.height := 1 |} 100 100 100 255 = false.
Proof.
  apply detectBackground_rejects_midtones; [lia|right; split; reflexivity].
Defined.

(** What one sample adds to the counters. *)
Lemma samplePixel_counts (data : list Z) idx c :
  let c' := samplePixel data idx c in
  samples c' = samples c + 1 /\
  trans c <= trans c' /\ white c <= white c' /\ black c <= black c' /\
  trans c' + white c' + black c' <= trans c + white c + black c + 1.
Proof.
  unfold samplePixel. cbv zeta.
  destruct (optLtZ _ _); cbn [trans white black samples]; [lia|].
  destruct (_ && _); cbn [trans white black samples]; [lia|].
  destruct (_ && _); cbn [trans white black samples]; lia.
Qed.

Lemma samplePixel_transparent (data : list Z) idx c :
  optLtZ (aget data (idx + 3)) transparentThresh = true ->
  samplePixel data idx c =
  {| trans := trans c + 1; white := white c; black := black c; samples := samples c + 1 |}.
Proof.
  intros Ha. unfold samplePixel. cbv zeta. now rewrite Ha.
Qed.

(** The counters after the two sampling loops: the number of samples, and
    that the three categories are disjoint. *)
Lemma borderCounts_samples (imageData : ImageData.t) :
  0 <= ImageData.width imageData ->
  let c := borderCounts imageData in
  samples c = 2 * ImageData.width imageData + 2 * Z.max 0 (ImageData.height imageData - 2) /\
  0 <= trans c /\ 0 <= white c /\ 0 <= black c /\
  trans c + white c + black c <= samples c.
Proof.
  destruct imageData as [data w h]. cbn [ImageData.width ImageData.height]. intros Hw.
  unfold borderCounts. cbn [ImageData.width ImageData.height ImageData.data]. cbv zeta.
  pose (Inv := fun (n : Z) (c : BorderCounts) =>
    samples c = n /\ 0 <= trans c /\ 0 <= white c /\ 0 <= black c /\
    trans c + white c + black c <= samples c).
  assert (forall n idx c, Inv n c -> Inv (n + 1) (samplePixel data idx c)) as Hstep.
  { intros n idx c (Hs & H1 & H2 & H3 & H4).
    pose proof (samplePixel_counts data idx c) as Hc. cbv zeta in Hc.
    unfold Inv. lia. }
  assert (Inv (2 * w) (for_ 0 w (fun x c =>
            samplePixel data (((h - 1) * w + x) * 4)
              (samplePixel data ((0 * w + x) * 4) c))
            {| trans := 0; white := 0; black := 0; samples := 0 |})) as Hrows.
  { apply (for_invariant (fun k c => Inv (2 * k) c)); [lia| |].
    - unfold Inv. cbn. lia.
    - intros x c _ Hc. replace (2 * (x + 1)) with (2 * x + 1 + 1) by lia.
      now apply Hstep, Hstep. }
  destruct (Z.le_gt_cases 1 (h - 1)) as [Hrows'|Hnone].
  - replace (2 * w + 2 * Z.max 0 (h - 2)) with (2 * w + 2 * (h - 1 - 1)) by lia.
    apply (for_invariant (fun k c => Inv (2 * w + 2 * (k - 1)) c)); [lia| |].
    + now replace (2 * w + 2 * (1 - 1)) with (2 * w) by lia.
    + intros y c _ Hc.
      replace (2 * w + 2 * (y + 1 - 1)) with (2 * w + 2 * (y - 1) + 1 + 1) by lia.
      now apply Hstep, Hstep.
  - rewrite for_empty by lia.
    now replace (2 * w + 2 * Z.max 0 (h - 2)) with (2 * w) by lia.
Qed.

(** X19.  When every pixel of a non-empty image is transparent (alpha
    below 32), the predicate that [detectBackground] returns is the alpha
    test: a pixel is background exactly when its alpha is below 32. *)
Theorem detectBackground_transparent_image (imageData : ImageData.t) :
  0 < ImageData.width imageData -> 0 < ImageData.height imageData ->
  (forall p, 0 <= p < ImageData.width imageData * ImageData.height imageData ->
     optLtZ (aget (ImageData.data imageData) (p * 4 + 3)) transparentThresh = true) ->
  forall r g b a, detectBackground imageData r g b a = (a <? transparentThresh).
Proof.
  intros Hw Hh Halpha.
  pose proof (borderCounts_samples imageData ltac:(lia)) as [Hs _]. cbv zeta in Hs.
  assert (trans (borderCounts imageData) = samples (borderCounts imageData) /\
          white (borderCounts imageData) = 0 /\
          black (borderCounts imageData) = 0) as (Ht & Hwh & Hbl).
  { clear Hs. destruct imageData as [data w h].
    cbn [ImageData.width ImageData.height ImageData.data] in *.
    unfold borderCounts. cbn [ImageData.width ImageData.height ImageData.data]. cbv zeta.
    assert (forall nx ny, 0 <= nx < w -> 0 <= ny < h -> 0 <= ny * w + nx < w * h)
      as Hin by (intros; nia).
    pose (Inv := fun c : BorderCounts =>
      trans c = samples c /\ white c = 0 /\ black c = 0).
    assert (forall x y c, 0 <= x < w -> 0 <= y < h -> Inv c ->
              Inv (samplePixel data ((y * w + x) * 4) c)) as Hstep.
    { intros x y c Hx Hy (H1 & H2 & H3).
      rewrite samplePixel_transparent by (apply Halpha, Hin; lia).
      unfold Inv. cbn [trans white black samples]. lia. }
    apply (for_preserves Inv).
    - apply (for_preserves Inv); [unfold Inv; cbn; lia|].
      intros x c Hx Hc. apply Hstep; [lia|lia|]. apply Hstep; [lia|lia|assumption].
    - intros y c Hy Hc. apply Hstep; [lia|lia|]. apply Hstep; [lia|lia|assumption]. }
  intros r g b a. unfold detectBackground. cbv zeta.
  replace (dominates _ _ _ _) with true; [reflexivity|]. symmetry.
  unfold dominates. rewrite Ht, Hwh, Hbl.
  apply andb_true_intro. split.
  - apply Z.leb_le. lia.
  - apply Qltb_lt.
    assert (0 < inject_Z (samples (borderCounts imageData)))%Q
      by (change 0%Q with (inject_Z 0); rewrite <- Zlt_Qlt; lia).
    lra.
Qed.

Lemma detectBackground_transparent_image_witness :
  detectBackground
    {| ImageData.data := [0; 0; 0; 0; 9; 9; 9; 5]; ImageData.width := 2;
       ImageData.height := 1 |} 255 255 255 255 = (255 <? transparentThresh).
Proof.
  apply detectBackground_transparent_image; cbn [ImageData.width ImageData.height]; try lia.
  intros p Hp. cbn [ImageData.data].
  assert (p = 0 \/ p = 1) as [-> | ->] by lia; reflexivity.
Defined.

(** ** The foreground box (X20, X21, X22) *)

Lemma while_up_spec (c : Z -> bool) (hi : Z) (fuel : nat) (lo : Z) :
  lo <= hi -> hi - lo <= Z.of_nat fuel ->
  let r := while_ fuel (fun t => (t <? hi) && c t) Z.succ lo in
  lo <= r <= hi /\
  (forall t, lo <= t < r -> c t = true) /\
  (r < hi -> c r = false).
Proof.
  revert lo. induction fuel as [|fuel IH]; intros lo Hle Hfuel; cbn [while_].
  - split; [lia|]. split; intros; lia.
  - destruct (Z.ltb_spec lo hi) as [Hlt|Hge]; cbn [andb].
    + destruct (c lo) eqn:Hc.
      * destruct (IH (Z.succ lo)) as (Hr & Hall & Hstop); [lia|lia|].
        cbv zeta in Hr, Hall, Hstop. split; [lia|]. split; [|assumption].
        intros t Ht. destruct (Z.eq_dec t lo) as [->|Hne]; [assumption|].
        apply Hall. lia.
      * split; [lia|]. split; [intros; lia|auto].
    + split; [lia|]. split; intros; lia.
Qed.

Lemma while_down_spec (c : Z -> bool) (lo : Z) (fuel : nat) (hi : Z) :
  hi - lo <= Z.of_nat fuel ->
  let r := while_ fuel (fun b => (lo <? b - 1) && c (b - 1)) Z.pred hi in
  r <= hi /\ (lo < hi -> lo < r) /\ (hi <= lo -> r = hi) /\
  (forall t, r <= t < hi -> c t = true) /\
  (lo < r - 1 -> c (r - 1) = false).
Proof.
  revert hi. induction fuel as [|fuel IH]; intros hi Hfuel; cbn [while_].
  - split; [lia|]. split; [lia|]. split; [lia|]. split; intros; lia.
  - destruct (Z.ltb_spec lo (hi - 1)) as [Hlt|Hge]; cbn [andb].
    + destruct (c (hi - 1)) eqn:Hc.
      * destruct (IH (Z.pred hi)) as (Hr & Hpos & _ & Hall & Hstop); [lia|].
        cbv zeta in Hr, Hpos, Hall, Hstop.
        split; [lia|]. split; [intros _; apply Hpos; lia|]. split; [lia|].
        split; [|assumption].
        intros t Ht. destruct (Z.eq_dec t (hi - 1)) as [->|Hne]; [assumption|].
        apply Hall. lia.
      * split; [lia|]. split; [lia|]. split; [lia|]. split; [intros; lia|auto].
    + split; [lia|]. split; [lia|]. split; [lia|]. split; intros; lia.
Qed.

(** The two trimming loops along one axis of length [n], on the test [c]. *)
Lemma trim_axis (c : Z -> bool) (n : Z) :
  0 <= n ->
  let lo := while_ (Z.to_nat n) (fun t => (t <? n) && c t) Z.succ 0 in
  let hi := while_ (Z.to_nat n) (fun b => (lo <? b - 1) && c (b - 1)) Z.pred n in
  0 <= lo <= n /\ hi <= n /\ (lo < n -> lo < hi) /\ (lo = n -> hi = n) /\
  (forall t, 0 <= t < lo -> c t = true) /\
  (forall t, hi <= t < n -> c t = true) /\
  (lo < n -> c lo = false) /\
  (lo < hi - 1 -> c (hi - 1) = false).
Proof.
  intros Hn lo hi.
  destruct (while_up_spec c n (Z.to_nat n) 0) as (Hlo & Hbelow & Hstop); [lia|lia|].
  fold lo in Hlo, Hbelow, Hstop.
  destruct (while_down_spec c lo (Z.to_nat n) n) as (Hhi & Hpos & Heq & Habove & Hstop');
    [lia|].
  fold hi in Hhi, Hpos, Heq, Habove, Hstop'.
  split; [assumption|]. split; [assumption|]. split; [assumption|].
  split; [intros E; apply Heq; lia|]. auto.
Qed.

Lemma rowIsBackground_spec imageData isBackground y :
  rowIsBackground imageData isBackground y = true <->
  forall x, 0 <= x < ImageData.width imageData ->
    pixelIsBackground imageData isBackground x y = true.
Proof.
  unfold rowIsBackground. cbv zeta. rewrite forallb_forall. split.
  - intros Hall x Hx. apply (Hall x). now apply In_Zrange.
  - intros Hall x Hx. apply In_Zrange in Hx. now apply Hall.
Qed.

Lemma colIsBackground_spec imageData isBackground x :
  colIsBackground imageData isBackground x = true <->
  forall y, 0 <= y < ImageData.height imageData ->
    pixelIsBackground imageData isBackground x y = true.
Proof.
  unfold colIsBackground. cbv zeta. rewrite forallb_forall. split.
  - intros Hall y Hy. apply (Hall y). now apply In_Zrange.
  - intros Hall y Hy. apply In_Zrange in Hy. now apply Hall.
Qed.

(** X20.  The box [computeForegroundBBox] returns lies within the image,
    and it is not empty when the image is not. *)
Theorem computeForegroundBBox_in_frame (imageData : ImageData.t)
    (isBackground : Z -> Z -> Z -> Z -> bool) :
  let w := ImageData.width imageData in
  let h := ImageData.height imageData in
  let box := computeForegroundBBox imageData isBackground in
  0 <= w -> 0 <= h ->
  0 <= BBox.left box <= BBox.right box /\ BBox.right box <= w /\
  0 <= BBox.top box <= BBox.bottom box /\ BBox.bottom box <= h /\
  (0 < w -> 0 < h ->
   BBox.left box < BBox.right box /\ BBox.top box < BBox.bottom box).
Proof.
  intros w h box Hw Hh. subst box. unfold computeForegroundBBox. fold w h. cbv zeta.
  destruct (trim_axis (rowIsBackground imageData isBackground) h Hh)
    as (Ht & Hb & _). cbv zeta in Ht, Hb.
  destruct (trim_axis (colIsBackground imageData isBackground) w Hw)
    as (Hl & Hr & _). cbv zeta in Hl, Hr.
  set (top := while_ (Z.to_nat h) _ Z.succ 0) in *.
  set (bottom := while_ (Z.to_nat h) _ Z.pred h) in *.
  set (left := while_ (Z.to_nat w) _ Z.succ 0) in *.
  set (right := while_ (Z.to_nat w) _ Z.pred w) in *.
  destruct (Z.leb_spec right left); cbn [orb BBox.left BBox.right BBox.top BBox.bottom];
    [lia|].
  destruct (Z.leb_spec bottom top); cbn [BBox.left BBox.right BBox.top BBox.bottom]; lia.
Qed.

Lemma computeForegroundBBox_in_frame_witness :
  let box :=
    computeForegroundBBox
      {| ImageData.data := [0; 0; 0; 0; 9; 9; 9; 255; 0; 0; 0; 0];
         ImageData.width := 3; ImageData.height := 1 |}
      (fun _ _ _ a => a <? 32) in
  BBox.left box < BBox.right box /\ BBox.top box < BBox.bottom box.
Proof.
  destruct (computeForegroundBBox_in_frame
    {| ImageData.data := [0; 0; 0; 0; 9; 9; 9; 255; 0; 0; 0; 0];
       ImageData.width := 3; ImageData.height := 1 |}
    (fun _ _ _ a => a <? 32)) as (_ & _ & _ & _ & Hne);
    cbn [ImageData.width ImageData.height]; try lia.
  apply Hne; cbn [ImageData.width ImageData.height]; lia.
Defined.

(** X21.  The box contains every pixel that [isBackground] does not accept:
    cropping to it loses no foreground. *)
Theorem computeForegroundBBox_contains_foreground (imageData : ImageData.t)
    (isBackground : Z -> Z -> Z -> Z -> bool) (x y : Z) :
  let w := ImageData.width imageData in
  let h := ImageData.height imageData in
  let box := computeForegroundBBox imageData isBackground in
  0 <= x < w -> 0 <= y < h ->
  pixelIsBackground imageData isBackground x y = false ->
  BBox.left box <= x < BBox.right box /\ BBox.top box <= y < BBox.bottom box.
Proof.
  intros w h box Hx Hy Hfg. subst box. unfold computeForegroundBBox. fold w h. cbv zeta.
  destruct (trim_axis (rowIsBackground imageData isBackground) h ltac:(lia))
    as (Ht & Hb & _ & _ & Habove & Hbelow & _). cbv zeta in Ht, Hb, Habove, Hbelow.
  destruct (trim_axis (colIsBackground imageData isBackground) w ltac:(lia))
    as (Hl & Hr & _ & _ & Hbefore & Hafter & _). cbv zeta in Hl, Hr, Hbefore, Hafter.
  set (top := while_ (Z.to_nat h) _ Z.succ 0) in *.
  set (bottom := while_ (Z.to_nat h) _ Z.pred h) in *.
  set (left := while_ (Z.to_nat w) _ Z.succ 0) in *.
  set (right := while_ (Z.to_nat w) _ Z.pred w) in *.
  assert (rowIsBackground imageData isBackground y = false) as Hrow.
  { apply not_true_is_false. intros Hall.
    rewrite rowIsBackground_spec in Hall. rewrite (Hall x Hx) in Hfg. discriminate. }
  assert (colIsBackground imageData isBackground x = false) as Hcol.
  { apply not_true_is_false. intros Hall.
    rewrite colIsBackground_spec in Hall. rewrite (Hall y Hy) in Hfg. discriminate. }
  assert (top <= y < bottom) as Hyin.
  { split.
    - apply Z.nlt_ge. intros Hlt. rewrite Habove in Hrow by lia. discriminate.
    - apply Z.nle_gt. intros Hge. rewrite Hbelow in Hrow by lia. discriminate. }
  assert (left <= x < right) as Hxin.
  { split.
    - apply Z.nlt_ge. intros Hlt. rewrite Hbefore in Hcol by lia. discriminate.
    - apply Z.nle_gt. intros Hge. rewrite Hafter in Hcol by lia. discriminate. }
  destruct (Z.leb_spec right left); cbn [orb BBox.left BBox.right BBox.top BBox.bottom];
    [lia|].
  destruct (Z.leb_spec bottom top); cbn [BBox.left BBox.right BBox.top BBox.bottom]; lia.
Qed.

Lemma computeForegroundBBox_contains_foreground_witness :
  let box :=
    computeForegroundBBox
      {| ImageData.data := [0; 0; 0; 0; 9; 9; 9; 255; 0; 0; 0; 0];
         ImageData.width := 3; ImageData.height := 1 |}
      (fun _ _ _ a => a <? 32) in
  BBox.left box <= 1 < BBox.right box /\ BBox.top box <= 0 < BBox.bottom box.
Proof.
  apply (computeForegroundBBox_contains_foreground
    {| ImageData.data := [0; 0; 0; 0; 9; 9; 9; 255; 0; 0; 0; 0];
       ImageData.width := 3; ImageData.height := 1 |}
    (fun _ _ _ a => a <? 32) 1 0);
    cbn [ImageData.width ImageData.height]; [lia|lia|reflexivity].
Defined.

(** X22.  An image whose pixels are all background, and an image none of
    whose pixels is background, both get the full frame. *)
Theorem computeForegroundBBox_uniform (imageData : ImageData.t)
    (isBackground : Z -> Z -> Z -> Z -> bool) (v : bool) :
  let w := ImageData.width imageData in
  let h := ImageData.height imageData in
  0 <= w -> 0 <= h ->
  (forall x y, 0 <= x < w -> 0 <= y < h ->
     pixelIsBackground imageData isBackground x y = v) ->
  computeForegroundBBox imageData isBackground = fullFrame w h.
Proof.
  intros w h Hw Hh Hall.
  destruct (Z.eq_dec w 0) as [Hw0|Hw0];
    [apply computeForegroundBBox_degenerate; now left|].
  destruct (Z.eq_dec h 0) as [Hh0|Hh0];
    [apply computeForegroundBBox_degenerate; now right|].
  unfold computeForegroundBBox, fullFrame. fold w h. cbv zeta.
  destruct (trim_axis (rowIsBackground imageData isBackground) h Hh)
    as (Ht & Hb & Hne & Hfull & Habove & Hbelow & Hstop & Hstop').
  cbv zeta in Ht, Hb, Hne, Hfull, Habove, Hbelow, Hstop, Hstop'.
  destruct (trim_axis (colIsBackground imageData isBackground) w Hw)
    as (Hl & Hr & Hne' & Hfull' & Hbefore & Hafter & Hhalt & Hhalt').
  cbv zeta in Hl, Hr, Hne', Hfull', Hbefore, Hafter, Hhalt, Hhalt'.
  set (top := while_ (Z.to_nat h) _ Z.succ 0) in *.
  set (bottom := while_ (Z.to_nat h) _ Z.pred h) in *.
  set (left := while_ (Z.to_nat w) _ Z.succ 0) in *.
  set (right := while_ (Z.to_nat w) _ Z.pred w) in *.
  destruct v.
  - assert (forall y, 0 <= y < h -> rowIsBackground imageData isBackground y = true)
      as Hrows by (intros y Hy; apply rowIsBackground_spec; intros x Hx; now apply Hall).
    assert (top = h) as Htop.
    { destruct (Z.eq_dec top h); [assumption|].
      specialize (Hstop ltac:(lia)). rewrite Hrows in Hstop by lia.
      discriminate. }
    rewrite (Hfull Htop), Htop, Z.leb_refl, orb_true_r. reflexivity.
  - assert (forall y, 0 <= y < h -> rowIsBackground imageData isBackground y = false)
      as Hrows.
    { intros y Hy. apply not_true_is_false. intros Hrow.
      rewrite rowIsBackground_spec in Hrow.
      specialize (Hrow 0 ltac:(fold w; lia)). rewrite Hall in Hrow by lia.
      discriminate. }
    assert (forall x, 0 <= x < w -> colIsBackground imageData isBackground x = false)
      as Hcols.
    { intros x Hx. apply not_true_is_false. intros Hcol.
      rewrite colIsBackground_spec in Hcol.
      specialize (Hcol 0 ltac:(fold h; lia)). rewrite Hall in Hcol by lia.
      discriminate. }
    assert (top = 0) as Htop.
    { destruct (Z.eq_dec top 0); [assumption|].
      specialize (Habove 0 ltac:(lia)). rewrite Hrows in Habove by lia.
      discriminate. }
    assert (bottom = h) as Hbot.
    { destruct (Z.eq_dec bottom h); [assumption|].
      specialize (Hbelow (h - 1) ltac:(lia)). rewrite Hrows in Hbelow by lia.
      discriminate. }
    assert (left = 0) as Hleft.
    { destruct (Z.eq_dec left 0); [assumption|].
      specialize (Hbefore 0 ltac:(lia)). rewrite Hcols in Hbefore by lia.
      discriminate. }
    assert (right = w) as Hright.
    { destruct (Z.eq_dec right w); [assumption|].
      specialize (Hafter (w - 1) ltac:(lia)). rewrite Hcols in Hafter by lia.
      discriminate. }
    rewrite Htop, Hbot, Hleft, Hright.
    destruct (Z.leb_spec w 0); [lia|]. destruct (Z.leb_spec h 0); [lia|].
    cbn [orb]. f_equal; lia.
Qed.

Lemma computeForegroundBBox_uniform_witness :
  computeForegroundBBox
    {| ImageData.data := [0; 0; 0; 0; 0; 0; 0; 0];
       ImageData.width := 2; ImageData.height := 1 |}
    (fun _ _ _ a => a <? 32) = fullFrame 2 1.
Proof.
  apply (computeForegroundBBox_uniform
    {| ImageData.data := [0; 0; 0; 0; 0; 0; 0; 0];
       ImageData.width := 2; ImageData.height := 1 |}
    (fun _ _ _ a => a <? 32) true); cbn [ImageData.width ImageData.height]; try lia.
  intros x y Hx Hy.
  assert (y = 0) as -> by lia. assert (x = 0 \/ x = 1) as [-> | ->] by lia; reflexivity.
Defined.

(** ** Stores into a clamped byte array *)

Lemma toUint8Clamp_range (v : Q) : 0 <= toUint8Clamp v <= 255.
Proof.
  unfold toUint8Clamp.
  destruct (Qle_bool v 0) eqn:H0; [lia|].
  destruct (Qle_bool 255 v) eqn:H255; [lia|]. cbv zeta.
  assert (0 < v)%Q as Hpos by (apply Qltb_lt; unfold Qltb; now rewrite H0).
  assert (v < 255)%Q as Hlt by (apply Qltb_lt; unfold Qltb; now rewrite H255).
  assert (0 <= Qfloor v) as Hf0.
  { change 0 with (Qfloor 0). apply Qfloor_resp_le. lra. }
  assert (Qfloor v < 255) as Hf255.
  { apply Z.lt_le_trans with (Qfloor 255 + 0); [|reflexivity].
    rewrite Z.add_0_r. rewrite Zlt_Qlt.
    apply Qle_lt_trans with v; [apply Qfloor_le|]. exact Hlt. }
  destruct (Qltb _ _); [lia|]. destruct (Qltb _ _); [lia|].
  destruct (Z.even _); lia.
Qed.

Lemma toUint8Clamp_inject_Z (n : Z) : toUint8Clamp (inject_Z n) = Z.max 0 (Z.min 255 n).
Proof.
  unfold toUint8Clamp.
  destruct (Qle_bool (inject_Z n) 0) eqn:H0.
  - apply Qle_bool_iff in H0. change 0%Q with (inject_Z 0) in H0.
    rewrite <- Zle_Qle in H0. lia.
  - assert (0 < inject_Z n)%Q as Hpos by (apply Qltb_lt; unfold Qltb; now rewrite H0).
    change 0%Q with (inject_Z 0) in Hpos. rewrite <- Zlt_Qlt in Hpos.
    destruct (Qle_bool 255 (inject_Z n)) eqn:H255.
    + apply Qle_bool_iff in H255. change 255%Q with (inject_Z 255) in H255.
      rewrite <- Zle_Qle in H255. lia.
    + assert (inject_Z n < 255)%Q as Hlt
        by (apply Qltb_lt; unfold Qltb; now rewrite H255).
      change 255%Q with (inject_Z 255) in Hlt. rewrite <- Zlt_Qlt in Hlt.
      cbv zeta. rewrite Qfloor_Z.
      replace (Qltb (inject_Z n - inject_Z n) (1 # 2)) with true; [lia|].
      symmetry. apply Qltb_lt. lra.
Qed.

(** ** Floyd-Steinberg quantisation (X23) *)

Lemma diffuse_other bgMask n err weight grayBuf j :
  j <> n -> aget (diffuse bgMask n err weight grayBuf) j = aget grayBuf j.
Proof.
  intros Hne. unfold diffuse. destruct (truthy _); [reflexivity|].
  now apply aget_aset_other.
Qed.

Lemma length_diffuse bgMask n err weight grayBuf :
  length (diffuse bgMask n err weight grayBuf) = length grayBuf.
Proof.
  unfold diffuse. destruct (truthy _); [reflexivity|]. apply length_aset.
Qed.

(** One pixel of the dithering loop, seen from the pixels scanned so far:
    the error only flows to pixels that come later in the scan. *)
Lemma dither_pixel_scanned (bgMask : list Z) (w h : Z) (step : Q) (x y : Z)
    (grayBuf : list Z) (j : Z) :
  0 <= x < w -> j <= y * w + x ->
  aget (let i := y * w + x in
        if truthy (aget bgMask i) then grayBuf
        else
          let old := inject_Z grayBuf.[i] in
          let q := (inject_Z (Math_round (old / step)) * step)%Q in
          let err := (old - q)%Q in
          let grayBuf := aset grayBuf i (toUint8Clamp q) in
          let grayBuf :=
            if x + 1 <? w then diffuse bgMask (i + 1) err (7 / 16) grayBuf else grayBuf in
          let grayBuf :=
            if (0 <=? x - 1) && (y + 1 <? h)
            then diffuse bgMask (i + w - 1) err (3 / 16) grayBuf else grayBuf in
          let grayBuf :=
            if y + 1 <? h then diffuse bgMask (i + w) err (5 / 16) grayBuf else grayBuf in
          let grayBuf :=
            if (x + 1 <? w) && (y + 1 <? h)
            then diffuse bgMask (i + w + 1) err (1 / 16) grayBuf else grayBuf in
          grayBuf) j =
  if truthy (aget bgMask (y * w + x)) then aget grayBuf j
  else aget (aset grayBuf (y * w + x)
               (toUint8Clamp (inject_Z (Math_round (inject_Z grayBuf.[y * w + x] / step))
                              * step))) j.
Proof.
  intros Hx Hj. cbv zeta. destruct (truthy _); [reflexivity|].
  destruct (Z.leb_spec 0 (x - 1)) as [Hx1|Hx0]; cbn [andb];
    repeat match goal with
    | |- context [if ?c then diffuse _ _ _ _ _ else _] => destruct c
    end;
    rewrite ?diffuse_other by lia; reflexivity.
Qed.

(** X23.  Floyd-Steinberg dithering keeps the size of the buffer, and every
    pixel outside the background mask ends on a quantisation level: a
    multiple of the step, or the ceiling 255. *)
Theorem floydSteinbergRefine_quantises (grayBuf bgMask : list Z) (w h s : Z) :
  0 <= w -> 0 <= h -> 0 < s ->
  let out := floydSteinbergRefine grayBuf bgMask w h (inject_Z s) in
  length out = length grayBuf /\
  forall j v, 0 <= j < w * h -> truthy (aget bgMask j) = false ->
    aget out j = Some v -> (s | v) \/ v = 255.
Proof.
  intros Hw Hh Hs out. subst out. split.
  - unfold floydSteinbergRefine.
    apply (for_preserves (fun g => length g = length grayBuf)); [reflexivity|].
    intros y g _ Hg.
    apply (for_preserves (fun g => length g = length grayBuf)); [assumption|].
    clear g Hg. intros x g _ Hg. cbv zeta.
    destruct (truthy _); [assumption|].
    repeat match goal with
    | |- context [if ?c then diffuse _ _ _ _ _ else _] => destruct c
    end;
    rewrite ?length_diffuse, length_aset; assumption.
  - pose (Inv := fun (pos : Z) (g : list Z) =>
      forall j v, 0 <= j < pos -> truthy (aget bgMask j) = false ->
        aget g j = Some v -> (s | v) \/ v = 255).
    assert (Inv (h * w) (floydSteinbergRefine grayBuf bgMask w h (inject_Z s))) as Hfin.
    { unfold floydSteinbergRefine.
      apply (for_invariant (fun y g => Inv (y * w) g)); [lia| |].
      - intros j v Hj. lia.
      - intros y g Hy Hg.
        replace ((y + 1) * w) with (y * w + w) by ring.
        apply (for_invariant (fun x g => Inv (y * w + x) g)); [lia| |].
        + now rewrite Z.add_0_r.
        + clear g Hg. intros x g Hx Hg j v Hj Hfg.
          rewrite dither_pixel_scanned by lia.
          destruct (truthy (aget bgMask (y * w + x))) eqn:Hpix.
          * intros Hv. apply (Hg j v); auto.
            assert (j <> y * w + x) by (intros ->; congruence). lia.
          * destruct (Z.eq_dec j (y * w + x)) as [->|Hne].
            -- rewrite aget_aset_here. destruct (aget g (y * w + x)); [|discriminate].
               intros [= <-]. rewrite <- inject_Z_mult, toUint8Clamp_inject_Z.
               set (k := Math_round _).
               destruct (Z.le_gt_cases 255 (k * s)); [right; lia|left].
               destruct (Z.le_gt_cases (k * s) 0).
               ++ replace (Z.max 0 (Z.min 255 (k * s))) with 0 by lia.
                  apply Z.divide_0_r.
               ++ replace (Z.max 0 (Z.min 255 (k * s))) with (k * s) by lia.
                  apply Z.divide_factor_r.
            -- rewrite aget_aset_other by assumption. intros Hv.
               apply (Hg j v); auto. lia. }
    intros j v Hj. apply Hfin. lia.
Qed.

Lemma floydSteinbergRefine_quantises_witness :
  let out := floydSteinbergRefine [100; 200; 37; 90] [0; 1; 0; 0] 2 2 (inject_Z 85) in
  length out = length [100; 200; 37; 90] /\
  forall j v, 0 <= j < 2 * 2 -> truthy (aget [0; 1; 0; 0] j) = false ->
    aget out j = Some v -> (85 | v) \/ v = 255.
Proof.
  apply (floydSteinbergRefine_quantises [100; 200; 37; 90] [0; 1; 0; 0] 2 2 85); lia.
Defined.

(** ** The character grid of the regular renderer (X24) *)

Lemma buildGammaLUT_bytes {host : HostMath} (gamma : Q) :
  length (buildGammaLUT gamma) = 256%nat /\ Forall isByte (buildGammaLUT gamma).
Proof.
  unfold buildGammaLUT. split.
  - apply (for_preserves (fun l : list Z => length l = 256%nat)); [reflexivity|].
    intros i l _ Hl. now rewrite length_aset.
  - apply for_preserves.
    + apply Forall_newArray. change (0 <= 0 <= 255). lia.
    + intros i l _ Hl. apply Forall_aset; [assumption|]. apply toUint8Clamp_range.
Qed.

Lemma rd_Forall (P : Z -> Prop) (a : list Z) i : P 0 -> Forall P a -> P a.[i].
Proof.
  intros H0 Ha. unfold rd. destruct (aget a i) eqn:E; [|exact H0].
  rewrite Forall_forall in Ha. apply Ha. apply (aget_In _ _ _ E).
Qed.

Lemma buildGrayBuf_bytes (Y : list Q) (gammaLUT : list Z) (w h : Z) :
  0 <= w -> 0 <= h -> Forall isByte gammaLUT ->
  Z.of_nat (length (buildGrayBuf Y gammaLUT w h)) = w * h /\
  Forall isByte (buildGrayBuf Y gammaLUT w h).
Proof.
  intros Hw Hh Hlut. unfold buildGrayBuf. cbv zeta. split.
  - apply (for_preserves (fun l : list Z => Z.of_nat (length l) = w * h)).
    + rewrite length_newArray. nia.
    + intros i l _ Hl. now rewrite length_aset.
  - apply for_preserves.
    + apply Forall_newArray. change (0 <= 0 <= 255). lia.
    + intros i l _ Hl. apply Forall_aset; [assumption|].
      apply rd_Forall; [unfold isByte; lia|assumption].
Qed.

Lemma applyPreprocess_bytes (grayBuf : list Z) (w h : Z) (compactMode : bool) (strength : Q) :
  Forall isByte grayBuf ->
  length (applyPreprocess grayBuf w h compactMode strength) = length grayBuf /\
  Forall isByte (applyPreprocess grayBuf w h compactMode strength).
Proof.
  intros Hb. unfold applyPreprocess. cbv zeta. split.
  - apply (for_preserves (fun l : list Z => length l = length grayBuf)); [reflexivity|].
    intros i l _ Hl. now rewrite length_aset.
  - apply for_preserves; [assumption|].
    intros i l _ Hl. apply Forall_aset; [assumption|]. apply toUint8Clamp_range.
Qed.

Lemma floydSteinbergRefine_bytes (grayBuf bgMask : list Z) (w h : Z) (step : Q) :
  Forall isByte grayBuf ->
  length (floydSteinbergRefine grayBuf bgMask w h step) = length grayBuf /\
  Forall isByte (floydSteinbergRefine grayBuf bgMask w h step).
Proof.
  intros Hb. unfold floydSteinbergRefine.
  apply (for_preserves (fun g => length g = length grayBuf /\ Forall isByte g));
    [now split|].
  intros y g _ Hg.
  apply (for_preserves (fun g => length g = length grayBuf /\ Forall isByte g));
    [assumption|].
  clear g Hg. intros x g _ [Hl Hg]. cbv zeta.
  destruct (truthy _); [now split|].
  assert (forall n err weight g', (length g' = length grayBuf /\ Forall isByte g') ->
            length (diffuse bgMask n err weight g') = length grayBuf /\
            Forall isByte (diffuse bgMask n err weight g')) as Hdiff.
  { intros n err weight g' [Hl' Hg']. rewrite length_diffuse. split; [assumption|].
    unfold diffuse. destruct (truthy _); [assumption|].
    apply Forall_aset; [assumption|]. apply toUint8Clamp_range. }
  repeat match goal with
  | |- context [if ?c then diffuse _ _ _ _ _ else _] => destruct c
  end;
  repeat apply Hdiff;
  (split; [now rewrite length_aset | apply Forall_aset; [assumption|apply toUint8Clamp_range]]).
Qed.

Lemma length_join_glyphs (parts : list JSString) :
  Forall (fun s => length s = 1%nat) parts -> length (join [] parts) = length parts.
Proof.
  induction 1 as [|s parts Hs _ IH]; [reflexivity|].
  destruct parts as [|s' parts'].
  - simpl. assumption.
  - change (join [] (s :: s' :: parts')) with (s ++ [] ++ join [] (s' :: parts')).
    rewrite !length_app, IH, Hs. reflexivity.
Qed.

Lemma length_Zrange lo hi : length (Zrange lo hi) = Z.to_nat (hi - lo).
Proof. unfold Zrange. now rewrite length_map, length_seq. Qed.

Lemma buildCharMap_glyph (charSet : list JSString) (v : Z) :
  Forall (fun g => (length g <= 1)%nat) charSet -> 0 <= v <= 255 ->
  exists s, aget (buildCharMap charSet) v = Some s /\ length s = 1%nat.
Proof.
  intros Hset Hv.
  destruct (aget_in_range (buildCharMap charSet) v) as [s Hs].
  { unfold buildCharMap. cbv zeta. rewrite length_map, length_Zrange. lia. }
  exists s. split; [assumption|]. apply aget_In in Hs.
  unfold buildCharMap in Hs. cbv zeta in Hs. apply in_map_iff in Hs as (i & <- & _).
  destruct (aget charSet _) as [[|c g]|] eqn:E; try reflexivity.
  apply aget_In in E. rewrite Forall_forall in Hset. apply Hset in E.
  simpl in E. simpl. lia.
Qed.

Lemma pixelGlyph_single (bgMask grayBuf : list Z) (charSet : list JSString) (idx : Z) :
  Forall (fun g => (length g <= 1)%nat) charSet ->
  Forall isByte grayBuf -> 0 <= idx < Z.of_nat (length grayBuf) ->
  length (pixelGlyph bgMask grayBuf (buildCharMap charSet) idx) = 1%nat.
Proof.
  intros Hset Hb Hidx. unfold pixelGlyph. destruct (truthy _); [reflexivity|].
  destruct (aget_in_range grayBuf idx Hidx) as [v Hv]. rewrite Hv.
  assert (isByte v) as Hbyte.
  { rewrite Forall_forall in Hb. apply Hb. apply (aget_In _ _ _ Hv). }
  destruct (buildCharMap_glyph charSet v Hset Hbyte) as (s & -> & Hs). exact Hs.
Qed.

Lemma computeForegroundBBox_bounds (imageData : ImageData.t)
    (isBackground : Z -> Z -> Z -> Z -> bool) :
  let w := ImageData.width imageData in
  let h := ImageData.height imageData in
  let box := computeForegroundBBox imageData isBackground in
  0 <= w -> 0 <= h ->
  0 <= BBox.left box <= BBox.right box /\ BBox.right box <= w /\
  0 <= BBox.top box <= BBox.bottom box /\ BBox.bottom box <= h.
Proof.
  intros w h box Hw Hh. subst box. unfold computeForegroundBBox. fold w h. cbv zeta.
  destruct (trim_axis (rowIsBackground imageData isBackground) h Hh)
    as (Ht & Hb & _). cbv zeta in Ht, Hb.
  destruct (trim_axis (colIsBackground imageData isBackground) w Hw)
    as (Hl & Hr & _). cbv zeta in Hl, Hr.
  set (top := while_ (Z.to_nat h) _ Z.succ 0) in *.
  set (bottom := while_ (Z.to_nat h) _ Z.pred h) in *.
  set (left := while_ (Z.to_nat w) _ Z.succ 0) in *.
  set (right := while_ (Z.to_nat w) _ Z.pred w) in *.
  destruct (Z.leb_spec right left); cbn [orb BBox.left BBox.right BBox.top BBox.bottom];
    [lia|].
  destruct (Z.leb_spec bottom top); cbn [BBox.left BBox.right BBox.top BBox.bottom]; lia.
Qed.

(** X24.  With a character set of single-unit glyphs the regular renderer
    posts a rectangular grid: one line per row of the rendered box and one
    code unit per column, the box being the whole frame in compact mode and
    a box within the frame otherwise. *)
Theorem onmessage_regular_grid {host : HostMath}
    (imageData : ImageData.t) (options : Options) :
  let w := ImageData.width imageData in
  let h := ImageData.height imageData in
  isBraille (charSetName options) = false ->
  Forall (fun g => (length g <= 1)%nat) (charSet options) ->
  0 <= w -> 0 <= h ->
  exists (box : BBox.t) (lines : list JSString),
    onmessage imageData options = [ {| ascii := join newline lines |} ] /\
    (compactMode options = true -> box = fullFrame w h) /\
    0 <= BBox.left box <= BBox.right box /\ BBox.right box <= w /\
    0 <= BBox.top box <= BBox.bottom box /\ BBox.bottom box <= h /\
    Z.of_nat (length lines) = BBox.bottom box - BBox.top box /\
    Forall (fun l => Z.of_nat (length l) = BBox.right box - BBox.left box) lines.
Proof.
  intros w h Hreg Hset Hw Hh. unfold onmessage. fold w h. cbv zeta. rewrite Hreg.
  set (data := if invertColors options then _ else _).
  set (img := {| ImageData.data := data; ImageData.width := w; ImageData.height := h |}).
  set (bgMask := buildBgMask data w h (detectBackground img)).
  set (box := if compactMode options then _ else _).
  set (grayBuf0 := buildGrayBuf _ _ w h).
  set (grayBuf1 := if preprocess options then _ else grayBuf0).
  set (grayBuf := if dithering options && negb false then _ else grayBuf1).
  assert (Z.of_nat (length grayBuf) = w * h /\ Forall isByte grayBuf) as [Hlen Hbytes].
  { destruct (buildGrayBuf_bytes (computeLuminance data w h) (buildGammaLUT (gamma options))
                w h Hw Hh (proj2 (buildGammaLUT_bytes (gamma options)))) as [Hl0 Hb0].
    fold grayBuf0 in Hl0, Hb0.
    assert (Z.of_nat (length grayBuf1) = w * h /\ Forall isByte grayBuf1) as [Hl1 Hb1].
    { subst grayBuf1. destruct (preprocess options); [|now split].
      destruct (applyPreprocess_bytes grayBuf0 w h (compactMode options)
                  (preprocessStrength options) Hb0) as [-> Hb]. now split. }
    subst grayBuf. destruct (dithering options && negb false); [|now split].
    destruct (floydSteinbergRefine_bytes grayBuf1 bgMask w h
                (inject_Z (stepOf (charSet options))) Hb1) as [-> Hb]. now split. }
  assert (0 <= BBox.left box <= BBox.right box /\ BBox.right box <= w /\
          0 <= BBox.top box <= BBox.bottom box /\ BBox.bottom box <= h) as Hbox.
  { subst box. destruct (compactMode options).
    - cbn [BBox.left BBox.right BBox.top BBox.bottom]. lia.
    - apply (computeForegroundBBox_bounds img (detectBackground img)); assumption. }
  exists box. eexists. split; [|split; [|split; [|split; [|split; [|split; [|split]]]]]];
    try apply Hbox.
  - unfold renderRegular. cbv zeta. cbn [BBox.left BBox.right BBox.top BBox.bottom].
    unfold Math_floor, Math_ceil. rewrite !Qfloor_Z, !Qceiling_Z. reflexivity.
  - intros Hc. subst box. now rewrite Hc.
  - rewrite length_map, length_Zrange. lia.
  - apply Forall_map, Forall_forall. intros y Hy. apply In_Zrange in Hy.
    rewrite length_join_glyphs.
    + rewrite length_map, length_Zrange. lia.
    + apply Forall_map, Forall_forall. intros x Hx. apply In_Zrange in Hx.
      apply pixelGlyph_single; [assumption|assumption|]. rewrite Hlen. nia.
Qed.

Lemma onmessage_regular_grid_witness :
  exists (box : BBox.t) (lines : list JSString),
    onmessage (host := exampleHost)
      {| ImageData.data := [255; 255; 255; 255; 0; 0; 0; 255];
         ImageData.width := 2; ImageData.height := 1 |}
      {| invertColors := false; charSetName := standard;
         charSet := [lit "@"; lit "#"; lit "."; lit " "]; gamma := 1;
         dithering := false; compactMode := true; preprocess := false;
         preprocessStrength := 0 |}
    = [ {| ascii := join newline lines |} ] /\
    (true = true -> box = fullFrame 2 1) /\
    0 <= BBox.left box <= BBox.right box /\ BBox.right box <= 2 /\
    0 <= BBox.top box <= BBox.bottom box /\ BBox.bottom box <= 1 /\
    Z.of_nat (length lines) = BBox.bottom box - BBox.top box /\
    Forall (fun l => Z.of_nat (length l) = BBox.right box - BBox.left box) lines.
Proof.
  apply (onmessage_regular_grid (host := exampleHost)
    {| ImageData.data := [255; 255; 255; 255; 0; 0; 0; 255];
       ImageData.width := 2; ImageData.height := 1 |}
    {| invertColors := false; charSetName := standard;
       charSet := [lit "@"; lit "#"; lit "."; lit " "]; gamma := 1;
       dithering := false; compactMode := true; preprocess := false;
       preprocessStrength := 0 |});
    cbn [ImageData.width ImageData.height charSet charSetName isBraille];
    [reflexivity| |lia|lia].
  repeat constructor.
Defined.

(** ** The helpers of the canvas preprocessing (X25 to X28) *)

(** A loop that gives the three colour samples of each of the first [n]
    pixels one common value, computed from the samples not yet rewritten. *)
Lemma gray_loop (val : Z -> list Z -> Z) (data : list Z) (n : Z) :
  0 <= n ->
  (forall k d, (forall m, 4 * k <= m -> aget d m = aget data m) -> val k d = val k data) ->
  let out :=
    for_ 0 n (fun k d =>
      aset (aset (aset d (4 * k) (val k d)) (4 * k + 1) (val k d)) (4 * k + 2) (val k d))
      data in
  length out = length data /\
  forall j,
    aget out j =
    if (j <? 4 * n) && negb (j mod 4 =? 3)
    then option_map (fun _ => val (j / 4) data) (aget data j)
    else aget data j.
Proof.
  intros Hn Hval out. subst out. split.
  { apply (for_preserves (fun d => length d = length data)); [reflexivity|].
    intros k d _ Hd. now rewrite !length_aset. }
  pose (Inv := fun (k : Z) (d : list Z) =>
    forall j,
      aget d j =
      if (j <? 4 * k) && negb (j mod 4 =? 3)
      then option_map (fun _ => val (j / 4) data) (aget data j)
      else aget data j).
  apply (for_invariant Inv); [assumption| |].
  - intros j. destruct (Z.ltb_spec j (4 * 0)); cbn [andb]; [|reflexivity].
    rewrite (aget_out_of_range data j) by lia. now destruct (negb _).
  - intros k d Hk Hd j.
    assert (forall m, 4 * k <= m -> aget d m = aget data m) as Hsame.
    { intros m Hm. rewrite (Hd m). destruct (Z.ltb_spec m (4 * k)); [lia|reflexivity]. }
    rewrite (Hval k d Hsame).
    assert (forall c, 0 <= c < 4 -> (4 * k + c) mod 4 = c /\ (4 * k + c) / 4 = k) as Hdm
      by (intros c Hc; Z.div_mod_to_equations; lia).
    destruct (Z.eq_dec j (4 * k)) as [->|N0];
      [|destruct (Z.eq_dec j (4 * k + 1)) as [->|N1];
        [|destruct (Z.eq_dec j (4 * k + 2)) as [->|N2];
          [|destruct (Z.eq_dec j (4 * k + 3)) as [->|N3]]]].
    + rewrite !(aget_aset_other _ (4 * k)) by lia. rewrite aget_aset_here, Hsame by lia.
      destruct (Hdm 0 ltac:(lia)) as [M D]. rewrite Z.add_0_r in M, D. rewrite M, D.
      destruct (Z.ltb_spec (4 * k) (4 * (k + 1))); [|lia].
      cbn. now destruct (aget data (4 * k)).
    + rewrite !(aget_aset_other _ (4 * k + 1) (4 * k + 2)) by lia.
      rewrite aget_aset_here, aget_aset_other, Hsame by lia.
      destruct (Hdm 1 ltac:(lia)) as [-> ->].
      destruct (Z.ltb_spec (4 * k + 1) (4 * (k + 1))); [|lia].
      cbn. now destruct (aget data (4 * k + 1)).
    + rewrite aget_aset_here, !aget_aset_other, Hsame by lia.
      destruct (Hdm 2 ltac:(lia)) as [-> ->].
      destruct (Z.ltb_spec (4 * k + 2) (4 * (k + 1))); [|lia].
      cbn. now destruct (aget data (4 * k + 2)).
    + rewrite !aget_aset_other, Hsame by lia.
      destruct (Hdm 3 ltac:(lia)) as [-> _]. cbn. now rewrite andb_false_r.
    + rewrite !aget_aset_other by lia. rewrite (Hd j).
      destruct (Z.ltb_spec j (4 * k)), (Z.ltb_spec j (4 * (k + 1))); try lia; reflexivity.
Qed.

Lemma round_two_levels (b : Q) :
  toUint8Clamp (inject_Z (Math_round (b / (255 / inject_Z (2 - 1)))) * (255 / inject_Z (2 - 1)))
  = if Qltb b 127.5 then 0 else 255.
Proof.
  change (255 / inject_Z (2 - 1))%Q with (255 # 1)%Q.
  change (255 # 1)%Q with (inject_Z 255). rewrite <- inject_Z_mult, toUint8Clamp_inject_Z.
  unfold Math_round. set (k := Qfloor _).
  destruct (Qltb b 127.5) eqn:Hb.
  - apply Qltb_lt in Hb. assert (k < 1); [|lia].
    subst k. rewrite Zlt_Qlt. eapply Qle_lt_trans; [apply Qfloor_le|].
    change (inject_Z 1) with 1%Q. apply Qlt_minus_iff.
    setoid_replace (1 + - (b / inject_Z 255 + (1 # 2)))%Q with ((127.5 - b) / 255)%Q
      by (change (inject_Z 255) with 255%Q; field).
    apply Qlt_shift_div_l; lra.
  - apply Qltb_ge in Hb. assert (1 <= k); [|lia].
    subst k. change 1 with (Qfloor 1). apply Qfloor_resp_le.
    apply Qle_minus_iff.
    setoid_replace (b / inject_Z 255 + (1 # 2) + - 1)%Q with ((b - 127.5) / 255)%Q
      by (change (inject_Z 255) with 255%Q; field).
    apply Qle_shift_div_l; lra.
Qed.

(** X25.  [posterize] turns every pixel grey and keeps its alpha: the three
    colour samples of a pixel receive one common byte, and with 2 levels
    (the setting [preprocessImage] uses) that byte is 0 when the brightness
    of the pixel is below 127.5 and 255 when it is above. *)
Theorem posterize_pixels (data : list Z) (levels p : Z) :
  0 <= p -> 4 * p + 3 < Z.of_nat (length data) ->
  let out := posterize data levels in
  let brightness := brightnessOf data.[4 * p] data.[4 * p + 1] data.[4 * p + 2] in
  length out = length data /\
  exists v, isByte v /\
    aget out (4 * p) = Some v /\ aget out (4 * p + 1) = Some v /\
    aget out (4 * p + 2) = Some v /\
    aget out (4 * p + 3) = aget data (4 * p + 3) /\
    (levels = 2 ->
     ((brightness < 127.5)%Q -> v = 0) /\ ((127.5 < brightness)%Q -> v = 255)).
Proof.
  intros Hp Hlen out brightness. subst out brightness.
  unfold posterize. cbv zeta. rewrite forStep_for.
  set (step := (255 / inject_Z ((if levels <=? 1 then 2 else levels) - 1))%Q).
  set (n := (Z.of_nat (length data) - 0 + 4 - 1) / 4).
  pose (val := fun (k : Z) (d : list Z) =>
    toUint8Clamp (inject_Z (Math_round
      (brightnessOf d.[4 * k] d.[4 * k + 1] d.[4 * k + 2] / step)) * step)).
  destruct (gray_loop val data n) as [Hl Hget].
  { subst n. apply Z.div_pos; lia. }
  { intros k d Hsame. unfold val, rd. now rewrite !Hsame by lia. }
  cbv zeta in Hl, Hget.
  change (for_ 0 n (fun k s =>
            aset (aset (aset s (0 + 4 * k) (val k s)) (0 + 4 * k + 1) (val k s))
                 (0 + 4 * k + 2) (val k s)) data)
    with (for_ 0 n (fun k d =>
            aset (aset (aset d (4 * k) (val k d)) (4 * k + 1) (val k d))
                 (4 * k + 2) (val k d)) data).
  split; [assumption|].
  assert (4 * p + 3 < 4 * n) as Hn by (subst n; Z.div_mod_to_equations; lia).
  assert (forall c, 0 <= c < 4 -> (4 * p + c) mod 4 = c /\ (4 * p + c) / 4 = p) as Hdm
    by (intros c Hc; Z.div_mod_to_equations; lia).
  assert (forall c, 0 <= c < 3 -> aget
            (for_ 0 n (fun k d =>
               aset (aset (aset d (4 * k) (val k d)) (4 * k + 1) (val k d))
                    (4 * k + 2) (val k d)) data) (4 * p + c) = Some (val p data)) as Hrgb.
  { intros c Hc. rewrite Hget. destruct (Hdm c ltac:(lia)) as [-> ->].
    destruct (Z.ltb_spec (4 * p + c) (4 * n)); [|lia].
    replace (c =? 3) with false by (symmetry; apply Z.eqb_neq; lia). cbn [andb negb].
    destruct (aget_in_range data (4 * p + c)) as [v ->]; [lia|]. reflexivity. }
  exists (val p data). split; [apply toUint8Clamp_range|].
  split; [rewrite <- (Z.add_0_r (4 * p)); apply Hrgb; lia|].
  split; [apply Hrgb; lia|]. split; [apply Hrgb; lia|]. split.
  - rewrite Hget. destruct (Hdm 3 ltac:(lia)) as [-> _]. cbn. now rewrite andb_false_r.
  - intros ->. subst val step. cbv beta. change (2 <=? 1) with false. cbv iota.
    rewrite round_two_levels. split.
    + intros Hlow. apply Qltb_lt in Hlow. now rewrite Hlow.
    + intros Hhigh. apply Qlt_le_weak, Qltb_ge in Hhigh. now rewrite Hhigh.
Qed.

Lemma posterize_pixels_witness :
  let out := posterize [200; 10; 10; 7; 200; 200; 10; 9] 2 in
  let brightness :=
    brightnessOf [200; 10; 10; 7; 200; 200; 10; 9].[4 * 1]
                 [200; 10; 10; 7; 200; 200; 10; 9].[4 * 1 + 1]
                 [200; 10; 10; 7; 200; 200; 10; 9].[4 * 1 + 2] in
  length out = length [200; 10; 10; 7; 200; 200; 10; 9] /\
  exists v, isByte v /\
    aget out (4 * 1) = Some v /\ aget out (4 * 1 + 1) = Some v /\
    aget out (4 * 1 + 2) = Some v /\
    aget out (4 * 1 + 3) = aget [200; 10; 10; 7; 200; 200; 10; 9] (4 * 1 + 3) /\
    (2 = 2 ->
     ((brightness < 127.5)%Q -> v = 0) /\ ((127.5 < brightness)%Q -> v = 255)).
Proof.
  apply (posterize_pixels [200; 10; 10; 7; 200; 200; 10; 9] 2 1); simpl; lia.
Defined.

Lemma fromBinary_aget (binary data : list Z) :
  length (fromBinary binary data) = length data /\
  forall j,
    aget (fromBinary binary data) j =
    if (j <? 4 * Z.of_nat (length binary)) && negb (j mod 4 =? 3)
    then option_map (fun _ => toUint8Clamp (inject_Z (binary.[j / 4] * 255))) (aget data j)
    else aget data j.
Proof.
  unfold fromBinary.
  rewrite (for_ext 0 (Z.of_nat (length binary)) _
    (fun k d =>
       aset (aset (aset d (4 * k) (toUint8Clamp (inject_Z (binary.[k] * 255))))
                  (4 * k + 1) (toUint8Clamp (inject_Z (binary.[k] * 255))))
            (4 * k + 2) (toUint8Clamp (inject_Z (binary.[k] * 255))))).
  - apply (gray_loop (fun k _ => toUint8Clamp (inject_Z (binary.[k] * 255))));
      [lia|intros; reflexivity].
  - intros i d _. cbv zeta. now rewrite (Z.mul_comm i 4).
Qed.

Lemma toBinary_aget (data : list Z) :
  Z.of_nat (length (toBinary data)) = Z.of_nat (length data) / 4 /\
  forall i, 0 <= i < Z.of_nat (length data) / 4 ->
    aget (toBinary data) i = Some (if 128 <? data.[i * 4] then 1 else 0).
Proof.
  assert (0 <= Z.of_nat (length data) / 4) as Hn by (apply Z.div_pos; lia).
  destruct (fill1_spec (fun i => if 128 <? data.[i * 4] then 1 else 0)
              (Z.of_nat (length data) / 4)
              (newArray (Z.of_nat (length data) / 4))) as (Hl & Hin & _).
  { rewrite length_newArray. lia. }
  cbv zeta in Hl, Hin. unfold toBinary. cbv zeta.
  rewrite length_newArray, Z2Nat.id by assumption.
  split; [|exact Hin]. rewrite Hl, length_newArray. lia.
Qed.

(** X26.  Writing a 0/1 mask into pixel data and reading it back gives the
    mask again; writing the mask leaves every alpha sample as it was. *)
Theorem toBinary_fromBinary (binary data : list Z) :
  Forall (fun b => b = 0 \/ b = 1) binary ->
  Z.of_nat (length data) = 4 * Z.of_nat (length binary) ->
  toBinary (fromBinary binary data) = binary /\
  forall i, aget (fromBinary binary data) (4 * i + 3) = aget data (4 * i + 3).
Proof.
  intros Hbin Hlen. destruct (fromBinary_aget binary data) as [Hl Hget].
  destruct (toBinary_aget (fromBinary binary data)) as [Hlt Hread].
  rewrite Hl in Hlt, Hread.
  assert (Z.of_nat (length data) / 4 = Z.of_nat (length binary)) as Hq
    by (Z.div_mod_to_equations; lia).
  rewrite Hq in Hlt, Hread. split.
  - apply aget_ext. intros i.
    destruct (Z.le_gt_cases 0 i) as [Hi0|Hneg];
      [destruct (Z.lt_ge_cases i (Z.of_nat (length binary))) as [Hi|Hbig]|].
    + rewrite Hread by lia. unfold rd at 1. rewrite Hget.
      assert ((i * 4) mod 4 = 0 /\ i * 4 / 4 = i) as [-> ->]
        by (Z.div_mod_to_equations; lia).
      destruct (Z.ltb_spec (i * 4) (4 * Z.of_nat (length binary))); [|lia].
      cbn [andb negb Z.eqb].
      destruct (aget_in_range data (i * 4)) as [d ->]; [lia|]. cbn [option_map].
      destruct (aget_in_range binary i) as [b Hb]; [lia|].
      unfold rd. rewrite Hb. rewrite toUint8Clamp_inject_Z.
      rewrite Forall_forall in Hbin.
      destruct (Hbin b (aget_In _ _ _ Hb)) as [-> | ->]; reflexivity.
    + rewrite !aget_out_of_range; [reflexivity| |]; lia.
    + rewrite !aget_out_of_range; [reflexivity| |]; lia.
  - intros i. rewrite Hget.
    assert ((4 * i + 3) mod 4 = 3) as -> by (Z.div_mod_to_equations; lia).
    cbn. now rewrite andb_false_r.
Qed.

Lemma toBinary_fromBinary_witness :
  toBinary (fromBinary [1; 0] [9; 9; 9; 7; 200; 200; 200; 8]) = [1; 0] /\
  forall i, aget (fromBinary [1; 0] [9; 9; 9; 7; 200; 200; 200; 8]) (4 * i + 3) =
            aget [9; 9; 9; 7; 200; 200; 200; 8] (4 * i + 3).
Proof.
  apply (toBinary_fromBinary [1; 0] [9; 9; 9; 7; 200; 200; 200; 8]).
  - constructor; [now right|]. constructor; [now left|constructor].
  - reflexivity.
Defined.

(** The loop nest shared by [erode] and [dilate]: the interior pixels that
    pass the test [C] receive [v]; nothing else is written. *)
Lemma interior_update (C : Z -> Z -> bool) (v : Z) (input : list Z) (w h : Z) :
  0 <= w -> Z.of_nat (length input) = w * h ->
  let out :=
    for_ 1 (h - 1) (fun y b =>
      for_ 1 (w - 1) (fun x b => if C x y then aset b (y * w + x) v else b) b) input in
  length out = length input /\
  (forall j, aget out j = aget input j \/
     (aget out j = Some v /\
      exists x y, 1 <= x < w - 1 /\ 1 <= y < h - 1 /\ j = y * w + x /\ C x y = true)) /\
  (forall x y, 1 <= x < w - 1 -> 1 <= y < h - 1 -> C x y = true ->
     aget out (y * w + x) = Some v).
Proof.
  intros Hw Hlen out. subst out.
  assert (forall x y, 1 <= x < w - 1 -> 1 <= y < h - 1 -> 0 <= y * w + x < w * h)
    as Hin by (intros; nia).
  pose (Inv := fun (y' x' : Z) (b : list Z) =>
    length b = length input /\
    (forall j, aget b j = aget input j \/
       (aget b j = Some v /\
        exists x y, 1 <= x < w - 1 /\ 1 <= y < h - 1 /\ j = y * w + x /\ C x y = true)) /\
    (forall x y, 1 <= x < w - 1 -> 1 <= y < h - 1 -> y < y' \/ (y = y' /\ x < x') ->
       C x y = true -> aget b (y * w + x) = Some v)).
  assert (forall y' x' b, 1 <= x' < w - 1 -> 1 <= y' < h - 1 -> Inv y' x' b ->
            Inv y' (x' + 1) (if C x' y' then aset b (y' * w + x') v else b)) as Hstep.
  { intros y' x' b Hx' Hy' (Hl & Hany & Hdone).
    destruct (C x' y') eqn:Hc.
    - split; [now rewrite length_aset|]. split.
      + intros j. destruct (Z.eq_dec j (y' * w + x')) as [->|Hne].
        * right. split; [|now exists x', y'].
          apply aget_aset_same. rewrite Hl, Hlen. now apply Hin.
        * rewrite aget_aset_other by assumption. apply Hany.
      + intros x y Hx Hy Hpos Hcxy.
        destruct (Z.eq_dec (y * w + x) (y' * w + x')) as [->|Hne].
        * apply aget_aset_same. rewrite Hl, Hlen. now apply Hin.
        * rewrite aget_aset_other by assumption. apply Hdone; auto.
          destruct Hpos as [Hlt|[-> Hle]]; [now left|right].
          split; [reflexivity|]. assert (x <> x') by (intros ->; congruence). lia.
    - split; [assumption|]. split; [assumption|].
      intros x y Hx Hy Hpos Hcxy. apply Hdone; auto.
      destruct Hpos as [Hlt|[-> Hle]]; [now left|right].
      split; [reflexivity|]. assert (x <> x') by (intros ->; congruence). lia. }
  assert (Inv 1 1 input) as Hinit.
  { split; [reflexivity|]. split; [now left|]. intros x y Hx Hy Hpos. lia. }
  assert (Inv (Z.max 1 (h - 1)) 1
            (for_ 1 (h - 1) (fun y b =>
               for_ 1 (w - 1) (fun x b => if C x y then aset b (y * w + x) v else b) b)
               input)) as (Hl & Hany & Hdone).
  { destruct (Z.le_gt_cases 1 (h - 1)) as [Hrows|Hnone].
    - rewrite Z.max_r by assumption.
      apply (for_invariant (fun y' b => Inv y' 1 b)); [assumption|assumption|].
      intros y' b Hy' Hb.
      assert (Inv y' (Z.max 1 (w - 1))
                (for_ 1 (w - 1) (fun x b => if C x y' then aset b (y' * w + x) v else b) b))
        as (Hl' & Hany' & Hdone').
      { destruct (Z.le_gt_cases 1 (w - 1)) as [Hcols|Hnone].
        - rewrite Z.max_r by assumption.
          apply (for_invariant (fun x' b => Inv y' x' b)); [assumption|assumption|].
          intros x' b' Hx' Hb'. now apply Hstep.
        - rewrite for_empty by lia. rewrite Z.max_l by lia. assumption. }
      split; [assumption|]. split; [assumption|].
      intros x y Hx Hy Hpos. apply Hdone'; auto. lia.
    - rewrite for_empty by lia. rewrite Z.max_l by lia. assumption. }
  split; [assumption|]. split; [assumption|].
  intros x y Hx Hy. apply Hdone; auto. lia.
Qed.

(** X27.  [erode] only clears pixels: the mask keeps its size, every entry
    keeps its value or becomes 0, the one-pixel border is never written,
    and an interior pixel with a 0 among its four neighbours becomes 0. *)
Theorem erode_only_clears (binaryData : list Z) (w h : Z) :
  0 <= w -> Z.of_nat (length binaryData) = w * h ->
  let out := erode binaryData w h in
  length out = length binaryData /\
  (forall j, aget out j = aget binaryData j \/ aget out j = Some 0) /\
  (forall x y, 0 <= x < w -> 0 <= y < h ->
     x = 0 \/ x = w - 1 \/ y = 0 \/ y = h - 1 ->
     aget out (y * w + x) = aget binaryData (y * w + x)) /\
  (forall x y, 1 <= x < w - 1 -> 1 <= y < h - 1 ->
     aget binaryData (y * w + x - w) = Some 0 \/ aget binaryData (y * w + x + w) = Some 0 \/
     aget binaryData (y * w + x - 1) = Some 0 \/ aget binaryData (y * w + x + 1) = Some 0 ->
     aget out (y * w + x) = Some 0).
Proof.
  intros Hw Hlen out.
  destruct (interior_update
    (fun x y => isAt binaryData (y * w + x - w) 0 || isAt binaryData (y * w + x + w) 0
                || isAt binaryData (y * w + x - 1) 0 || isAt binaryData (y * w + x + 1) 0)
    0 binaryData w h Hw Hlen) as (Hl & Hany & Hdone).
  cbv zeta in Hl, Hany, Hdone. fold (erode binaryData w h) in Hl, Hany, Hdone.
  fold out in Hl, Hany, Hdone.
  split; [assumption|]. split; [|split].
  - intros j. destruct (Hany j) as [Hj|[Hj _]]; auto.
  - intros x y Hx Hy Hedge.
    destruct (Hany (y * w + x)) as [Hj|[_ (x' & y' & Hx' & Hy' & Heq & _)]]; auto.
    apply index_unique in Heq as [-> ->]; lia.
  - intros x y Hx Hy Hz. apply Hdone; auto. unfold isAt.
    destruct Hz as [-> |[-> |[-> | ->]]]; cbn [Z.eqb orb]; now rewrite ?orb_true_r.
Qed.

Lemma erode_only_clears_witness :
  let out := erode [1; 0; 1; 1; 1; 1; 1; 1; 1] 3 3 in
  aget out (1 * 3 + 1) = Some 0.
Proof.
  destruct (erode_only_clears [1; 0; 1; 1; 1; 1; 1; 1; 1] 3 3) as (_ & _ & _ & Hz);
    [lia|reflexivity|].
  apply (Hz 1 1); [lia|lia|]. left. reflexivity.
Defined.

(** X28.  [dilate] only sets pixels: the mask keeps its size, every entry
    keeps its value or becomes 1, the one-pixel border is never written,
    and an interior pixel with a 1 among its four neighbours becomes 1. *)
Theorem dilate_only_sets (binaryData : list Z) (w h : Z) :
  0 <= w -> Z.of_nat (length binaryData) = w * h ->
  let out := dilate binaryData w h in
  length out = length binaryData /\
  (forall j, aget out j = aget binaryData j \/ aget out j = Some 1) /\
  (forall x y, 0 <= x < w -> 0 <= y < h ->
     x = 0 \/ x = w - 1 \/ y = 0 \/ y = h - 1 ->
     aget out (y * w + x) = aget binaryData (y * w + x)) /\
  (forall x y, 1 <= x < w - 1 -> 1 <= y < h - 1 ->
     aget binaryData (y * w + x - w) = Some 1 \/ aget binaryData (y * w + x + w) = Some 1 \/
     aget binaryData (y * w + x - 1) = Some 1 \/ aget binaryData (y * w + x + 1) = Some 1 ->
     aget out (y * w + x) = Some 1).
Proof.
  intros Hw Hlen out.
  destruct (interior_update
    (fun x y => isAt binaryData (y * w + x - w) 1 || isAt binaryData (y * w + x + w) 1
                || isAt binaryData (y * w + x - 1) 1 || isAt binaryData (y * w + x + 1) 1)
    1 binaryData w h Hw Hlen) as (Hl & Hany & Hdone).
  cbv zeta in Hl, Hany, Hdone. fold (dilate binaryData w h) in Hl, Hany, Hdone.
  fold out in Hl, Hany, Hdone.
  split; [assumption|]. split; [|split].
  - intros j. destruct (Hany j) as [Hj|[Hj _]]; auto.
  - intros x y Hx Hy Hedge.
    destruct (Hany (y * w + x)) as [Hj|[_ (x' & y' & Hx' & Hy' & Heq & _)]]; auto.
    apply index_unique in Heq as [-> ->]; lia.
  - intros x y Hx Hy Hz. apply Hdone; auto. unfold isAt.
    destruct Hz as [-> |[-> |[-> | ->]]]; cbn [Z.eqb orb]; now rewrite ?orb_true_r.
Qed.

Lemma dilate_only_sets_witness :
  let out := dilate [0; 1; 0; 0; 0; 0; 0; 0; 0] 3 3 in
  aget out (1 * 3 + 1) = Some 1.
Proof.
  destruct (dilate_only_sets [0; 1; 0; 0; 0; 0; 0; 0; 0] 3 3) as (_ & _ & _ & Hz);
    [lia|reflexivity|].
  apply (Hz 1 1); [lia|lia|]. left. reflexivity.
Defined.

(** ** Smoothing and the percentile threshold (X29, X30) *)

(** X29.  [edgeAwareSmooth] does nothing for a strength of 0 or less, and
    for a positive strength it leaves every pixel whose gradient is 1 or
    more at its value: full-strength edges are not blurred. *)
Theorem edgeAwareSmooth_keeps_edges {host : HostMath} (Y grad : list Q) (w h : Z)
    (strength : Q) :
  0 <= w -> 0 <= h -> Z.of_nat (length Y) = w * h ->
  ((strength <= 0)%Q -> edgeAwareSmooth Y grad w h strength = Y) /\
  forall x y, 0 <= x < w -> 0 <= y < h -> (1 <= grad.[y * w + x])%Q ->
    ((edgeAwareSmooth Y grad w h strength).[y * w + x] == Y.[y * w + x])%Q.
Proof.
  intros Hw Hh Hlen. unfold edgeAwareSmooth. split.
  - intros Hs. apply Qle_bool_iff in Hs. now rewrite Hs.
  - intros x y Hx Hy Hg. destruct (Qle_bool strength 0); [reflexivity|]. cbv zeta.
    destruct (fill2_spec (smoothAt Y grad w h strength) w h
                (newArray (Z.of_nat (length Y)))) as [_ Hget]; [lia|lia| |].
    { rewrite length_newArray. lia. }
    cbv zeta in Hget. unfold rd at 1. rewrite (Hget x y Hx Hy).
    unfold smoothAt. cbv zeta.
    destruct (for_ (-1) 2 _ _) as [[wSum vSum] k].
    set (bilateral := (vSum / Qmax (1 # 1000000) wSum)%Q).
    assert (Qmin 1 grad.[y * w + x] == 1)%Q as Hmin by now apply Q.min_l.
    set (t := (strength * (1 - Qmin 1 grad.[y * w + x]) * 0.25)%Q).
    assert (t == 0)%Q as Ht by (subst t; rewrite Hmin; ring).
    assert (Qmax 0 t == 0)%Q as Hmax by (apply Q.max_l; rewrite Ht; apply Qle_refl).
    assert (Qmin 1 (Qmax 0 t) == 0)%Q as Hblend.
    { rewrite Q.min_r; [assumption|]. rewrite Hmax. discriminate. }
    rewrite Hblend. ring.
Qed.

Lemma edgeAwareSmooth_keeps_edges_witness :
  ((edgeAwareSmooth (host := exampleHost) [1; 2]%Q [0; 1]%Q 2 1 1).[0 * 2 + 1]
   == [1; 2]%Q.[0 * 2 + 1])%Q.
Proof.
  destruct (edgeAwareSmooth_keeps_edges (host := exampleHost) [1; 2]%Q [0; 1]%Q 2 1 1)
    as [_ Hkeep]; [lia|lia|reflexivity|].
  apply (Hkeep 1 0); [lia|lia|]. discriminate.
Defined.

Lemma sum_upd (a : list Z) (n : nat) (old v : Z) :
  nth_error a n = Some old ->
  fold_right Z.add 0 (upd a n v) = fold_right Z.add 0 a - old + v.
Proof.
  revert n. induction a as [|x a IH]; intros [|n] Hn; simpl in *; try discriminate.
  - injection Hn as ->. lia.
  - rewrite (IH n Hn). lia.
Qed.

Lemma sum_aset_incr (a : list Z) (b : Z) :
  0 <= b < Z.of_nat (length a) ->
  fold_right Z.add 0 (aset a b (a.[b] + 1)) = fold_right Z.add 0 a + 1.
Proof.
  intros Hb. destruct (aget_in_range a b Hb) as [old Hold].
  unfold rd. rewrite Hold. unfold aset, aget in *.
  destruct (Z.ltb_spec b 0); [lia|]. rewrite (sum_upd a _ old) by assumption. lia.
Qed.

(** The histogram has 256 bins, and its counts add up to the number of
    samples. *)
Lemma histogramOf_total (buf : list Q) :
  length (histogramOf buf) = 256%nat /\
  fold_right Z.add 0 (histogramOf buf) = Z.of_nat (length buf).
Proof.
  unfold histogramOf. cbv zeta.
  assert (length (for_ 0 (Z.of_nat (length buf)) (fun i hist =>
            aset hist
              (Z.max 0 (Z.min (256 - 1) (Math_floor (buf.[i] * inject_Z (256 - 1)))))
              (hist.[Z.max 0 (Z.min (256 - 1) (Math_floor (buf.[i] * inject_Z (256 - 1))))]
               + 1))
            (newArray 256)) = 256%nat /\
          fold_right Z.add 0 (for_ 0 (Z.of_nat (length buf)) (fun i hist =>
            aset hist
              (Z.max 0 (Z.min (256 - 1) (Math_floor (buf.[i] * inject_Z (256 - 1)))))
              (hist.[Z.max 0 (Z.min (256 - 1) (Math_floor (buf.[i] * inject_Z (256 - 1))))]
               + 1))
            (newArray 256)) = Z.of_nat (length buf)); [|assumption].
  apply (for_invariant (fun k hist =>
    length hist = 256%nat /\ fold_right Z.add 0 hist = k)); [lia| |].
  - split; reflexivity.
  - intros i hist _ [Hl Hsum]. split; [now rewrite length_aset|].
    rewrite sum_aset_incr by (rewrite Hl; lia). lia.
Qed.

Lemma rd_middle (pre l : list Z) (a : Z) :
  (pre ++ a :: l).[Z.of_nat (length pre)] = a.
Proof.
  unfold rd, aget. destruct (Z.ltb_spec (Z.of_nat (length pre)) 0); [lia|].
  rewrite Nat2Z.id, nth_error_app2, Nat.sub_diag by lia. reflexivity.
Qed.

(** The scan returns at the latest at the bin where the counts left to
    add reach the target. *)
Lemma scanBins_hits (target : Z) (l pre : list Z) (a cum : Z) :
  target <= cum + fold_right Z.add 0 (a :: l) ->
  exists j,
    Z.of_nat (length pre) <= j < Z.of_nat (length pre) + Z.of_nat (length (a :: l)) /\
    scanBins (pre ++ a :: l) target (length (a :: l)) (Z.of_nat (length pre)) cum =
    (inject_Z j / inject_Z (256 - 1))%Q.
Proof.
  revert pre a cum. induction l as [|a' l IH]; intros pre a cum Hsum;
    cbn [length scanBins]; rewrite rd_middle.
  - cbn [fold_right] in Hsum. destruct (Z.leb_spec target (cum + a)); [|lia].
    exists (Z.of_nat (length pre)). split; [lia|reflexivity].
  - destruct (Z.leb_spec target (cum + a)).
    + exists (Z.of_nat (length pre)). split; [lia|reflexivity].
    + destruct (IH (pre ++ [a]) a' (cum + a)) as (j & Hj & Hres).
      { cbn [fold_right] in *. lia. }
      rewrite length_app in Hj, Hres. cbn [length] in Hj, Hres.
      rewrite <- app_assoc in Hres. cbn [app] in Hres.
      replace (Z.of_nat (length pre + 1)) with (Z.of_nat (length pre) + 1) in Hres by lia.
      exists j. split; [lia|exact Hres].
Qed.

Lemma scanBins_range (hist : list Z) (target : Z) (n : nat) (i cum : Z) :
  0 <= i -> i + Z.of_nat n <= 256 ->
  (0 <= scanBins hist target n i cum <= 1)%Q.
Proof.
  revert i cum. induction n as [|n IH]; intros i cum Hi Hn; cbn [scanBins].
  - split; discriminate.
  - destruct (target <=? cum + hist.[i]); [|apply IH; lia].
    change (inject_Z (256 - 1)) with 255%Q. split.
    + apply Qle_shift_div_l; [reflexivity|]. rewrite Qmult_0_l.
      change 0%Q with (inject_Z 0). rewrite <- Zle_Qle. lia.
    + apply Qle_shift_div_r; [reflexivity|]. rewrite Qmult_1_l.
      change 255%Q with (inject_Z 255). rewrite <- Zle_Qle. lia.
Qed.

(** X30.  The percentile threshold always lies in [0, 1]; it is 0 for a
    percentile of 0 or less; and for a percentile of at most 100 it is one
    of the 256 bin positions [j / 255]: the fallback 0.5 is not returned. *)
Theorem percentileThreshold_range (buf : list Q) (p : Q) :
  (0 <= percentileThreshold buf p <= 1)%Q /\
  ((p <= 0)%Q -> (percentileThreshold buf p == 0)%Q) /\
  ((p <= 100)%Q ->
   exists j, 0 <= j <= 255 /\ percentileThreshold buf p = (inject_Z j / inject_Z 255)%Q).
Proof.
  unfold percentileThreshold. cbv zeta.
  destruct (histogramOf_total buf) as [Hl Hsum].
  set (target := Math_floor (inject_Z (Z.of_nat (length buf)) * p / 100)).
  assert ((p <= 100)%Q -> target <= Z.of_nat (length buf)) as Htarget.
  { intros Hp. subst target. unfold Math_floor.
    rewrite <- (Qfloor_Z (Z.of_nat (length buf))). apply Qfloor_resp_le.
    rewrite Qfloor_Z. apply Qle_shift_div_r; [reflexivity|].
    assert (0 <= inject_Z (Z.of_nat (length buf)))%Q
      by (change 0%Q with (inject_Z 0); rewrite <- Zle_Qle; lia).
    nra. }
  assert ((p <= 100)%Q ->
          exists j, 0 <= j <= 255 /\
            scanBins (histogramOf buf) target 256 0 0 = (inject_Z j / inject_Z 255)%Q)
    as Hhit.
  { intros Hp. destruct (histogramOf buf) as [|a l] eqn:Eh; [discriminate|].
    destruct (scanBins_hits target l [] a 0) as (j & Hj & Hres).
    { rewrite Hsum. apply Htarget, Hp. }
    rewrite Hl in Hres. cbn [app length] in Hres. change (Z.of_nat 0) with 0 in Hres.
    exists j. split; [|exact Hres].
    rewrite Hl in Hj. cbn [length] in Hj. lia. }
  split; [|split].
  - apply scanBins_range; lia.
  - intros Hp. destruct (Hhit ltac:(lra)) as (j & Hj & Hres).
    assert (target <= 0) as Ht0.
    { subst target. unfold Math_floor. change 0 with (Qfloor 0). apply Qfloor_resp_le.
      apply Qle_shift_div_r; [reflexivity|]. rewrite Qmult_0_l.
      assert (0 <= inject_Z (Z.of_nat (length buf)))%Q
        by (change 0%Q with (inject_Z 0); rewrite <- Zle_Qle; lia).
      nra. }
    assert (0 <= (histogramOf buf).[0]) as Hfirst.
    { apply rd_Forall; [lia|]. unfold histogramOf. cbv zeta.
      apply for_preserves; [apply Forall_newArray; reflexivity|].
      intros i hist _ Hh. apply Forall_aset; [assumption|].
      assert (0 <= hist.[Z.max 0 (Z.min (256 - 1)
                (Math_floor (buf.[i] * inject_Z (256 - 1))))])
        by (apply rd_Forall; [lia|assumption]).
      lia. }
    change 256%nat with (S 255). cbn [scanBins].
    destruct (Z.leb_spec target (0 + (histogramOf buf).[0])); [reflexivity|lia].
  - exact Hhit.
Qed.
